(** * go-graph-layout: layered (Sugiyama) graph layout

    A shallow embedding of the Go package [layout]: the layered graph and
    its construction from an acyclic graph, the crossing counter with its
    Fenwick tree, the Warfield ordering driver with the BFS initializer, and
    the Brandes-Koepf horizontal coordinate assignment.

    Conventions of the embedding.
    - [NodeID] is Go's [uint64], a natural number below [2^64]; the only
      arithmetic on ids is the increment of the dummy-id counter, written
      with its wrap-around ([uint64_succ]).
    - Go's [int] (layers, orders, coordinates, slice indices) is [Z].  The
      layout never builds a quantity beyond the number of nodes times the
      spacing, except for the sentinels [math.MaxInt] and [math.MinInt],
      which are kept as the constants [MaxInt] and [MinInt].
    - A Go map is a [gmap]; reading an absent key yields the zero value
      ([position], [lookupZ], [lookupN], [lookupB]).
    - [for k := range m] visits the keys of [m] in an order that Go leaves
      unspecified.  Every loop whose result can depend on that order takes
      the order as an explicit list, constrained by [enumerates].
    - A panic (index out of range, explicit [panic]) and a loop that runs
      out of fuel are both [None]. *)

From Stdlib Require Import ZArith NArith Lia.
From stdpp Require Import base option list gmap relations sorting.

Local Open Scope Z_scope.

(** ** Identifiers, positions and graphs (graph.go) *)

Abbreviation NodeID := N.

Definition uint64_modulus : N := (2 ^ 64)%N.

(** [id++] on a [uint64]. *)
Definition uint64_succ (n : NodeID) : NodeID := ((n + 1) mod uint64_modulus)%N.

Definition MaxInt : Z := 2 ^ 63 - 1.
Definition MinInt : Z := - 2 ^ 63.

Record Position := { X : Z; Y : Z }.

Record Node := { NodeXY : Position; NodeW : Z; NodeH : Z }.

Record Edge := { Path : list Position }.

Record Graph := {
  Edges : gmap (NodeID * NodeID) Edge;
  Nodes : gmap NodeID Node
}.

(** [l] is a possible visiting order of [for k := range m]. *)
Definition enumerates {K V} `{Countable K} (l : list K) (m : gmap K V) : Prop :=
  l ≡ₚ (map_to_list m).*1.

(** The option monad's left fold: a loop whose body may panic. *)
Fixpoint foldlM {A B} (f : B → A → option B) (b : B) (l : list A) : option B :=
  match l with
  | [] => Some b
  | a :: l => b' ← f b a; foldlM f b' l
  end.

(** ** Go's [sort.Slice]

    [sort.Slice] belongs to Go's standard library.  It is taken as an
    interface: a sorter receives the comparison, which may panic, and
    returns a rearranged slice.  [SliceSorterSpec] records what the
    theorems use of it. *)

Class SliceSorter := {
  sortSlice : ∀ {A : Type}, (A → A → option bool) → list A → option (list A)
}.

Class SliceSorterSpec `{SliceSorter} := {
  sortSlice_perm : ∀ (A : Type) (less : A → A → option bool) (l l' : list A),
    sortSlice less l = Some l' → l ≡ₚ l';
  sortSlice_total : ∀ (A : Type) (less : A → A → option bool) (l : list A),
    (∀ x y, x ∈ l → y ∈ l → is_Some (less x y)) → is_Some (sortSlice less l)
}.

(** The insertion sort that [sort.Slice] runs on a slice of fewer than
    twelve elements ([insertionSortLessFunc]): element [i] is swapped
    leftwards while [less(j, j-1)].  [sift] works on the already sorted
    prefix, kept in reverse. *)
Fixpoint sift {A} (less : A → A → option bool) (x : A) (rprefix : list A)
  : option (list A) :=
  match rprefix with
  | [] => Some [x]
  | y :: r =>
      b ← less x y;
      if b : bool then r' ← sift less x r; Some (y :: r') else Some (x :: rprefix)
  end.

Definition insertionSort {A} (less : A → A → option bool) (l : list A)
  : option (list A) :=
  r ← foldlM (λ r x, sift less x r) [] l; Some (reverse r).

Definition insertionSorter : SliceSorter := {| sortSlice := @insertionSort |}.

(** ** The layered graph (layered_graph.go) *)

Record LayerPosition := { Layer : Z; Order : Z }.

Definition IsLeftOf (p other : LayerPosition) : option bool :=
  if decide (Layer p = Layer other) then Some (Order p <? Order other) else None.

(** The Go field [Edges] of [LayeredGraph] is [LEdges] here: [Edges] names
    the field of [Graph]. *)
Record LayeredGraph := {
  Segments : gmap (NodeID * NodeID) bool;
  Dummy : gmap NodeID bool;
  NodePosition : gmap NodeID LayerPosition;
  LEdges : gmap (NodeID * NodeID) (list NodeID)
}.

Definition zeroPosition : LayerPosition := {| Layer := 0; Order := 0 |}.

(** [m[k]] for the value types of the package. *)
Definition lookupP (m : gmap NodeID LayerPosition) (n : NodeID) : LayerPosition :=
  default zeroPosition (m !! n).
Definition lookupZ (m : gmap NodeID Z) (n : NodeID) : Z := default 0 (m !! n).
Definition lookupN (m : gmap NodeID NodeID) (n : NodeID) : NodeID := default 0%N (m !! n).
Definition lookupB {K} `{Countable K} (m : gmap K bool) (k : K) : bool :=
  default false (m !! k).
Definition lookupL {K} `{Countable K} (m : gmap K (list NodeID)) (k : K) : list NodeID :=
  default [] (m !! k).

(** [g.NodePosition[n]] *)
Definition position (g : LayeredGraph) (n : NodeID) : LayerPosition :=
  lookupP (NodePosition g) n.

(** [s[i]] on a slice, with Go's bounds check. *)
Definition index {A} (s : list A) (i : Z) : option A :=
  if i <? 0 then None else s !! Z.to_nat i.

Definition len {A} (s : list A) : Z := Z.of_nat (length s).

Section layered_graph.
Context `{SliceSorter}.

(** [layers[layer] = append(layers[layer], node)] *)
Definition bucket (layers : list (list NodeID)) (layer : Z) (node : NodeID)
  : option (list (list NodeID)) :=
  if (layer <? 0) || (len layers <=? layer) then None
  else Some (alter (λ l, l ++ [node]) (Z.to_nat layer) layers).

Definition maxLayer (g : LayeredGraph) (ks : list NodeID) : Z :=
  fold_left (λ m n, if m <? Layer (position g n) then Layer (position g n) else m) ks 0.

(** [ks] is the order in which the two [range g.NodePosition] loops visit
    the nodes (the first loop computes a maximum). *)
Definition Layers (ks : list NodeID) (g : LayeredGraph) : option (list (list NodeID)) :=
  layers ← foldlM (λ layers node, bucket layers (Layer (position g node)) node)
                  (replicate (Z.to_nat (maxLayer g ks + 1)) []) ks;
  mapM (sortSlice (λ a b, IsLeftOf (position g a) (position g b))) layers.
End layered_graph.

(** The error value built by [fmt.Errorf] in [Validate]. *)
Record LayeringError := { err_edge : NodeID * NodeID; err_from : Z; err_to : Z }.

(** [None] is Go's [nil] error; [es] is the order of [range g.Segments]. *)
Fixpoint Validate (es : list (NodeID * NodeID)) (g : LayeredGraph) : option LayeringError :=
  match es with
  | [] => None
  | e :: es =>
      let from := Layer (position g e.1) in
      let to := Layer (position g e.2) in
      if from >=? to then Some {| err_edge := e; err_from := from; err_to := to |}
      else Validate es g
  end.

Definition IsInnerSegment (g : LayeredGraph) (segment : NodeID * NodeID) : bool :=
  lookupB (Dummy g) segment.1 && lookupB (Dummy g) segment.2.

Definition UpperNeighbors (es : list (NodeID * NodeID)) (g : LayeredGraph) (node : NodeID)
  : list NodeID :=
  fold_left (λ nodes e,
    if bool_decide (e.2 = node) then
      if Layer (position g e.1) =? Layer (position g e.2) - 1 then nodes ++ [e.1] else nodes
    else nodes) es [].

Definition LowerNeighbors (es : list (NodeID * NodeID)) (g : LayeredGraph) (node : NodeID)
  : list NodeID :=
  fold_left (λ nodes e,
    if bool_decide (e.1 = node) then
      if Layer (position g e.1) =? Layer (position g e.2) - 1 then nodes ++ [e.1] else nodes
    else nodes) es [].

(** [newLayersFrom]: a fresh copy; values are immutable here. *)
Definition newLayersFrom (src : list (list NodeID)) : list (list NodeID) := src.

(** [copy(dst, src)]: overwrite the first [min(len(dst), len(src))] cells. *)
Definition copySlice {A} (dst src : list A) : list A :=
  take (length dst) src ++ drop (length src) dst.

(** [copyLayers]: [dst[i]] panics when [dst] is shorter than [src]. *)
Fixpoint copyLayers (dst src : list (list NodeID)) : option (list (list NodeID)) :=
  match src, dst with
  | [], _ => Some dst
  | _ :: _, [] => None
  | s :: src, d :: dst => dst' ← copyLayers dst src; Some (copySlice d s :: dst')
  end.

(** ** Crossing counter and Fenwick tree (ordering.go) *)

Abbreviation FenwickTree := (list Z).

Definition NewFenwickTree (nbElements : Z) : FenwickTree :=
  replicate (Z.to_nat (nbElements + 1)) 0.

(** [for ; idx < len(bit); idx += idx & (-idx) { bit[idx] += value }] *)
Fixpoint Update_loop (fuel : nat) (bit : FenwickTree) (idx value : Z)
  : option FenwickTree :=
  if idx <? len bit then
    match fuel with
    | O => None
    | S fuel =>
        old ← index bit idx;
        Update_loop fuel (<[Z.to_nat idx := old + value]> bit)
                    (idx + Z.land idx (- idx)) value
    end
  else Some bit.

(** From a positive index the loop makes fewer than [len(bit)] rounds;
    from index 0 it never ends. *)
Definition Update (bit : FenwickTree) (idx value : Z) : option FenwickTree :=
  Update_loop (length bit) bit idx value.

(** [for ; idx > 0; idx -= idx & (-idx) { sum += bit[idx] }] *)
Fixpoint Query_loop (fuel : nat) (bit : FenwickTree) (idx sum : Z) : option Z :=
  if 0 <? idx then
    match fuel with
    | O => None
    | S fuel =>
        v ← index bit idx;
        Query_loop fuel bit (idx - Z.land idx (- idx)) (sum + v)
    end
  else Some sum.

Definition Query (bit : FenwickTree) (idx : Z) : option Z :=
  Query_loop (Z.to_nat idx) bit idx 0.

(** A slice with its indices, as [for i, x := range s] sees it. *)
Definition indexed {A} (s : list A) : list (Z * A) :=
  imap (λ i x, (Z.of_nat i, x)) s.

(** Both loops run from the last index down to 0. *)
Definition numCrossingsBetweenLayers (segments : gmap (NodeID * NodeID) bool)
    (ltop lbottom : list NodeID) : option Z :=
  r ← foldlM (λ st '(_, node),
         foldlM (λ '(sum, bit) '(j, neighbor),
            if lookupB segments (neighbor, node) then
              bit' ← Update bit (j + 1) 1;
              q ← Query bit' j;
              Some (sum + q, bit')
            else Some (sum, bit))
           st (reverse (indexed ltop)))
       (0, NewFenwickTree (len ltop)) (reverse (indexed lbottom));
  Some r.1.

(** The crossing count in the words of the specification: the segments
    between the two layers, each as the pair (position in [ltop], position
    in [lbottom]), and the number of pairs of segments [(a, c)], [(b, d)]
    such that [a] is left of [b] in [ltop] while [d] is left of [c] in
    [lbottom]. *)
Definition segmentPositions (segments : gmap (NodeID * NodeID) bool)
    (ltop lbottom : list NodeID) : list (Z * Z) :=
  '(i, c) ← indexed lbottom;
  '(j, a) ← indexed ltop;
  if lookupB segments (a, c) then [(j, i)] else [].

Definition crosses (ac bd : Z * Z) : bool := (ac.1 <? bd.1) && (bd.2 <? ac.2).

Definition crossingPairs (segs : list (Z * Z)) : list ((Z * Z) * (Z * Z)) :=
  filter (λ pr, crosses pr.1 pr.2) (list_prod segs segs).

Definition naiveCrossings (segments : gmap (NodeID * NodeID) bool)
    (ltop lbottom : list NodeID) : Z :=
  len (crossingPairs (segmentPositions segments ltop lbottom)).

(** [for i := range layers]: layer [i-1] against layer [i], skipping [i = 0]. *)
Definition numCrossings (segments : gmap (NodeID * NodeID) bool)
    (layers : list (list NodeID)) : option Z :=
  foldlM (λ count '(ltop, lbottom),
            n ← numCrossingsBetweenLayers segments ltop lbottom; Some (count + n))
         0 (zip layers (drop 1 layers)).

(** ** Ordering strategies and the Warfield driver (ordering.go)

    The two interfaces mutate [layers] in place; here they return the new
    layers, or [None] when they panic. *)

Class LayerOrderingInitializer := {
  Init : gmap (NodeID * NodeID) bool → list (list NodeID) → option (list (list NodeID))
}.

Class LayerOrderingOptimizer := {
  Optimize : gmap (NodeID * NodeID) bool → list (list NodeID) → Z → bool
             → option (list (list NodeID))
}.

(** [CompositeLayerOrderingOptimizer] *)
Definition CompositeOptimize (Optimizers : list LayerOrderingOptimizer)
    (segments : gmap (NodeID * NodeID) bool) (layers : list (list NodeID))
    (idx : Z) (downUp : bool) : option (list (list NodeID)) :=
  foldlM (λ layers q, @Optimize q segments layers idx downUp) layers Optimizers.

Record WarfieldState := {
  ws_layers : list (list NodeID);
  ws_bestN : Z;
  ws_bestLayers : list (list NodeID)
}.

(** The write-back loop: [lg.NodePosition[node] = LayerPosition{y, x}]. *)
Definition storeLayers (bestLayers : list (list NodeID))
    (np : gmap NodeID LayerPosition) : gmap NodeID LayerPosition :=
  fold_left (λ np '(y, layer),
     fold_left (λ np '(x, node), <[node := {| Layer := y; Order := x |}]> np)
               (indexed layer) np)
    (indexed bestLayers) np.

Section warfield.
Context `{SliceSorter} `{LayerOrderingInitializer} `{LayerOrderingOptimizer}.

(** The inner loop of one epoch: [for i := range layers]. *)
Definition sweep (segments : gmap (NodeID * NodeID) bool) (downUp : bool)
    (layers : list (list NodeID)) : option (list (list NodeID)) :=
  let n := len layers in
  foldlM (λ layers i,
            let j := if downUp then n - 1 - i else i in
            Optimize segments layers j downUp)
         layers (Z.of_nat <$> seq 0 (length layers)).

(** [n] epochs remain, [t] is the current one; the logging call is not
    modelled. *)
Fixpoint epochs (n : nat) (t : Z) (segments : gmap (NodeID * NodeID) bool)
    (st : WarfieldState) : option WarfieldState :=
  match n with
  | O => Some st
  | S n =>
      let downUp := t `rem` 2 =? 0 in
      layers ← sweep segments downUp (ws_layers st);
      N ← numCrossings segments layers;
      st' ← (if (ws_bestN st <? 0) || (N <? ws_bestN st) then
               best ← copyLayers (ws_bestLayers st) layers;
               Some {| ws_layers := layers; ws_bestN := N; ws_bestLayers := best |}
             else
               Some {| ws_layers := layers; ws_bestN := ws_bestN st;
                       ws_bestLayers := ws_bestLayers st |});
      if N =? 0 then Some st' else epochs n (t + 1) segments st'
  end.

(** [WarfieldOrderingOptimizer.Optimize]; the result is the layered graph
    with the [NodePosition] map as the call leaves it. *)
Definition WarfieldOptimize (Epochs : Z) (ks : list NodeID) (lg : LayeredGraph)
    : option LayeredGraph :=
  layers0 ← Layers ks lg;
  layers ← Init (Segments lg) layers0;
  st ← epochs (Z.to_nat Epochs) 0 (Segments lg)
         {| ws_layers := layers; ws_bestN := -1; ws_bestLayers := newLayersFrom layers |};
  Some {| Segments := Segments lg; Dummy := Dummy lg;
          NodePosition := storeLayers (ws_bestLayers st) (NodePosition lg);
          LEdges := LEdges lg |}.
End warfield.

(** *** BFSOrderingInitializer *)

Definition fromNodeToNodes (es : list (NodeID * NodeID)) : gmap NodeID (list NodeID) :=
  fold_left (λ m e, <[e.1 := lookupL m e.1 ++ [e.2]]> m) es ∅.

Definition hasParent (es : list (NodeID * NodeID)) : gmap NodeID bool :=
  fold_left (λ m e, <[e.2 := true]> m) es ∅.

(** [if _, ok := hasParent[e[1]]; !ok { roots = append(roots, e[1]) }] *)
Definition bfsRoots (parents : gmap NodeID bool) (es : list (NodeID * NodeID))
  : list NodeID :=
  fold_left (λ roots e,
     match parents !! e.2 with Some _ => roots | None => roots ++ [e.2] end) es [].

(** The queue loop; a node already in [ord] is skipped. *)
Fixpoint bfsVisit (fuel : nat) (next : gmap NodeID (list NodeID))
    (que : list NodeID) (cnt : Z) (ord : gmap NodeID Z) : option (gmap NodeID Z) :=
  match que with
  | [] => Some ord
  | p :: que =>
      match fuel with
      | O => None
      | S fuel =>
          match ord !! p with
          | Some _ => bfsVisit fuel next que cnt ord
          | None => bfsVisit fuel next (que ++ lookupL next p) (cnt + 1) (<[p := cnt]> ord)
          end
      end
  end.

Section bfs_initializer.
Context `{SliceSorter}.

(** [es1], [es2], [es3] are the orders of the three [range segments]
    loops.  Every node is expanded at most once, so the queue loop makes
    at most [len(roots) + len(segments)] rounds. *)
Definition BFSInit (es1 es2 es3 : list (NodeID * NodeID))
    (layers : list (list NodeID)) : option (list (list NodeID)) :=
  let next := fromNodeToNodes es1 in
  let roots := bfsRoots (hasParent es2) es3 in
  ord ← bfsVisit (length roots + length es1) next roots 0 ∅;
  mapM (sortSlice (λ a b, Some (lookupZ ord a <? lookupZ ord b))) layers.
End bfs_initializer.

(** *** Vocabulary of the Fenwick tree proof

    [lowbit p] is the lowest set bit of [p], what [idx & (-idx)] computes;
    cell [i] of the tree covers the indices in [(i - lowbit i, i]]. *)

Fixpoint lowbit (p : positive) : positive :=
  match p with
  | xO p => xO (lowbit p)
  | _ => xH
  end.

Definition coversP (i p : positive) : Prop :=
  Zpos i - Zpos (lowbit i) < Zpos p <= Zpos i.

Definition lb (i : Z) : Z := Z.land i (- i).

Definition covers (i p : Z) : bool := (i - lb i <? p) && (p <=? i).

(** The sum of the values [v] of the recorded updates [(p, v)] with [P p]. *)
Definition wsum (P : Z → bool) (ins : list (Z * Z)) : Z :=
  foldr (λ e acc, if P e.1 then e.2 + acc else acc) 0 ins.

(** The tree [bit] holds the updates [ins]. *)
Definition fen_inv (bit : FenwickTree) (ins : list (Z * Z)) : Prop :=
  ∀ i, 1 <= i < len bit → index bit i = Some (wsum (covers i) ins).

Definition cnt_le (j : Z) (ins : list (Z * Z)) : Z :=
  wsum (λ p, (1 <=? p) && (p <=? j)) ins.

(** The number of pairs of [l × k] that satisfy [P], row by row. *)
Definition count2 {A B} (P : A * B → Prop) `{∀ x, Decision (P x)}
    (l : list A) (k : list B) : nat :=
  sum_list_with (λ a, length (filter (λ b, P (a, b)) k)) l.

Definition crossCount (D : list (Z * Z)) : Z := len (crossingPairs D).

(** The update made for the segment at positions [s]. *)
Definition entry (s : Z * Z) : Z * Z := (s.1 + 1, 1).

(** The segments met by the inner loop for the bottom node [c] at
    position [i], over the part [tl] of the top layer. *)
Definition hits (segments : gmap (NodeID * NodeID) bool) (i : Z) (c : NodeID)
    (tl : list (Z * NodeID)) : list (Z * Z) :=
  '(j, a) ← tl; if lookupB segments (a, c) then [(j, i)] else [].

(** The segments met by the outer loop over the part [bl] of the bottom
    layer, in the order of the two loops. *)
Definition processed (segments : gmap (NodeID * NodeID) bool) (ltop : list NodeID)
    (bl : list (Z * NodeID)) : list (Z * Z) :=
  '(i, c) ← bl; hits segments i c (reverse (indexed ltop)).

Definition loop_inv (ltop : list NodeID) (D : list (Z * Z)) (st : Z * list Z) : Prop :=
  st.1 = crossCount D ∧ length st.2 = S (length ltop) ∧ fen_inv st.2 (entry <$> D).

(** [BFSOrderingInitializer] and the empty [CompositeLayerOrderingOptimizer]
    as instances of the two interfaces; the three loops of [Init] take the
    canonical enumeration of [segments]. *)
Definition BFSOrderingInitializer `{SliceSorter} : LayerOrderingInitializer :=
  {| Init := λ segments layers,
       let es := (map_to_list segments).*1 in BFSInit es es es layers |}.

Definition CompositeLayerOrderingOptimizer (Optimizers : list LayerOrderingOptimizer)
  : LayerOrderingOptimizer :=
  {| Optimize := CompositeOptimize Optimizers |}.

(** *** Vocabulary of the ordering proofs *)

Definition in_layer (g : LayeredGraph) (y : Z) (n : NodeID) : Prop :=
  Layer (position g n) = y.

Global Instance in_layer_dec g y n : Decision (in_layer g y n).
Proof. unfold in_layer. apply _. Defined.

(** [layers] holds, layer by layer, the nodes [ks] of [g]. *)
Definition buckets_of (g : LayeredGraph) (ks : list NodeID)
    (layers : list (list NodeID)) : Prop :=
  (∀ n, n ∈ ks → 0 <= Layer (position g n) < len layers) ∧
  (∀ (y : nat) l, layers !! y = Some l → l ≡ₚ filter (in_layer g (Z.of_nat y)) ks).

(** The assignments of the write-back loop, in the order it makes them. *)
Definition assignments (bestLayers : list (list NodeID))
  : list (NodeID * LayerPosition) :=
  '(y, layer) ← indexed bestLayers;
  '(x, node) ← indexed layer;
  [(node, {| Layer := y; Order := x |})].

(** The diamond 1 -> {2, 3} -> 4 as the layered graph builder leaves it,
    every order still 0. *)
Definition diamond : LayeredGraph := {|
  Segments := {[ (1%N, 2%N) := true; (1%N, 3%N) := true;
                 (2%N, 4%N) := true; (3%N, 4%N) := true ]};
  Dummy := ∅;
  NodePosition := {[ 1%N := {| Layer := 0; Order := 0 |};
                     2%N := {| Layer := 1; Order := 0 |};
                     3%N := {| Layer := 1; Order := 0 |};
                     4%N := {| Layer := 2; Order := 0 |} ]};
  LEdges := {[ (1%N, 2%N) := [1%N; 2%N]; (1%N, 3%N) := [1%N; 3%N];
               (2%N, 4%N) := [2%N; 4%N]; (3%N, 4%N) := [3%N; 4%N] ]}
|}.

(** Two chains, 1 -> 2 -> 5 and 3 -> 4, node 3 sitting on layer 1. *)
Definition two_chains : gmap (NodeID * NodeID) bool :=
  {[ (1%N, 2%N) := true; (2%N, 5%N) := true; (3%N, 4%N) := true ]}.

(** ** Building the layered graph (layers_layout.go, graph.go)

    The loops that only accumulate a set or a maximum ([hasParent],
    [maxNodeID], [makeSegments], [makeDummy]) give the same result in every
    visiting order; the first two share the order of a neighbouring loop
    and the last two take the canonical enumeration of the map. *)

(** [Graph.Roots]: [es] is the order of [range g.Edges], [ns] the order of
    [range g.Nodes]. *)
Definition Roots (es : list (NodeID * NodeID)) (ns : list NodeID) : list NodeID :=
  let parents := hasParent es in
  fold_left (λ roots n, if lookupB parents n then roots else roots ++ [n]) ns [].

Definition maxNodeID (es : list (NodeID * NodeID)) : NodeID :=
  fold_left (λ m e,
     let m := if (m <? e.1)%N then e.1 else m in
     if (m <? e.2)%N then e.2 else m) es 0%N.

(** The body of the loop over the children of [p]. *)
Definition relax (nodeYX : gmap NodeID LayerPosition) (p child : NodeID)
  : gmap NodeID LayerPosition :=
  let l := Layer (lookupP nodeYX p) + 1 in
  if l >? Layer (lookupP nodeYX child)
  then <[child := {| Layer := l; Order := 0 |}]> nodeYX
  else nodeYX.

(** The queue loop of [assignLevels]: pop [p], relax and enqueue each of
    its children. *)
Fixpoint levelsFrom (fuel : nat) (neighbors : gmap NodeID (list NodeID))
    (nodeYX : gmap NodeID LayerPosition) (que : list NodeID)
  : option (gmap NodeID LayerPosition) :=
  match que with
  | [] => Some nodeYX
  | p :: que =>
      match fuel with
      | O => None
      | S fuel =>
          let children := lookupL neighbors p in
          levelsFrom fuel neighbors
            (fold_left (λ yx child, relax yx p child) children nodeYX)
            (que ++ children)
      end
  end.

(** [es] is the order of the loop that fills [neighbors] (and of the loop
    of [Roots] over the edges), [ns] the order in which [Roots] visits the
    nodes; [fuel] bounds each queue loop. *)
Definition assignLevels (fuel : nat) (es : list (NodeID * NodeID)) (ns : list NodeID)
  : option (gmap NodeID LayerPosition) :=
  let neighbors := fromNodeToNodes es in
  foldlM (λ nodeYX root,
            levelsFrom fuel neighbors (<[root := zeroPosition]> nodeYX) [root])
         ∅ (Roots es ns).

Record EdgesState := {
  es_nodeYX : gmap NodeID LayerPosition;
  es_next : NodeID;
  es_edges : gmap (NodeID * NodeID) (list NodeID)
}.

(** [for layer := fromLayer + 1; layer < toLayer; layer++]: [n] rounds
    remain. *)
Fixpoint addFakes (n : nat) (layer : Z) (nodeYX : gmap NodeID LayerPosition)
    (next : NodeID) (newEdge : list NodeID)
  : gmap NodeID LayerPosition * NodeID * list NodeID :=
  match n with
  | O => (nodeYX, next, newEdge)
  | S n =>
      addFakes n (layer + 1) (<[next := {| Layer := layer; Order := 0 |}]> nodeYX)
               (uint64_succ next) (newEdge ++ [next])
  end.

(** The body of the loop of [makeEdges] for the edge [e]. *)
Definition makeEdge (st : EdgesState) (e : NodeID * NodeID) : EdgesState :=
  let fromLayer := Layer (lookupP (es_nodeYX st) e.1) in
  let toLayer := Layer (lookupP (es_nodeYX st) e.2) in
  let '(nodeYX, next, newEdge) :=
    if toLayer - fromLayer >? 1
    then addFakes (Z.to_nat (toLayer - (fromLayer + 1))) (fromLayer + 1)
                  (es_nodeYX st) (es_next st) [e.1]
    else (es_nodeYX st, es_next st, [e.1]) in
  {| es_nodeYX := nodeYX; es_next := next;
     es_edges := <[e := newEdge ++ [e.2]]> (es_edges st) |}.

(** [makeEdges] writes the dummy nodes into the map it is given; the
    result carries that map along.  [es] is the order of [range g.Edges]. *)
Definition makeEdges (es : list (NodeID * NodeID)) (nodeYX : gmap NodeID LayerPosition)
  : EdgesState :=
  fold_left makeEdge es
    {| es_nodeYX := nodeYX; es_next := uint64_succ (maxNodeID es); es_edges := ∅ |}.

(** The pairs [(nodes[i-1], nodes[i])]. *)
Definition consecutive (nodes : list NodeID) : list (NodeID * NodeID) :=
  zip nodes (drop 1 nodes).

Definition makeSegments (edges : gmap (NodeID * NodeID) (list NodeID))
  : option (gmap (NodeID * NodeID) bool) :=
  foldlM (λ segments '(e, nodes),
     if len nodes =? 2 then Some (<[e := true]> segments)
     else if len nodes >? 2 then
       Some (fold_left (λ segments s, <[s := true]> segments) (consecutive nodes) segments)
     else None)
    ∅ (map_to_list edges).

(** The nodes strictly inside the chain. *)
Definition interior (nodes : list NodeID) : list NodeID :=
  drop 1 (take (length nodes - 1) nodes).

Definition makeDummy (edges : gmap (NodeID * NodeID) (list NodeID)) : gmap NodeID bool :=
  fold_left (λ dummy '(_, nodes),
     if len nodes >? 2
     then fold_left (λ dummy n, <[n := true]> dummy) (interior nodes) dummy
     else dummy)
    (map_to_list edges) ∅.

(** The graph enters through the visiting orders of its maps: [es] and
    [ns] are the orders in which [assignLevels] sees [g.Edges] and
    [g.Nodes], [es'] the order in which [makeEdges] sees [g.Edges]; the
    node rectangles and edge paths are never read. *)
Definition NewLayeredGraph (fuel : nat) (es : list (NodeID * NodeID)) (ns : list NodeID)
    (es' : list (NodeID * NodeID)) : option LayeredGraph :=
  positions ← assignLevels fuel es ns;
  let st := makeEdges es' positions in
  segments ← makeSegments (es_edges st);
  Some {| NodePosition := es_nodeYX st;
          Segments := segments;
          Dummy := makeDummy (es_edges st);
          LEdges := es_edges st |}.

(** The triangle 1 -> 2 -> 3 with the long edge 1 -> 3, and a node 4 that
    touches no edge. *)
Definition triangle_and_4 : Graph := {|
  Edges := {[ (1%N, 2%N) := {| Path := [] |}; (2%N, 3%N) := {| Path := [] |};
              (1%N, 3%N) := {| Path := [] |} ]};
  Nodes := {[ 1%N := {| NodeXY := {| X := 0; Y := 0 |}; NodeW := 10; NodeH := 10 |};
              2%N := {| NodeXY := {| X := 0; Y := 0 |}; NodeW := 10; NodeH := 10 |};
              3%N := {| NodeXY := {| X := 0; Y := 0 |}; NodeW := 10; NodeH := 10 |};
              4%N := {| NodeXY := {| X := 0; Y := 0 |}; NodeW := 10; NodeH := 10 |} ]}
|}.

(** ** Brandes-Koepf horizontal coordinates (brandes_kopf.go)

    In this part the sentinels [MaxInt] and [MinInt] can enter sums, so
    every addition and subtraction on [int] is written with its 64-bit
    wrap-around. *)

Definition wrapInt (z : Z) : Z := (z + 2 ^ 63) `mod` 2 ^ 64 - 2 ^ 63.

Definition addInt (a b : Z) : Z := wrapInt (a + b).
Definition subInt (a b : Z) : Z := wrapInt (a - b).

Record Neighbors := {
  Up : gmap NodeID (list NodeID);
  Down : gmap NodeID (list NodeID)
}.

Section brandes_kopf.
Context `{SliceSorter}.

(** [for _, d := range m { sort.Slice(d, ...) }]: every entry is sorted by
    itself. *)
Definition sortEntries (g : LayeredGraph) (m : gmap NodeID (list NodeID))
  : option (gmap NodeID (list NodeID)) :=
  foldlM (λ acc '(k, d),
            d' ← sortSlice (λ a b, IsLeftOf (position g a) (position g b)) d;
            Some (<[k := d']> acc))
         ∅ (map_to_list m).

(** [es] is the order of [range g.Segments]. *)
Definition computeOrderedNeighbors (es : list (NodeID * NodeID)) (g : LayeredGraph)
  : option Neighbors :=
  let down := fold_left (λ m e, <[e.1 := lookupL m e.1 ++ [e.2]]> m) es ∅ in
  let up := fold_left (λ m e, <[e.2 := lookupL m e.2 ++ [e.1]]> m) es ∅ in
  down' ← sortEntries g down;
  up' ← sortEntries g up;
  Some {| Up := up'; Down := down' |}.

(** The first upper neighbour [u] of [v] with [(u, v)] an inner segment, or
    0 when there is none. *)
Definition upperNeighborInnerSegment (g : LayeredGraph) (n : Neighbors) (v : NodeID)
  : NodeID :=
  default 0%N (head (filter (λ u, IsInnerSegment g (u, v) = true) (lookupL (Up n) v))).

Record Sweep := {
  sw_marked : gmap (NodeID * NodeID) bool;
  sw_k0 : Z;
  sw_l : Z
}.

(** The body of [for l1, v := range nextLayer] in [preprocessing]; [upper]
    is [layers[i]]. *)
Definition sweepStep (g : LayeredGraph) (n : Neighbors) (upper nextLayer : list NodeID)
    (st : Sweep) (l1 : Z) (v : NodeID) : Sweep :=
  let inner := upperNeighborInnerSegment g n v in
  if (l1 =? len nextLayer - 1) || negb (inner =? 0)%N then
    let k1 := if negb (inner =? 0)%N then Order (position g inner) else len upper - 1 in
    (* for l <= l1 *)
    let marked :=
      fold_left (λ marked w,
          fold_left (λ marked '(k, u),
              if (k <? sw_k0 st) || (k >? k1) then <[(u, v) := true]> marked else marked)
            (indexed (lookupL (Up n) w)) marked)
        (take (Z.to_nat (l1 + 1 - sw_l st)) (drop (Z.to_nat (sw_l st)) nextLayer))
        (sw_marked st) in
    {| sw_marked := marked; sw_k0 := k1; sw_l := Z.max (sw_l st) (l1 + 1) |}
  else st.

(** Alg. 1: the type-1 segments. *)
Definition preprocessing (ks : list NodeID) (g : LayeredGraph) (n : Neighbors)
  : option (gmap (NodeID * NodeID) bool) :=
  layers ← Layers ks g;
  Some (fold_left (λ marked '(upper, nextLayer),
          sw_marked
            (fold_left (λ st '(l1, v), sweepStep g n upper nextLayer st l1 v)
               (indexed nextLayer)
               {| sw_marked := marked; sw_k0 := 0; sw_l := 0 |}))
        (zip layers (drop 1 layers)) ∅).
End brandes_kopf.

(** *** The four directions

    [singleDirAlgo] has four implementations, copies of one another up to
    the direction of the two traversals, the neighbour list, the
    comparisons and the sentinel. *)

Inductive singleDirAlgo := TopLeft | TopRight | BottomLeft | BottomRight.

Definition isTop (dir : singleDirAlgo) : bool :=
  match dir with TopLeft | TopRight => true | _ => false end.

Definition isLeft (dir : singleDirAlgo) : bool :=
  match dir with TopLeft | BottomLeft => true | _ => false end.

(** The layers in the order of the outer loop, each with its index. *)
Definition layersInOrder (dir : singleDirAlgo) (layers : list (list NodeID))
  : list (Z * list NodeID) :=
  if isTop dir then indexed layers else reverse (indexed layers).

(** The indices [m] tried in the neighbour list of length [d > 0]:
    [(d-1)/2 .. min((d+1)/2, d-1)], upwards for [Left], downwards for
    [Right]. *)
Definition medians (dir : singleDirAlgo) (d : Z) : list Z :=
  let lo := (d - 1) `quot` 2 in
  let hi := Z.min ((d + 1) `quot` 2) (d - 1) in
  let ms := seqZ lo (hi - lo + 1) in
  if isLeft dir then ms else reverse ms.

Record Alignment := {
  al_root : gmap NodeID NodeID;
  al_align : gmap NodeID NodeID;
  al_r : Z
}.

(** The body of the loop over [m] for the node [v] with neighbours [nb]. *)
Definition alignStep (dir : singleDirAlgo) (g : LayeredGraph)
    (typeOneSegments : gmap (NodeID * NodeID) bool) (v : NodeID) (nb : list NodeID)
    (st : Alignment) (m : Z) : option Alignment :=
  if (lookupN (al_align st) v =? v)%N then
    u ← index nb m;
    let segment := if isTop dir then (u, v) else (v, u) in
    let beyond := if isLeft dir then al_r st <? Order (position g u)
                  else al_r st >? Order (position g u) in
    if negb (lookupB typeOneSegments segment) && beyond then
      let align1 := <[u := v]> (al_align st) in
      let root1 := <[v := lookupN (al_root st) u]> (al_root st) in
      Some {| al_root := root1;
              al_align := <[v := lookupN root1 v]> align1;
              al_r := Order (position g u) |}
    else Some st
  else Some st.

Section alignment.
Context `{SliceSorter}.

(** Alg. 2; [ks] is the order of the loops over [g.NodePosition]. *)
Definition verticalAlignment (dir : singleDirAlgo) (ks : list NodeID) (g : LayeredGraph)
    (typeOneSegments : gmap (NodeID * NodeID) bool) (n : Neighbors)
  : option (gmap NodeID NodeID * gmap NodeID NodeID) :=
  let self := fold_left (λ m v, <[v := v]> m) ks (∅ : gmap NodeID NodeID) in
  layers ← Layers ks g;
  st ← foldlM (λ st '(_, layer),
          foldlM (λ st v,
              let nb := lookupL (if isTop dir then Up n else Down n) v in
              if len nb >? 0 then
                foldlM (alignStep dir g typeOneSegments v nb) st (medians dir (len nb))
              else Some st)
            {| al_root := al_root st; al_align := al_align st;
               al_r := if isLeft dir then -1 else MaxInt |}
            (if isLeft dir then layer else reverse layer))
        {| al_root := self; al_align := self; al_r := 0 |}
        (layersInOrder dir layers);
  Some (al_root st, al_align st).
End alignment.

Record Compaction := {
  cx : gmap NodeID Z;
  csink : gmap NodeID NodeID;
  cshift : gmap NodeID Z
}.

(** [layers[y][x]] *)
Definition index2 (layers : list (list NodeID)) (y x : Z) : option NodeID :=
  layer ← index layers y; index layer x.

(** The neighbour of [w] in its layer on the side the placement comes
    from: [Some None] when [w] is the first node on that side. *)
Definition predecessor (left : bool) (g : LayeredGraph) (layers : list (list NodeID))
    (w : NodeID) : option (option NodeID) :=
  let p := position g w in
  if left then
    if Order p >? 0 then Some <$> index2 layers (Layer p) (Order p - 1) else Some None
  else
    layer ← index layers (Layer p);
    if Order p <? len layer - 1 then Some <$> index layer (Order p + 1) else Some None.

(** What [placeBlock] does to [v] once the block of [u] is placed. *)
Definition placeAgainst (left : bool) (delta : Z) (v u : NodeID) (st : Compaction)
  : Compaction :=
  let sink1 := if (lookupN (csink st) v =? v)%N
               then <[v := lookupN (csink st) u]> (csink st) else csink st in
  let su := lookupN sink1 u in
  if negb (lookupN sink1 v =? su)%N then
    let s := if left then subInt (subInt (lookupZ (cx st) v) (lookupZ (cx st) u)) delta
             else addInt (addInt (lookupZ (cx st) v) (lookupZ (cx st) u)) delta in
    let better := if left then s <? lookupZ (cshift st) su else s >? lookupZ (cshift st) su in
    {| cx := cx st; csink := sink1;
       cshift := if better then <[su := s]> (cshift st) else cshift st |}
  else
    let s := if left then addInt (lookupZ (cx st) u) delta
             else subInt (lookupZ (cx st) u) delta in
    let better := if left then s >? lookupZ (cx st) v else s <? lookupZ (cx st) v in
    {| cx := if better then <[v := s]> (cx st) else cx st; csink := sink1;
       cshift := cshift st |}.

(** [for align[w] != v { w = align[w]; x[w] = x[v]; sink[w] = sink[v] }] *)
Fixpoint spreadBlock (fuel : nat) (align : gmap NodeID NodeID) (v w : NodeID)
    (st : Compaction) : option Compaction :=
  if (lookupN align w =? v)%N then Some st
  else
    match fuel with
    | O => None
    | S fuel =>
        let w := lookupN align w in
        spreadBlock fuel align v w
          {| cx := <[w := lookupZ (cx st) v]> (cx st);
             csink := <[w := lookupN (csink st) v]> (csink st);
             cshift := cshift st |}
    end.

(** [placeBlock], the same for [Top] and [Bottom]; [fuel] bounds the depth
    of the recursion and the length of each walk around a block. *)
Fixpoint placeBlock (fuel : nat) (left : bool) (g : LayeredGraph)
    (root align : gmap NodeID NodeID) (delta : Z) (layers : list (list NodeID))
    (st : Compaction) (v : NodeID) {struct fuel} : option Compaction :=
  match fuel with
  | O => None
  | S fuel =>
      match cx st !! v with
      | Some _ => Some st
      | None =>
          (* for ; flag; flag = v != w *)
          st ← (fix walk (n : nat) (st : Compaction) (w : NodeID) {struct n}
                  : option Compaction :=
                  match n with
                  | O => None
                  | S n =>
                      pred ← predecessor left g layers w;
                      st ← match pred with
                           | Some p =>
                               let u := lookupN root p in
                               st ← placeBlock fuel left g root align delta layers st u;
                               Some (placeAgainst left delta v u st)
                           | None => Some st
                           end;
                      let w := lookupN align w in
                      if (v =? w)%N then Some st else walk n st w
                  end)
                 fuel {| cx := <[v := 0]> (cx st); csink := csink st; cshift := cshift st |} v;
          spreadBlock fuel align v v st
      end
  end.

Record Offsets := {
  of_shift : gmap NodeID Z;
  of_j : Z
}.

(** The inner loop [for align[v] != root[v]] of the class offsets: follow
    the block of [v] and push the class on the far side of each of its
    nodes. *)
Fixpoint followBlock (fuel : nat) (dir : singleDirAlgo) (g : LayeredGraph)
    (root align : gmap NodeID NodeID) (delta : Z) (layers : list (list NodeID))
    (x : gmap NodeID Z) (sink : gmap NodeID NodeID)
    (shift : gmap NodeID Z) (j : Z) (v : NodeID) : option (gmap NodeID Z * Z * NodeID) :=
  if (lookupN align v =? lookupN root v)%N then Some (shift, j, v)
  else
    match fuel with
    | O => None
    | S fuel =>
        let v := lookupN align v in
        let j := if isTop dir then j + 1 else j - 1 in
        let p := position g v in
        far ← (if isLeft dir then Some (Order p >? 0)
               else layer ← index layers j; Some (Order p <? len layer - 1));
        shift ← (if far : bool then
                   u ← index2 layers (Layer p)
                        (if isLeft dir then Order p - 1 else Order p + 1);
                   let near := if isLeft dir then addInt (lookupZ x u) delta
                               else subInt (lookupZ x u) delta in
                   let shifted :=
                     subInt (addInt (lookupZ shift (lookupN sink v)) (lookupZ x v)) near in
                   let su := lookupN sink u in
                   let better := if isLeft dir then shifted <? lookupZ shift su
                                 else shifted >? lookupZ shift su in
                   Some (if better then <[su := shifted]> shift else shift)
                 else Some shift);
        followBlock fuel dir g root align delta layers x sink shift j v
    end.

(** The loop [for { ... }] of the class offsets, from [layers[j][k]]. *)
Fixpoint classOffsets (fuel : nat) (dir : singleDirAlgo) (g : LayeredGraph)
    (root align : gmap NodeID NodeID) (delta : Z) (layers : list (list NodeID))
    (x : gmap NodeID Z) (sink : gmap NodeID NodeID)
    (shift : gmap NodeID Z) (j k : Z) : option (gmap NodeID Z) :=
  match fuel with
  | O => None
  | S fuel =>
      v0 ← index2 layers j k;
      '(shift, j, v) ← followBlock (S fuel) dir g root align delta layers x sink shift j v0;
      let k := if isLeft dir then Order (position g v) + 1 else Order (position g v) - 1 in
      stop ← (if isLeft dir then
                layer ← index layers j;
                if k >? len layer - 1 then Some true
                else vk ← index layer k;
                     Some (negb (lookupN sink v =? lookupN sink vk)%N)
              else
                if k <? 0 then Some true
                else vk ← index2 layers j k;
                     Some (negb (lookupN sink v =? lookupN sink vk)%N));
      if stop : bool then Some shift
      else classOffsets fuel dir g root align delta layers x sink shift j k
  end.

Section compaction.
Context `{SliceSorter}.

(** Alg. 3.  [ks] is the order of the loops over [g.NodePosition] that
    fill [sink] and [shift], build the layers and add the shifts; [ps] is
    the order of the loop that places the blocks. *)
Definition horizontalCompaction (fuel : nat) (dir : singleDirAlgo) (ks ps : list NodeID)
    (g : LayeredGraph) (root align : gmap NodeID NodeID) (delta : Z)
  : option (gmap NodeID Z) :=
  let sentinel := if isLeft dir then MaxInt else MinInt in
  let sink := fold_left (λ m v, <[v := v]> m) ks (∅ : gmap NodeID NodeID) in
  let shift := fold_left (λ m v, <[v := sentinel]> m) ks (∅ : gmap NodeID Z) in
  layers ← Layers ks g;
  (* root coordinates relative to sink *)
  st ← foldlM (λ st v,
          if (lookupN root v =? v)%N
          then placeBlock fuel (isLeft dir) g root align delta layers st v
          else Some st)
        {| cx := ∅; csink := sink; cshift := shift |} ps;
  (* class offsets *)
  shift ← foldlM (λ shift '(i, layer),
            vfirst ← index layer (if isLeft dir then 0 else len layer - 1);
            if (lookupN (csink st) vfirst =? vfirst)%N then
              let sv := lookupN (csink st) vfirst in
              let shift := if lookupZ shift sv =? sentinel
                           then <[sv := 0]> shift else shift in
              classOffsets fuel dir g root align delta layers (cx st) (csink st) shift
                i (if isLeft dir then 0 else len layer - 1)
            else Some shift)
          (cshift st) (layersInOrder dir layers);
  (* absolute coordinates *)
  Some (fold_left (λ x v,
          <[v := addInt (lookupZ x v) (lookupZ shift (lookupN (csink st) v))]> x)
        ks (cx st)).
End compaction.

Record LayoutResult := {
  lr_x : gmap NodeID Z;
  minX : Z;
  maxX : Z
}.

Definition width (x : LayoutResult) : Z := subInt (maxX x) (minX x).

Record BrandesKopfLayersNodesHorizontalAssigner := {
  Delta : Z;
  TopDownOnly : bool
}.

(** [sort.Ints] on the four candidates. *)
Definition sortInts (place : list Z) : list Z := merge_sort Z.le place.

Section horizontal_assigner.
Context `{SliceSorter}.

Definition runAlgo (fuel : nat) (dir : singleDirAlgo) (ks ps : list NodeID)
    (g : LayeredGraph) (typeOneSegments : gmap (NodeID * NodeID) bool)
    (neighbors : Neighbors) (s : BrandesKopfLayersNodesHorizontalAssigner)
  : option LayoutResult :=
  '(root, align) ← verticalAlignment dir ks g typeOneSegments neighbors;
  x ← horizontalCompaction fuel dir ks ps g root align (Delta s);
  Some (fold_left (λ res '(_, v),
          let res := if v <? minX res
                     then {| lr_x := lr_x res; minX := v; maxX := maxX res |} else res in
          if v >? maxX res
          then {| lr_x := lr_x res; minX := minX res; maxX := v |} else res)
        (map_to_list x) {| lr_x := x; minX := MaxInt; maxX := MinInt |}).

(** [es] is the order of [range g.Segments], [ks] the order of the loops
    over [g.NodePosition] whose bodies treat each node by itself or sort
    their result, [ps] the order in which the blocks are placed. *)
Definition NodesHorizontalCoordinates (s : BrandesKopfLayersNodesHorizontalAssigner)
    (fuel : nat) (es : list (NodeID * NodeID)) (ks ps : list NodeID) (g : LayeredGraph)
  : option (gmap NodeID Z) :=
  neighbors ← computeOrderedNeighbors es g;
  typeOneSegments ← preprocessing ks g neighbors;
  resTL ← runAlgo fuel TopLeft ks ps g typeOneSegments neighbors s;
  resTR ← runAlgo fuel TopRight ks ps g typeOneSegments neighbors s;
  resB ← (if TopDownOnly s then Some (resTL, resTR)
          else
            resBL ← runAlgo fuel BottomLeft ks ps g typeOneSegments neighbors s;
            resBR ← runAlgo fuel BottomRight ks ps g typeOneSegments neighbors s;
            Some (resBL, resBR));
  let '(resBL, resBR) := resB in
  let best := resTL in
  let best := if width resTR <? width best then resTR else best in
  let best := if width resBL <? width best then resBL else best in
  let best := if width resBR <? width best then resBR else best in
  let shiftTL := subInt (minX best) (minX resTL) in
  let shiftTR := subInt (maxX best) (maxX resTR) in
  let shiftBL := subInt (minX best) (minX resBL) in
  let shiftBR := subInt (maxX best) (maxX resBR) in
  foldlM (λ x n,
      let place := sortInts [addInt (lookupZ (lr_x resTL) n) shiftTL;
                             addInt (lookupZ (lr_x resTR) n) shiftTR;
                             addInt (lookupZ (lr_x resBL) n) shiftBL;
                             addInt (lookupZ (lr_x resBR) n) shiftBR] in
      p1 ← index place 1;
      p2 ← index place 2;
      Some (<[n := addInt p1 p2 `quot` 2]> x))
    ∅ ks.
End horizontal_assigner.

(** Two nodes on each of two layers; node 2 is joined to 3 and to 4. *)
Definition fan : LayeredGraph := {|
  Segments := {[ (2%N, 3%N) := true; (2%N, 4%N) := true ]};
  Dummy := ∅;
  NodePosition := {[ 1%N := {| Layer := 0; Order := 0 |};
                     2%N := {| Layer := 0; Order := 1 |};
                     3%N := {| Layer := 1; Order := 0 |};
                     4%N := {| Layer := 1; Order := 1 |} ]};
  LEdges := {[ (2%N, 3%N) := [2%N; 3%N]; (2%N, 4%N) := [2%N; 4%N] ]}
|}.

(** ** More of graph.go: centres, totals and the bounding box *)

Definition CenterXY (n : Node) : Position :=
  {| X := X (NodeXY n) + NodeW n `quot` 2; Y := Y (NodeXY n) + NodeH n `quot` 2 |}.

(** The four results of [BoundingBox]. *)
Record Box := { box_minx : Z; box_miny : Z; box_maxx : Z; box_maxy : Z }.

(** The body of the loop of [BoundingBox]. *)
Definition growBox (b : Box) (node : Node) : Box :=
  let nx := X (NodeXY node) in
  let ny := Y (NodeXY node) in
  {| box_minx := if nx <? box_minx b then nx else box_minx b;
     box_maxx := if nx + NodeW node >? box_maxx b then nx + NodeW node else box_maxx b;
     box_miny := if ny <? box_miny b then ny else box_miny b;
     box_maxy := if ny + NodeH node >? box_maxy b then ny + NodeH node else box_maxy b |}.

(** The values met by [for _, node := range g.Nodes] when the keys come in
    the order [ns]. *)
Definition nodesInOrder (ns : list NodeID) (g : Graph) : list Node :=
  omap (λ n, Nodes g !! n) ns.

Definition BoundingBox (ns : list NodeID) (g : Graph) : Box :=
  fold_left growBox (nodesInOrder ns g)
    {| box_minx := 0; box_miny := 0; box_maxx := 0; box_maxy := 0 |}.

Definition TotalNodesWidth (ns : list NodeID) (g : Graph) : Z :=
  fold_left (λ w node, w + NodeW node) (nodesInOrder ns g) 0.

Definition TotalNodesHeight (ns : list NodeID) (g : Graph) : Z :=
  fold_left (λ h node, h + NodeH node) (nodesInOrder ns g) 0.



(** *** Vocabulary of the further properties of the ordering code *)



(** The naive count summed over the pairs of adjacent layers. *)
Definition naiveTotalCrossings (segments : gmap (NodeID * NodeID) bool)
    (layers : list (list NodeID)) : Z :=
  foldr (λ pr acc, naiveCrossings segments pr.1 pr.2 + acc) 0 (zip layers (drop 1 layers)).

(** ** Further ordering strategies (ordering.go) *)

(** The indices [i] of [other] with [adjacent t other[i]], in ascending
    order. *)
Definition neighborsXIn (adjacent : NodeID → NodeID → bool) (t : NodeID)
    (other : list NodeID) : list Z :=
  (filter (λ p, adjacent t p.2 = true) (indexed other)).*1.

Definition lowerNeighborsX (segments : gmap (NodeID * NodeID) bool)
    (layers : list (list NodeID)) (x y : Z) : option (list Z) :=
  if y =? len layers - 1 then Some []
  else
    layer ← index layers y;
    t ← index layer x;
    below ← index layers (y + 1);
    Some (neighborsXIn (λ t n, lookupB segments (t, n)) t below).

Definition upperNeighborsX (segments : gmap (NodeID * NodeID) bool)
    (layers : list (list NodeID)) (x y : Z) : option (list Z) :=
  if y =? 0 then Some []
  else
    layer ← index layers y;
    t ← index layer x;
    above ← index layers (y - 1);
    Some (neighborsXIn (λ t n, lookupB segments (n, t)) t above).

(** The body of the loop of [SwitchAdjacentOrderingOptimizer.Optimize] for
    the positions [i] and [i + 1] of [layer]; [fixed] is the neighbour
    layer, below when [downUp] and above otherwise. *)
Definition switchStep (segments : gmap (NodeID * NodeID) bool) (fixed : list NodeID)
    (downUp : bool) (layer : list NodeID) (i : Z) : option (list NodeID) :=
  a ← index layer i;
  b ← index layer (i + 1);
  let crossings pair :=
    if downUp then numCrossingsBetweenLayers segments pair fixed
    else numCrossingsBetweenLayers segments fixed pair in
  currCrossings ← crossings [a; b];
  swappedCrossings ← crossings [b; a];
  if swappedCrossings <? currCrossings
  then Some (<[Z.to_nat (i + 1) := a]> (<[Z.to_nat i := b]> layer))
  else Some layer.

Definition SwitchAdjacentOptimize (segments : gmap (NodeID * NodeID) bool)
    (layers : list (list NodeID)) (y : Z) (downUp : bool) : option (list (list NodeID)) :=
  layer ← index layers y;
  if len layer <? 2 then Some layers
  else if downUp && (y =? len layers - 1) then Some layers
  else if negb downUp && (y =? 0) then Some layers
  else
    fixed ← index layers (if downUp then y + 1 else y - 1);
    layer' ← foldlM (switchStep segments fixed downUp) layer (seqZ 0 (len layer - 1));
    Some (<[Z.to_nat y := layer']> layers).

Definition SwitchAdjacentOrderingOptimizer : LayerOrderingOptimizer :=
  {| Optimize := SwitchAdjacentOptimize |}.

(** *** Vocabulary of the layering proofs *)

(** A walk of [k] edges of [es] from [u] to [v]. *)
Inductive path (es : list (NodeID * NodeID)) (u : NodeID) : NodeID → nat → Prop :=
  | path_nil : path es u u 0
  | path_step v w k : path es u v k → (v, w) ∈ es → path es u w (S k).

Abbreviation layerOf yx n := (Layer (lookupP yx n)).

(** The state of the queue loop within the loop over the roots: [R] are the
    roots taken so far; [pend] are the edges whose relaxation is under way. *)
Record levels_inv (es : list (NodeID * NodeID)) (R : list NodeID) (yx : gmap NodeID LayerPosition)
    (que : list NodeID) (pend : NodeID → NodeID → Prop) : Prop := {
  inv_que : ∀ n, n ∈ que → is_Some (yx !! n);
  inv_pos : ∀ n pos, yx !! n = Some pos → 0 <= Layer pos ∧ Order pos = 0;
  inv_edge : ∀ u v, (u, v) ∈ es → is_Some (yx !! u) →
     u ∈ que ∨ pend u v ∨ (is_Some (yx !! v) ∧ layerOf yx u + 1 <= layerOf yx v);
  inv_path : ∀ n pos, yx !! n = Some pos →
     ∃ r, r ∈ R ∧ path es r n (Z.to_nat (Layer pos));
  inv_root : ∀ r, r ∈ R → is_Some (yx !! r)
}.

(** A bound on the number of rounds of the queue loop that start from [p]. *)
Definition rounds (es : list (NodeID * NodeID)) (rank : NodeID → nat) (p : NodeID) : nat :=
  S (length es) ^ rank p.

Definition chain_of (e : NodeID * NodeID) (nodes : list NodeID) : Prop :=
  ∃ mid, nodes = e.1 :: mid ++ [e.2].

(** The layer difference of an edge in [nodeYX], and the number of dummy
    nodes that [makeEdges] creates for the edges [es]. *)
Definition gap (nodeYX : gmap NodeID LayerPosition) (e : NodeID * NodeID) : Z :=
  Layer (lookupP nodeYX e.2) - Layer (lookupP nodeYX e.1).

Definition dummyCount (nodeYX : gmap NodeID LayerPosition) (es : list (NodeID * NodeID)) : Z :=
  foldr (λ e acc, Z.max 0 (gap nodeYX e - 1) + acc) 0 es.

Definition unit_chain (yx : gmap NodeID LayerPosition) (nodes : list NodeID) : Prop :=
  ∀ (i : nat) a b, nodes !! i = Some a → nodes !! S i = Some b →
    Layer (lookupP yx b) = Layer (lookupP yx a) + 1.

Definition fakeIds (next : NodeID) (n : nat) : list NodeID :=
  (λ k, (next + N.of_nat k)%N) <$> seq 0 n.

Definition good_chain (nodeYX0 : gmap NodeID LayerPosition) (M : NodeID) (st : EdgesState)
    (e : NodeID * NodeID) (nodes : list NodeID) : Prop :=
  (e.1 <= M)%N ∧ (e.2 <= M)%N ∧
  ∃ fakes, nodes = e.1 :: fakes ++ [e.2] ∧
    len fakes = Z.max 0 (gap nodeYX0 e - 1) ∧
    (∀ n, n ∈ fakes → (M < n < es_next st)%N) ∧
    (1 <= gap nodeYX0 e → unit_chain (es_nodeYX st) nodes).

(** *** Small inputs of the layering and ordering examples *)

(** The triangle 1 -> 2 -> 3 with the long edge 1 -> 3. *)
Definition triangle_edges : list (NodeID * NodeID) :=
  [(1%N, 2%N); (2%N, 3%N); (1%N, 3%N)].

(** The edge 1 -> 2 into the cycle 2 -> 3 -> 2. *)
Definition lasso_edges : list (NodeID * NodeID) :=
  [(1%N, 2%N); (2%N, 3%N); (3%N, 2%N)].

(** Two layers of two nodes whose two segments cross. *)
Definition crossed : gmap (NodeID * NodeID) bool :=
  {[ (1%N, 4%N) := true; (2%N, 3%N) := true ]}.

(** *** Vocabulary of the transposition proof *)

(** The sum of [c x y] over the pairs of positions [x] before [y] of a
    layer. *)
Fixpoint pairSum (c : NodeID → NodeID → nat) (l : list NodeID) : nat :=
  match l with
  | [] => 0
  | x :: l => sum_list_with (c x) l + pairSum c l
  end.

(** The slice [imap] of [indexed], counted from [k]. *)
Definition tagged (k : Z) (l : list NodeID) : list (Z * NodeID) :=
  imap (λ i x, (k + Z.of_nat i, x)) l.

(** The positions in [fixed] of the segment ends of a node [a] of the
    neighbour layer: [a] is the upper end in [endsBelow], the lower in
    [endsAbove]. *)
Definition endsBelow (segments : gmap (NodeID * NodeID) bool) (fixed : list NodeID)
    (a : NodeID) : list Z :=
  '(i, c) ← indexed fixed; if lookupB segments (a, c) then [i] else [].

Definition endsAbove (segments : gmap (NodeID * NodeID) bool) (fixed : list NodeID)
    (c : NodeID) : list Z :=
  '(j, a) ← indexed fixed; if lookupB segments (a, c) then [j] else [].

Abbreviation crossesP := (λ pr : (Z * Z) * (Z * Z), Is_true (crosses pr.1 pr.2)).

(** The segments of the tagged nodes [T], when [W j a] are the segments of
    the node [a] at position [j]; and the crossings between the segments of
    two nodes, the first of them on the left. *)
Definition segsOf (W : Z → NodeID → list (Z * Z)) (T : list (Z * NodeID)) : list (Z * Z) :=
  T ≫= (λ t, W t.1 t.2).

Definition pairCross (W : Z → NodeID → list (Z * Z)) (a b : NodeID) : nat :=
  (count2 crossesP (W 0%Z a) (W 1%Z b) + count2 crossesP (W 1%Z b) (W 0%Z a))%nat.

Definition WA (segments : gmap (NodeID * NodeID) bool) (fixed : list NodeID)
    (j : Z) (a : NodeID) : list (Z * Z) :=
  pair j <$> endsBelow segments fixed a.

Definition WB (segments : gmap (NodeID * NodeID) bool) (fixed : list NodeID)
    (i : Z) (c : NodeID) : list (Z * Z) :=
  (λ j, (j, i)) <$> endsAbove segments fixed c.

(** The crossings between [layer] and the fixed neighbour layer, which is
    below when [downUp]. *)
Definition against (segments : gmap (NodeID * NodeID) bool) (fixed : list NodeID)
    (downUp : bool) (layer : list NodeID) : Z :=
  if downUp then naiveCrossings segments layer fixed
  else naiveCrossings segments fixed layer.

(** ** Edge paths (StraightEdgePathAssigner) *)

(** [allNodesXY[n]] *)
Definition lookupXY (m : gmap NodeID Position) (n : NodeID) : Position :=
  default {| X := 0; Y := 0 |} (m !! n).

(** [StraightEdgePathAssigner.UpdateGraphLayout]; [les] is the order of
    [range lg.Edges].  The call rewrites [g.Edges] in place; the result is
    the graph as a call that returns leaves it. *)
Definition straightEdge (allNodesXY : gmap NodeID Position)
    (st : gmap (NodeID * NodeID) Edge * Z) (kv : (NodeID * NodeID) * list NodeID)
  : option (gmap (NodeID * NodeID) Edge * Z) :=
  let '(edges, numAssignedEdges) := st in
  let '(e, nodes) := kv in
  match edges !! e with
  | None => None
  | Some _ =>
      Some (<[e := {| Path := lookupXY allNodesXY <$> nodes |}]> edges,
            numAssignedEdges + 1)
  end.

Definition StraightEdgeUpdateGraphLayout (les : list ((NodeID * NodeID) * list NodeID))
    (g : Graph) (allNodesXY : gmap NodeID Position) : option Graph :=
  '(edges, numAssignedEdges) ← foldlM (straightEdge allNodesXY) (Edges g, 0) les;
  if negb (numAssignedEdges =? Z.of_nat (size edges)) then None
  else Some {| Edges := edges; Nodes := Nodes g |}.

(** The diamond as a graph whose edges have no path yet, the coordinates
    of its nodes, and a layered graph without nodes. *)
Definition diamond_graph : Graph := {|
  Edges := {[ (1%N, 2%N) := {| Path := [] |}; (1%N, 3%N) := {| Path := [] |};
              (2%N, 4%N) := {| Path := [] |}; (3%N, 4%N) := {| Path := [] |} ]};
  Nodes := ∅
|}.

Definition diamond_xy : gmap NodeID Position :=
  {[ 1%N := {| X := 10; Y := 0 |}; 2%N := {| X := 0; Y := 10 |};
     3%N := {| X := 20; Y := 10 |}; 4%N := {| X := 10; Y := 20 |} ]}.

Definition empty_layered : LayeredGraph :=
  {| Segments := ∅; Dummy := ∅; NodePosition := ∅; LEdges := ∅ |}.

(** The neighbour lists of the diamond. *)
Definition diamond_neighbors : Neighbors := {|
  Up := {[ 2%N := [1%N]; 3%N := [1%N]; 4%N := [2%N; 3%N] ]};
  Down := {[ 1%N := [2%N; 3%N]; 2%N := [4%N]; 3%N := [4%N] ]}
|}.

(** * Theorems *)

(** ** Validate (claim C3) *)

Definition unit_segment (g : LayeredGraph) (e : NodeID * NodeID) : Prop :=
  Layer (position g e.2) = Layer (position g e.1) + 1.

Definition descending_segment (g : LayeredGraph) (e : NodeID * NodeID) : Prop :=
  Layer (position g e.1) < Layer (position g e.2).

Lemma Validate_nil_iff (es : list (NodeID * NodeID)) (g : LayeredGraph) :
  Validate es g = None ↔ Forall (descending_segment g) es.
Proof.
  induction es as [|e es IH]; simpl.
  - split; [constructor | done].
  - destruct (Z.geb_spec (Layer (position g e.1)) (Layer (position g e.2))) as [Hge|Hlt].
    + split; [done | inversion 1; subst; unfold descending_segment in *; lia].
    + rewrite IH. split.
      * intros Hall. constructor; [unfold descending_segment; lia | done].
      * by inversion 1.
Qed.

Lemma enumerates_elem_of {K V} `{Countable K} (l : list K) (m : gmap K V) (k : K) :
  enumerates l m → k ∈ l ↔ is_Some (m !! k).
Proof.
  unfold enumerates. intros ->. rewrite list_elem_of_fmap. split.
  - intros [[k' v] [-> Hin%elem_of_map_to_list]]. eauto.
  - intros [v Hv]. exists (k, v). split; [done | by apply elem_of_map_to_list].
Qed.

Lemma enumerates_NoDup {K V} `{Countable K} (l : list K) (m : gmap K V) :
  enumerates l m → NoDup l.
Proof. unfold enumerates. intros ->. apply NoDup_fst_map_to_list. Qed.

Definition seg23 : LayeredGraph := {|
  Segments := {[ (1%N, 3%N) := true ]};
  Dummy := ∅;
  NodePosition := <[1%N := {| Layer := 0; Order := 0 |}]>
                  (<[2%N := {| Layer := 1; Order := 0 |}]>
                  {[ 3%N := {| Layer := 2; Order := 0 |} ]});
  LEdges := {[ (1%N, 3%N) := [1%N; 3%N] ]}
|}.

(** C3, as amended: [Validate] returns an error exactly when some segment
    does not descend, that is when [layer(u) >= layer(v)] for some key
    [(u, v)] of [Segments]; it accepts a segment that descends by any
    number of layers. *)
Theorem C3_Validate_descending (es : list (NodeID * NodeID)) (g : LayeredGraph)
    (Hes : enumerates es (Segments g)) :
  is_Some (Validate es g) ↔
  ∃ e, is_Some (Segments g !! e) ∧ Layer (position g e.1) >= Layer (position g e.2).
Proof.
  rewrite <- not_eq_None_Some, Validate_nil_iff, <- Exists_Forall_neg
    by (intros e; unfold descending_segment; lia).
  rewrite Exists_exists. split.
  - intros (e & Hin & Hnd). exists e. split.
    + by apply (enumerates_elem_of es).
    + unfold descending_segment in Hnd. lia.
  - intros (e & Hin & Hge). exists e. split.
    + by apply (enumerates_elem_of es (Segments g)).
    + unfold descending_segment. lia.
Qed.

Lemma C3_Validate_descending_witness :
  is_Some (Validate [(1%N, 3%N)] seg23) ↔
  ∃ e, is_Some (Segments seg23 !! e) ∧ Layer (position seg23 e.1) >= Layer (position seg23 e.2).
Proof. apply C3_Validate_descending. unfold enumerates. vm_compute. reflexivity. Defined.

(** C3, as stated, fails: the segment [(1, 3)] of [seg23] joins layer 0
    to layer 2, so some segment is not on consecutive layers, and yet
    [Validate] returns [nil]. *)
Lemma C3_counterexample :
  ¬ (is_Some (Validate [(1%N, 3%N)] seg23) ↔
     ∃ e, is_Some (Segments seg23 !! e) ∧ ¬ unit_segment seg23 e).
Proof.
  intros [_ Hback].
  assert (Hsome : is_Some (Validate [(1%N, 3%N)] seg23)).
  { apply Hback. exists (1%N, 3%N). split; [by eexists | by vm_compute]. }
  destruct Hsome as [err Herr]. by vm_compute in Herr.
Qed.

(** ** LowerNeighbors (claim C10) *)

Lemma LowerNeighbors_self (es : list (NodeID * NodeID)) (g : LayeredGraph) (node u : NodeID) :
  u ∈ LowerNeighbors es g node → u = node.
Proof.
  unfold LowerNeighbors.
  assert (Hgen : ∀ acc : list NodeID, (∀ w, w ∈ acc → w = node) →
    ∀ w, w ∈ fold_left (λ nodes e,
      if bool_decide (e.1 = node) then
        if Layer (position g e.1) =? Layer (position g e.2) - 1
        then nodes ++ [e.1] else nodes
      else nodes) es acc → w = node).
  { induction es as [|e es IH]; intros acc Hacc w; simpl; [by apply Hacc|].
    apply IH. intros w'. case_bool_decide as He; [|by apply Hacc].
    destruct (_ =? _); [|by apply Hacc].
    rewrite elem_of_app, list_elem_of_singleton. intros [?| ->]; [by apply Hacc | done]. }
  apply Hgen. intros w Hw. by apply elem_of_nil in Hw.
Qed.

Definition two_layers : LayeredGraph := {|
  Segments := {[ (1%N, 2%N) := true ]};
  Dummy := ∅;
  NodePosition := <[1%N := {| Layer := 0; Order := 0 |}]>
                  {[ 2%N := {| Layer := 1; Order := 0 |} ]};
  LEdges := {[ (1%N, 2%N) := [1%N; 2%N] ]}
|}.

(** C10, the code at the failing input: in the graph with the single
    segment [(1, 2)], [LowerNeighbors(1)] is [[1]], the node itself, while
    [(1, 1)] is no segment and node 1 is not on layer [layer(1) + 1]; the
    lower neighbour 2 is not returned. *)
Theorem C10_LowerNeighbors_returns_node :
  LowerNeighbors [(1%N, 2%N)] two_layers 1%N = [1%N] ∧
  enumerates [(1%N, 2%N)] (Segments two_layers) ∧
  Segments two_layers !! (1%N, 1%N) = None ∧
  Layer (position two_layers 1%N) ≠ Layer (position two_layers 1%N) + 1 ∧
  UpperNeighbors [(1%N, 2%N)] two_layers 2%N = [1%N].
Proof. unfold enumerates. vm_compute. repeat split; try reflexivity; discriminate. Qed.

(** ** The Fenwick crossing counter (claim C8) *)

Lemma Pos_ldiff_diag p : Pos.ldiff p p = 0%N.
Proof. induction p; simpl; rewrite ?IHp; reflexivity. Qed.

Lemma ldiff_pred (p : positive) :
  N.ldiff (Npos p) (Pos.pred_N p) = Npos (lowbit p).
Proof.
  induction p as [p IH|p IH|]; simpl.
  - by rewrite Pos_ldiff_diag.
  - destruct p as [q|q|]; simpl in *.
    + by rewrite Pos_ldiff_diag.
    + by rewrite IH.
    + reflexivity.
  - reflexivity.
Qed.

Lemma land_opp_lowbit (p : positive) : Z.land (Zpos p) (- Zpos p) = Zpos (lowbit p).
Proof.
  change (Z.of_N (N.ldiff (Npos p) (Pos.pred_N p)) = Zpos (lowbit p)).
  by rewrite ldiff_pred.
Qed.

Lemma lowbit_le (p : positive) : (lowbit p <= p)%positive.
Proof. induction p; simpl; lia. Qed.

Lemma coversP_step (i : positive) : ∀ p : positive,
  p ≠ i → coversP i p ↔ coversP i (p + lowbit p).
Proof.
  unfold coversP.
  induction i as [i IH|i IH|]; intros p Hne.
  - destruct p as [p|p|]; simpl lowbit; lia.
  - pose proof (lowbit_le i).
    destruct p as [p|p|]; simpl lowbit.
    + lia.
    + assert (Hpi : p ≠ i) by congruence. specialize (IH p Hpi). lia.
    + lia.
  - destruct p; simpl lowbit in *; lia.
Qed.

Lemma lb_pos (i : Z) : 1 <= i → 1 <= lb i <= i.
Proof.
  intros Hi. destruct i as [|p|p]; try lia. unfold lb.
  rewrite land_opp_lowbit. pose proof (lowbit_le p). lia.
Qed.

Lemma covers_self (i : Z) : 1 <= i → covers i i = true.
Proof. intros Hi. pose proof (lb_pos i Hi). unfold covers. apply andb_true_iff. lia. Qed.

Lemma covers_step (i p : Z) :
  1 <= i → 1 <= p → p ≠ i → covers i (p + lb p) = covers i p.
Proof.
  intros Hi Hp Hne. destruct i as [|i|i]; try lia. destruct p as [|p|p]; try lia.
  unfold covers, lb. rewrite !land_opp_lowbit.
  assert (Hpi : p ≠ i) by congruence.
  pose proof (coversP_step i p Hpi) as Hstep. unfold coversP in Hstep.
  apply eq_true_iff_eq. rewrite !andb_true_iff, !Z.ltb_lt, !Z.leb_le.
  rewrite Pos2Z.inj_add in Hstep. tauto.
Qed.

Lemma index_Some {A} (s : list A) (i : Z) :
  0 <= i < len s → is_Some (index s i).
Proof.
  intros Hi. unfold index, len in *. destruct (Z.ltb_spec i 0); [lia|].
  apply lookup_lt_is_Some. lia.
Qed.

Lemma index_insert {A} (s : list A) (i j : Z) (x : A) :
  0 <= i < len s → 0 <= j →
  index (<[Z.to_nat i := x]> s) j = if decide (j = i) then Some x else index s j.
Proof.
  intros Hi Hj. unfold index, len in *. destruct (Z.ltb_spec j 0); [lia|].
  case_decide as Hd.
  - subst. apply list_lookup_insert_eq. lia.
  - apply list_lookup_insert_ne. lia.
Qed.

Lemma Update_loop_spec (fuel : nat) : ∀ (bit : FenwickTree) (idx v : Z),
  1 <= idx → len bit - idx <= Z.of_nat fuel →
  ∃ bit', Update_loop fuel bit idx v = Some bit' ∧ length bit' = length bit ∧
    ∀ i x, 1 <= i → index bit i = Some x →
      index bit' i = Some (if covers i idx then x + v else x).
Proof.
  induction fuel as [|fuel IH]; intros bit idx v Hidx Hfuel.
  - exists bit. simpl. destruct (Z.ltb_spec idx (len bit)); [lia|].
    split_and!; [done..|]. intros i x Hi Hx.
    assert (Hlt : 0 <= i < len bit).
    { unfold index, len in *. destruct (Z.ltb_spec i 0); [done|].
      apply lookup_lt_Some in Hx. lia. }
    unfold covers. replace (idx <=? i) with false by lia. by rewrite andb_false_r.
  - simpl. destruct (Z.ltb_spec idx (len bit)) as [Hlt|Hge].
    + destruct (index_Some bit idx) as [old Hold]; [lia|]. rewrite Hold. simpl.
      pose proof (lb_pos idx Hidx) as Hlb. fold (lb idx).
      destruct (IH (<[Z.to_nat idx := old + v]> bit) (idx + lb idx) v) as (bit' & Hrun & Hlen & Hval).
      { lia. } { unfold len in *. rewrite length_insert. lia. }
      exists bit'. split_and!; [done| by rewrite Hlen, length_insert |].
      intros i x Hi Hx.
      rewrite (Hval i (if decide (i = idx) then old + v else x)); [|done|].
      * f_equal. case_decide as Hd.
        -- subst i. rewrite covers_self by done.
           assert (x = old) as -> by congruence.
           unfold covers. replace (idx + lb idx <=? idx) with false by lia.
           by rewrite andb_false_r.
        -- rewrite covers_step by lia. done.
      * rewrite index_insert by lia. case_decide; done.
    + exists bit. split_and!; [done..|]. intros i x Hi Hx.
      assert (Hlt : 0 <= i < len bit).
      { unfold index, len in *. destruct (Z.ltb_spec i 0); [done|].
        apply lookup_lt_Some in Hx. lia. }
      unfold covers. replace (idx <=? i) with false by lia. by rewrite andb_false_r.
Qed.

Lemma Update_spec (bit : FenwickTree) (idx v : Z) (ins : list (Z * Z)) :
  1 <= idx → fen_inv bit ins →
  ∃ bit', Update bit idx v = Some bit' ∧ length bit' = length bit ∧
          fen_inv bit' ((idx, v) :: ins).
Proof.
  intros Hidx Hinv.
  destruct (Update_loop_spec (length bit) bit idx v) as (bit' & Hrun & Hlen & Hval);
    [done | unfold len; lia |].
  exists bit'. split_and!; [done..|].
  intros i Hi. unfold len in Hi. rewrite Hlen in Hi.
  rewrite (Hval i (wsum (covers i) ins)); [|lia|by apply Hinv].
  unfold wsum; simpl. destruct (covers i idx); f_equal; lia.
Qed.

Lemma cnt_le_split (j : Z) (ins : list (Z * Z)) :
  1 <= j → cnt_le j ins = cnt_le (j - lb j) ins + wsum (covers j) ins.
Proof.
  intros Hj. pose proof (lb_pos j Hj) as Hlb. unfold cnt_le, covers.
  induction ins as [|[p v] ins IH]; simpl; [done|]. rewrite IH.
  destruct (Z.leb_spec 1 p), (Z.leb_spec p j), (Z.leb_spec p (j - lb j)),
    (Z.ltb_spec (j - lb j) p); simpl; lia.
Qed.

Lemma cnt_le_0 (j : Z) (ins : list (Z * Z)) : j <= 0 → cnt_le j ins = 0.
Proof.
  intros Hj. unfold cnt_le. induction ins as [|[p v] ins IH]; simpl; [done|].
  rewrite IH. destruct (Z.leb_spec 1 p), (Z.leb_spec p j); simpl; lia.
Qed.

Lemma Query_loop_spec (fuel : nat) : ∀ (bit : FenwickTree) (ins : list (Z * Z)) (idx sum : Z),
  fen_inv bit ins → 0 <= idx < len bit → idx <= Z.of_nat fuel →
  Query_loop fuel bit idx sum = Some (sum + cnt_le idx ins).
Proof.
  induction fuel as [|fuel IH]; intros bit ins idx sum Hinv Hidx Hfuel; simpl.
  - destruct (Z.ltb_spec 0 idx); [lia|]. rewrite cnt_le_0 by lia. f_equal; lia.
  - destruct (Z.ltb_spec 0 idx) as [Hpos|Hz].
    + rewrite Hinv by lia. simpl. fold (lb idx).
      pose proof (lb_pos idx ltac:(lia)).
      rewrite (IH bit ins) by (done || lia).
      rewrite (cnt_le_split idx) by lia. f_equal; lia.
    + rewrite cnt_le_0 by lia. f_equal; lia.
Qed.

Lemma Query_spec (bit : FenwickTree) (ins : list (Z * Z)) (idx : Z) :
  fen_inv bit ins → 0 <= idx < len bit → Query bit idx = Some (cnt_le idx ins).
Proof.
  intros Hinv Hidx. unfold Query.
  rewrite (Query_loop_spec _ bit ins) by (done || lia). done.
Qed.

Lemma NewFenwickTree_inv (n : Z) : fen_inv (NewFenwickTree n) [].
Proof.
  intros i Hi. unfold NewFenwickTree, len in *. rewrite length_replicate in Hi.
  unfold index. destruct (Z.ltb_spec i 0); [lia|].
  simpl. apply lookup_replicate_2. lia.
Qed.



Lemma foldlM_inv {A B} (f : B → A → option B) (I : list A → B → Prop) (l : list A) (b : B) :
  I [] b →
  (∀ pre x post b, l = pre ++ x :: post → I pre b → ∃ b', f b x = Some b' ∧ I (pre ++ [x]) b') →
  ∃ b', foldlM f b l = Some b' ∧ I l b'.
Proof.
  intros Hinit Hstep.
  assert (Hgen : ∀ post pre b, l = pre ++ post → I pre b →
                 ∃ b', foldlM f b post = Some b' ∧ I l b').
  { induction post as [|x post IH]; intros pre b0 Hl Hpre; simpl.
    - exists b0. rewrite app_nil_r in Hl. by subst.
    - destruct (Hstep pre x post b0 Hl Hpre) as (b1 & Hf & Hb1). rewrite Hf. simpl.
      apply (IH (pre ++ [x])); [|done]. by rewrite <- app_assoc. }
  by apply (Hgen l []).
Qed.

Lemma indexed_lookup {A} (s : list A) (k : nat) :
  indexed s !! k = (λ x, (Z.of_nat k, x)) <$> s !! k.
Proof. unfold indexed. by rewrite list_lookup_imap. Qed.

Lemma length_indexed {A} (s : list A) : length (indexed s) = length s.
Proof. unfold indexed. by rewrite length_imap. Qed.

Lemma elem_of_indexed {A} (s : list A) (j : Z) (x : A) :
  (j, x) ∈ indexed s → 0 <= j < len s.
Proof.
  intros (k & Hk)%list_elem_of_lookup. rewrite indexed_lookup in Hk.
  destruct (s !! k) eqn:E; simplify_eq/=. apply lookup_lt_Some in E. unfold len. lia.
Qed.

Lemma reverse_indexed_split {A} (s : list A) pre (j : Z) (x : A) post :
  reverse (indexed s) = pre ++ (j, x) :: post →
  ∀ j' x', (j', x') ∈ pre → j < j'.
Proof.
  intros Hsplit j' x' Hin.
  assert (Hidx : indexed s = reverse post ++ (j, x) :: reverse pre).
  { rewrite <- (reverse_involutive (indexed s)), Hsplit, reverse_app, reverse_cons.
    by rewrite <- app_assoc. }
  assert (Hj : j = Z.of_nat (length (reverse post))).
  { pose proof (indexed_lookup s (length (reverse post))) as Hl.
    rewrite Hidx, list_lookup_middle in Hl by done.
    destruct (s !! _); by simplify_eq/=. }
  apply elem_of_reverse, list_elem_of_lookup in Hin as (k & Hk).
  pose proof (indexed_lookup s (length (reverse post) + S k)) as Hl.
  rewrite Hidx in Hl. rewrite lookup_app_r in Hl by lia.
  replace (length (reverse post) + S k - length (reverse post))%nat with (S k) in Hl by lia.
  simpl in Hl. rewrite Hk in Hl.
  destruct (s !! _); simplify_eq/=. lia.
Qed.


Section count2.
Context {A B : Type} (P : A * B → Prop) `{∀ x, Decision (P x)}.
Local Abbreviation count2 := (count2 P).

Lemma filter_pair_length (a : A) (k : list B) :
  length (filter P (pair a <$> k)) = length (filter (λ b, P (a, b)) k).
Proof.
  induction k as [|b k IH]; [done|]. csimpl.
  rewrite !filter_cons. destruct (decide (P (a, b))); simpl; by rewrite IH.
Qed.

Lemma length_filter_list_prod (l : list A) (k : list B) :
  length (filter P (list_prod l k)) = count2 l k.
Proof.
  induction l as [|a l IH]; [done|]. simpl.
  rewrite filter_app, length_app, IH.
  by rewrite <- filter_pair_length.
Qed.

Lemma count2_snoc_l (l : list A) (k : list B) (a : A) :
  count2 (l ++ [a]) k = (count2 l k + length (filter (λ b, P (a, b)) k))%nat.
Proof. unfold count2. rewrite sum_list_with_app. simpl. lia. Qed.

Lemma count2_snoc_r (l : list A) (k : list B) (b : B) :
  count2 l (k ++ [b]) = (count2 l k + length (filter (λ a, P (a, b)) l))%nat.
Proof.
  unfold count2. induction l as [|a l IH]; [done|]. simpl.
  rewrite IH, filter_app, length_app.
  rewrite (filter_cons (λ a, P (a, b)) a l).
  rewrite (filter_cons (λ b0, P (a, b0)) b []), filter_nil.
  destruct (decide (P (a, b))); simpl; lia.
Qed.

Lemma count2_Permutation (l l' : list A) (k k' : list B) :
  l ≡ₚ l' → k ≡ₚ k' → count2 l k = count2 l' k'.
Proof.
  intros Hl Hk. unfold count2. rewrite Hl.
  clear Hl. induction l' as [|a l' IH]; [done|]. simpl.
  by rewrite IH, Hk.
Qed.
End count2.

Lemma length_filter_none {A} (P : A → Prop) `{∀ x, Decision (P x)} (l : list A) :
  (∀ x, x ∈ l → ¬ P x) → length (filter P l) = 0%nat.
Proof.
  induction l as [|x l IH]; intros Hall; [done|].
  rewrite filter_cons_False by (apply Hall; left).
  apply IH. intros y Hy. apply Hall. by right.
Qed.

Lemma length_filter_ext_in {A} (P Q : A → Prop) `{∀ x, Decision (P x)} `{∀ x, Decision (Q x)}
    (l : list A) :
  (∀ x, x ∈ l → P x ↔ Q x) → length (filter P l) = length (filter Q l).
Proof.
  induction l as [|x l IH]; intros Hall; [done|].
  rewrite !filter_cons.
  assert (Hx : P x ↔ Q x) by (apply Hall; left).
  assert (IH' : length (filter P l) = length (filter Q l)).
  { apply IH. intros y Hy. apply Hall. by right. }
  destruct (decide (P x)), (decide (Q x)); simpl; try tauto; by rewrite IH'.
Qed.

Lemma crossCount_count2 (D : list (Z * Z)) :
  crossCount D = Z.of_nat (count2 (λ pr : (Z*Z)*(Z*Z), crosses pr.1 pr.2) D D).
Proof. unfold crossCount, crossingPairs, len. by rewrite length_filter_list_prod. Qed.

Lemma crossCount_snoc (D : list (Z * Z)) (s : Z * Z) :
  (∀ s', s' ∈ D → s.2 <= s'.2) →
  crossCount (D ++ [s]) =
  crossCount D + Z.of_nat (length (filter (λ s', crosses s' s) D)).
Proof.
  intros Hord. rewrite !crossCount_count2, count2_snoc_l, count2_snoc_r. simpl.
  rewrite filter_app, length_app.
  rewrite (length_filter_none (λ b, crosses s b) D).
  - rewrite filter_cons_False, filter_nil; [simpl; lia|].
    unfold crosses. simpl. rewrite andb_True, !Is_true_true, !Z.ltb_lt. lia.
  - intros s' Hs'. specialize (Hord s' Hs'). unfold crosses.
    rewrite andb_True, !Is_true_true, !Z.ltb_lt. lia.
Qed.

Lemma crossCount_Permutation (D D' : list (Z * Z)) :
  D ≡ₚ D' → crossCount D = crossCount D'.
Proof. intros HD. rewrite !crossCount_count2. f_equal. by apply count2_Permutation. Qed.

Lemma cnt_le_entries (j : Z) (D : list (Z * Z)) :
  cnt_le j (entry <$> D) = Z.of_nat (length (filter (λ s', 0 <= s'.1 < j) D)).
Proof.
  unfold cnt_le. induction D as [|s D IH]; [done|]. csimpl. rewrite IH.
  rewrite filter_cons.
  destruct (decide (0 <= s.1 < j)) as [Hd|Hd]; simpl.
  - replace ((1 <=? s.1 + 1) && (s.1 + 1 <=? j)) with true; [lia|].
    symmetry. apply andb_true_iff. lia.
  - replace ((1 <=? s.1 + 1) && (s.1 + 1 <=? j)) with false; [lia|].
    symmetry. apply andb_false_iff. lia.
Qed.

Lemma wsum_app (P : Z → bool) (l k : list (Z * Z)) :
  wsum P (l ++ k) = wsum P l + wsum P k.
Proof.
  unfold wsum. induction l as [|e l IH]; simpl; [done|].
  rewrite IH. destruct (P e.1); lia.
Qed.

Lemma fen_inv_snoc (bit : FenwickTree) (ins : list (Z * Z)) (e : Z * Z) :
  fen_inv bit (e :: ins) → fen_inv bit (ins ++ [e]).
Proof.
  intros Hinv i Hi. rewrite (Hinv i Hi). f_equal.
  rewrite wsum_app. unfold wsum. simpl. destruct (covers i e.1); lia.
Qed.

Lemma list_bind_Permutation_ext {A B} (f g : A → list B) (l : list A) :
  (∀ x, f x ≡ₚ g x) → l ≫= f ≡ₚ l ≫= g.
Proof.
  intros Hfg. induction l as [|x l IH]; [done|].
  rewrite !bind_cons. by rewrite Hfg, IH.
Qed.

Section crossings.
Context (segments : gmap (NodeID * NodeID) bool) (ltop lbottom : list NodeID).
Local Abbreviation hits := (hits segments).
Local Abbreviation processed := (processed segments ltop).
Local Abbreviation loop_inv := (loop_inv ltop).

Lemma elem_of_hits (i : Z) (c : NodeID) (tl : list (Z * NodeID)) (s : Z * Z) :
  s ∈ hits i c tl → s.2 = i ∧ ∃ a, (s.1, a) ∈ tl.
Proof.
  unfold hits. rewrite list_elem_of_bind. intros ([j a] & Hs & Hin).
  destruct (lookupB segments (a, c)); [|by apply elem_of_nil in Hs].
  apply list_elem_of_singleton in Hs as ->. eauto.
Qed.

Lemma inner_loop (i : Z) (c : NodeID) (D : list (Z * Z)) (st : Z * list Z) :
  loop_inv D st →
  (∀ s', s' ∈ D → i < s'.2 ∧ 0 <= s'.1) →
  ∃ st',
    foldlM (λ '(sum, bit) '(j, neighbor),
          if lookupB segments (neighbor, c) then
            bit' ← Update bit (j + 1) 1;
            q ← Query bit' j;
            Some (sum + q, bit')
          else Some (sum, bit))
      st (reverse (indexed ltop)) = Some st' ∧
    loop_inv (D ++ hits i c (reverse (indexed ltop))) st'.
Proof.
  intros Hinv HD.
  apply (foldlM_inv _ (λ pre st, loop_inv (D ++ hits i c pre) st)).
  { unfold hits. simpl. by rewrite app_nil_r. }
  intros pre [j a] post [sum bit] Hsplit (Hsum & Hlen & Hfen). simpl in *.
  assert (Hj : 0 <= j < len ltop).
  { apply (elem_of_indexed ltop j a), elem_of_reverse. rewrite Hsplit.
    apply elem_of_app. right. left. }
  assert (Hhits : hits i c (pre ++ [(j, a)]) =
            hits i c pre ++ if lookupB segments (a, c) then [(j, i)] else []).
  { unfold hits. rewrite bind_app. f_equal. simpl. by rewrite app_nil_r. }
  rewrite Hhits. destruct (lookupB segments (a, c)).
  - destruct (Update_spec bit (j + 1) 1 (entry <$> (D ++ hits i c pre)))
      as (bit' & -> & Hlen' & Hfen'); [lia|done|]. simpl.
    set (D' := D ++ hits i c pre) in *.
    assert (Hfen2 : fen_inv bit' (entry <$> (D' ++ [(j, i)]))).
    { rewrite fmap_app. by apply fen_inv_snoc. }
    rewrite (Query_spec bit' _ j Hfen2) by (unfold len in *; lia). simpl.
    eexists. split; [done|]. rewrite app_assoc. fold D'.
    split_and!; simpl; [|lia|done].
    rewrite cnt_le_entries, filter_app, length_app.
    rewrite (filter_cons_False _ (j, i)) by (simpl; lia). rewrite filter_nil. simpl.
    rewrite crossCount_snoc, Hsum.
    + f_equal. rewrite Nat.add_0_r. f_equal.
      apply length_filter_ext_in. intros s' Hs'.
      unfold crosses. simpl. rewrite andb_True, !Is_true_true, !Z.ltb_lt.
      apply elem_of_app in Hs' as [Hs'|Hs'].
      * destruct (HD s' Hs'). lia.
      * apply elem_of_hits in Hs' as [Hi [a' Ha']].
        pose proof (reverse_indexed_split ltop pre j a post Hsplit _ _ Ha'). lia.
    + intros s' Hs'. simpl. apply elem_of_app in Hs' as [Hs'|Hs'].
      * destruct (HD s' Hs'). lia.
      * apply elem_of_hits in Hs' as [Hi _]. lia.
  - eexists. split; [done|]. by rewrite app_nil_r.
Qed.

Lemma outer_loop :
  ∃ st',
    foldlM (λ st '(_, node),
       foldlM (λ '(sum, bit) '(j, neighbor),
          if lookupB segments (neighbor, node) then
            bit' ← Update bit (j + 1) 1;
            q ← Query bit' j;
            Some (sum + q, bit')
          else Some (sum, bit))
         st (reverse (indexed ltop)))
     (0, NewFenwickTree (len ltop)) (reverse (indexed lbottom)) = Some st' ∧
    loop_inv (processed (reverse (indexed lbottom))) st'.
Proof.
  apply (foldlM_inv _ (λ pre st, loop_inv (processed pre) st)).
  { split_and!; simpl.
    - done.
    - unfold NewFenwickTree, len. rewrite length_replicate. lia.
    - apply NewFenwickTree_inv. }
  intros pre [i c] post st Hsplit Hinv.
  destruct (inner_loop i c (processed pre) st Hinv) as (st' & Hrun & Hinv').
  { intros s'. unfold processed. rewrite list_elem_of_bind.
    intros ([i' c'] & Hs' & Hin). apply elem_of_hits in Hs' as [Hi [a' Ha']].
    apply elem_of_reverse, elem_of_indexed in Ha'.
    pose proof (reverse_indexed_split lbottom pre i c post Hsplit _ _ Hin). lia. }
  exists st'. split; [done|].
  unfold processed in *. rewrite bind_app. simpl. by rewrite app_nil_r.
Qed.

Lemma processed_Permutation :
  processed (reverse (indexed lbottom)) ≡ₚ segmentPositions segments ltop lbottom.
Proof.
  unfold processed, segmentPositions.
  etrans; [apply bind_Permutation, reverse_Permutation|].
  apply list_bind_Permutation_ext. intros [i c]. unfold hits.
  apply bind_Permutation, reverse_Permutation.
Qed.
End crossings.

(** C8: the crossing count computed with the Fenwick tree is the naive
    count, the number of pairs of segments [(a, c)], [(b, d)] between the
    two layers with [a] left of [b] in the top layer and [d] left of [c]
    in the bottom layer. *)
Theorem C8_fenwick_counts_crossings (segments : gmap (NodeID * NodeID) bool)
    (ltop lbottom : list NodeID) :
  numCrossingsBetweenLayers segments ltop lbottom =
  Some (naiveCrossings segments ltop lbottom).
Proof.
  unfold numCrossingsBetweenLayers.
  destruct (outer_loop segments ltop lbottom) as (st' & -> & Hsum & _). simpl.
  f_equal. rewrite Hsum. unfold naiveCrossings.
  apply crossCount_Permutation, processed_Permutation.
Qed.

(** ** Insertion sort is a slice sorter *)

Lemma sift_perm {A} (less : A → A → option bool) (x : A) (r r' : list A) :
  sift less x r = Some r' → r' ≡ₚ x :: r.
Proof.
  revert r'. induction r as [|y r IH]; intros r' Hs; simpl in Hs.
  - by simplify_eq.
  - destruct (less x y) as [[]|]; simplify_eq/=.
    + destruct (sift less x r) as [r1|]; simplify_eq/=.
      rewrite (IH r1 eq_refl). apply perm_swap.
    + done.
Qed.

Lemma sift_total {A} (less : A → A → option bool) (x : A) (r : list A) :
  (∀ y, y ∈ r → is_Some (less x y)) → is_Some (sift less x r).
Proof.
  induction r as [|y r IH]; intros Hall; simpl; [done|].
  destruct (Hall y) as [b ->]; [by left|]. simpl.
  destruct b; [|done].
  destruct IH as [r' ->]; [|done]. intros z Hz. apply Hall. by right.
Qed.

Lemma insertion_fold_perm {A} (less : A → A → option bool) (l : list A) :
  ∀ r r', foldlM (λ r x, sift less x r) r l = Some r' → r' ≡ₚ l ++ r.
Proof.
  induction l as [|x l IH]; intros r r' Hf; simpl in Hf.
  - by simplify_eq.
  - destruct (sift less x r) as [r1|] eqn:Hs; simplify_eq/=.
    rewrite (IH _ _ Hf), (sift_perm _ _ _ _ Hs). by rewrite Permutation_middle.
Qed.

Lemma insertionSort_perm {A} (less : A → A → option bool) (l l' : list A) :
  insertionSort less l = Some l' → l ≡ₚ l'.
Proof.
  unfold insertionSort. intros Hs.
  destruct (foldlM _ _ l) as [r|] eqn:Hf; simplify_eq/=.
  apply insertion_fold_perm in Hf. by rewrite reverse_Permutation, Hf, app_nil_r.
Qed.

Lemma insertionSort_total {A} (less : A → A → option bool) (l : list A) :
  (∀ x y, x ∈ l → y ∈ l → is_Some (less x y)) → is_Some (insertionSort less l).
Proof.
  intros Hall. unfold insertionSort.
  assert (Hgen : ∀ k r, (∀ x y, x ∈ k ++ r → y ∈ k ++ r → is_Some (less x y)) →
                 is_Some (foldlM (λ r x, sift less x r) r k)).
  { induction k as [|x k IH]; intros r Hr; simpl; [done|].
    destruct (sift_total less x r) as [r1 Hs].
    { intros y Hy. apply Hr; [by left|]. right. apply elem_of_app. by right. }
    rewrite Hs. simpl. apply IH. intros a b Ha Hb.
    pose proof (sift_perm _ _ _ _ Hs) as Hp.
    assert (Hin : ∀ c, c ∈ k ++ r1 → c ∈ (x :: k) ++ r).
    { intros c. rewrite !elem_of_app, Hp, !elem_of_cons. tauto. }
    apply Hr; by apply Hin. }
  destruct (Hgen l []) as [r ->]; [|done]. by rewrite app_nil_r.
Qed.

Global Instance insertionSorterSpec : @SliceSorterSpec insertionSorter.
Proof. split; [apply @insertionSort_perm | apply @insertionSort_total]. Qed.

(** ** The BFS initializer (claim C5) *)
Lemma hasParent_lookup (es : list (NodeID * NodeID)) (n : NodeID) :
  is_Some (hasParent es !! n) ↔ ∃ e, e ∈ es ∧ e.2 = n.
Proof.
  unfold hasParent.
  assert (Hgen : ∀ m : gmap NodeID bool,
    is_Some (fold_left (λ m e, <[e.2 := true]> m) es m !! n) ↔
    is_Some (m !! n) ∨ ∃ e, e ∈ es ∧ e.2 = n).
  { induction es as [|e es IH]; intros m; simpl.
    - split; [by left|]. intros [?|(e & He & _)]; [done|by apply elem_of_nil in He].
    - rewrite IH, lookup_insert_is_Some. split.
      + intros [[Heq|[_ Hm]]|(e' & He' & Hn)].
        * right. exists e. split; [left|done].
        * by left.
        * right. exists e'. split; [by right|done].
      + intros [Hm|(e' & [->|He']%elem_of_cons & Hn)].
        * destruct (decide (e.2 = n)); [by left; left|by left; right].
        * by left; left.
        * right. by exists e'. }
  rewrite Hgen, lookup_empty. split; [|by right].
  intros [Hs|?]; [|done]. by apply is_Some_None in Hs.
Qed.


Section bfs.
Context `{SliceSorter}.

End bfs.

(** C5, the code at the failing input: the loop that collects the roots
    tests the target [e[1]] of each segment, which the loop before it has
    just recorded as having a parent, so [roots] is empty, no node is
    visited, and every [ord] is 0.  On the segments [(1,2), (2,5), (3,4)]
    the roots are 1 and 3 and a breadth-first visit reaches 4 before 5;
    [Init] leaves the layer [[5, 4]] as it is. *)
Theorem C5_BFSInit_visits_nothing :
  let es := [(1%N, 2%N); (2%N, 5%N); (3%N, 4%N)] in
  enumerates es two_chains ∧
  bfsRoots (hasParent es) es = [] ∧
  @BFSInit insertionSorter es es es [[1%N]; [2%N; 3%N]; [5%N; 4%N]]
    = Some [[1%N]; [2%N; 3%N]; [5%N; 4%N]].
Proof.
  unfold enumerates. vm_compute. split_and!; [|reflexivity..].
  apply perm_swap.
Qed.

(** ** The Warfield driver (claim C7) *)

Lemma bucket_fold (g : LayeredGraph) (ks : list NodeID) :
  ∀ (init layers : list (list NodeID)),
  foldlM (λ layers node, bucket layers (Layer (position g node)) node) init ks = Some layers →
  length layers = length init ∧
  (∀ n, n ∈ ks → 0 <= Layer (position g n) < len init) ∧
  (∀ (y : nat) l, layers !! y = Some l →
     ∃ l0, init !! y = Some l0 ∧ l = l0 ++ filter (in_layer g (Z.of_nat y)) ks).
Proof.
  induction ks as [|k ks IH]; intros init layers Hrun; simpl in Hrun.
  - simplify_eq. split_and!; [done| intros n Hn; by apply elem_of_nil in Hn |].
    intros y l Hl. exists l. by rewrite filter_nil, app_nil_r.
  - destruct (bucket init (Layer (position g k)) k) as [init'|] eqn:Hb; [|done].
    simpl in Hrun. unfold bucket in Hb.
    destruct ((Layer (position g k) <? 0) || (len init <=? Layer (position g k))) eqn:E;
      [done|]. simplify_eq.
    apply orb_false_iff in E as [E1%Z.ltb_ge E2%Z.leb_gt].
    apply IH in Hrun as (Hlen & Hrange & Hcontent).
    rewrite length_alter in Hlen.
    split_and!; [done| |].
    + intros n [->|Hn]%elem_of_cons; [lia|].
      specialize (Hrange n Hn). unfold len in *. by rewrite length_alter in Hrange.
    + intros y l Hl. destruct (Hcontent y l Hl) as (l0 & Hl0 & ->).
      rewrite filter_cons.
      destruct (decide (y = Z.to_nat (Layer (position g k)))) as [->|Hne].
      * rewrite list_lookup_alter_eq in Hl0.
        destruct (init !! _) as [l1|] eqn:E; simplify_eq/=.
        exists l1. split; [done|].
        rewrite decide_True by (unfold in_layer; lia). by rewrite <- app_assoc.
      * rewrite list_lookup_alter_ne in Hl0 by done.
        exists l0. split; [done|]. rewrite decide_False; [done|].
        unfold in_layer. lia.
Qed.

Section layers_spec.
Context `{SliceSorterSpec}.

Lemma Layers_buckets (ks : list NodeID) (g : LayeredGraph) (layers : list (list NodeID)) :
Layers ks g = Some layers → buckets_of g ks layers.
Proof.
unfold Layers. intros Hrun.
destruct (foldlM _ _ ks) as [raw|] eqn:Hraw; [|done]. simpl in Hrun.
apply bucket_fold in Hraw as (Hlen & Hrange & Hcontent).
apply mapM_Some in Hrun.
split.
- intros n Hn. specialize (Hrange n Hn).
  unfold len in *. by rewrite <- (Forall2_length _ _ _ Hrun), Hlen.
- intros y l Hl.
  destruct (Forall2_lookup_r _ _ _ _ _ Hrun Hl) as (l' & Hl' & Hsort).
  apply sortSlice_perm in Hsort. rewrite <- Hsort.
  destruct (Hcontent y l' Hl') as (l0 & Hl0 & ->).
  apply lookup_replicate in Hl0 as [-> _]. done.
Qed.
End layers_spec.

Lemma buckets_of_perm (g : LayeredGraph) (ks : list NodeID) (A B : list (list NodeID)) :
  buckets_of g ks A → Forall2 (≡ₚ) A B → buckets_of g ks B.
Proof.
  intros [Hrange Hcontent] HAB. split.
  - intros n Hn. unfold len. rewrite <- (Forall2_length _ _ _ HAB). by apply Hrange.
  - intros y l Hl. destruct (Forall2_lookup_r _ _ _ _ _ HAB Hl) as (l' & Hl' & Hperm).
    rewrite <- Hperm. by apply Hcontent.
Qed.

Lemma Forall2_Permutation_trans (A B C : list (list NodeID)) :
  Forall2 (≡ₚ) A B → Forall2 (≡ₚ) B C → Forall2 (≡ₚ) A C.
Proof. apply Forall2_trans. intros x y z. apply Permutation_trans. Qed.

Lemma Forall2_Permutation_refl (A : list (list NodeID)) : Forall2 (≡ₚ) A A.
Proof. induction A; by constructor. Qed.

Lemma copyLayers_same_shape (dst src : list (list NodeID)) :
  Forall2 (λ a b, length a = length b) dst src → copyLayers dst src = Some src.
Proof.
  induction 1 as [|d s dst src Hlen _ IH]; [done|]. simpl. rewrite IH. simpl.
  unfold copySlice. by rewrite take_ge, drop_ge, app_nil_r by lia.
Qed.

Section warfield_spec.
Context `{SliceSorterSpec} `{LayerOrderingInitializer} `{LayerOrderingOptimizer}.
Hypothesis Init_permutes : ∀ segments layers layers',
Init segments layers = Some layers' → Forall2 (≡ₚ) layers layers'.
Hypothesis Optimize_permutes : ∀ segments layers idx downUp layers',
Optimize segments layers idx downUp = Some layers' → Forall2 (≡ₚ) layers layers'.

Lemma sweep_permutes segments downUp layers layers' :
sweep segments downUp layers = Some layers' → Forall2 (≡ₚ) layers layers'.
Proof.
unfold sweep. generalize (len layers) as n. generalize (Z.of_nat <$> seq 0 (length layers)) as idxs.
intros idxs. revert layers. induction idxs as [|i idxs IH]; intros layers n Hrun; simpl in Hrun.
- simplify_eq. apply Forall2_Permutation_refl.
- destruct (Optimize _ _ _ _) as [l1|] eqn:Hopt; [|done]. simpl in Hrun.
  apply Optimize_permutes in Hopt. apply IH in Hrun.
  by eapply Forall2_Permutation_trans.
Qed.

Lemma epochs_permutes (L0 : list (list NodeID)) segments (n : nat) :
∀ t st st', epochs n t segments st = Some st' →
Forall2 (≡ₚ) L0 (ws_layers st) → Forall2 (≡ₚ) L0 (ws_bestLayers st) →
Forall2 (≡ₚ) L0 (ws_bestLayers st').
Proof.
induction n as [|n IH]; intros t st st' Hrun Hcur Hbest; simpl in Hrun.
- by simplify_eq.
- destruct (sweep _ _ _) as [layers|] eqn:Hsweep; [|done]. simpl in Hrun.
  destruct (numCrossings _ _) as [N|] eqn:HN; [|done]. simpl in Hrun.
  apply sweep_permutes in Hsweep.
  assert (Hcur' : Forall2 (≡ₚ) L0 layers).
  { eapply Forall2_Permutation_trans; [exact Hcur | exact Hsweep]. }
  destruct ((ws_bestN st <? 0) || (N <? ws_bestN st)).
  + rewrite copyLayers_same_shape in Hrun.
    * simpl in Hrun. destruct (N =? 0); [by simplify_eq|].
      by apply IH in Hrun.
    * apply Forall2_same_length_lookup. split.
      { by rewrite <- (Forall2_length _ _ _ Hbest), (Forall2_length _ _ _ Hcur'). }
      intros i a b Ha Hb.
      destruct (Forall2_lookup_r _ _ _ _ _ Hbest Ha) as (c & Hc & Hca).
      destruct (Forall2_lookup_l _ _ _ _ _ Hcur' Hc) as (b' & Hb' & Hcb).
      simplify_eq. by rewrite <- Hca, Hcb.
  + simpl in Hrun. destruct (N =? 0); [by simplify_eq|].
    by apply IH in Hrun.
Qed.
End warfield_spec.

Lemma fold_left_bind {A B C} (f : C → B → C) (g : A → list B) (l : list A) (c : C) :
  fold_left f (l ≫= g) c = fold_left (λ c a, fold_left f (g a) c) l c.
Proof.
  revert c. induction l as [|a l IH]; intros c; [done|].
  rewrite bind_cons, fold_left_app. apply IH.
Qed.

Lemma fold_left_pointwise {A B} (f g : A → B → A) (l : list B) (a : A) :
  (∀ a b, f a b = g a b) → fold_left f l a = fold_left g l a.
Proof.
  intros Hfg. revert a. induction l as [|b l IH]; intros a; [done|].
  simpl. by rewrite Hfg, IH.
Qed.

Lemma storeLayers_assignments (bestLayers : list (list NodeID)) (np : gmap NodeID LayerPosition) :
  storeLayers bestLayers np = fold_left (λ np kv, <[kv.1 := kv.2]> np) (assignments bestLayers) np.
Proof.
  unfold storeLayers, assignments. rewrite fold_left_bind.
  apply fold_left_pointwise. intros np' [y layer].
  rewrite fold_left_bind. apply fold_left_pointwise. by intros np'' [x node].
Qed.

Lemma elem_of_assignments (bestLayers : list (list NodeID)) (n : NodeID) (p : LayerPosition) :
  (n, p) ∈ assignments bestLayers ↔
  ∃ (y x : nat) l, bestLayers !! y = Some l ∧ l !! x = Some n ∧
                   p = {| Layer := Z.of_nat y; Order := Z.of_nat x |}.
Proof.
  unfold assignments. rewrite list_elem_of_bind. split.
  - intros ([y layer] & Hin & Hy). apply list_elem_of_bind in Hin as ([x node] & Hin & Hx).
    apply list_elem_of_singleton in Hin. simplify_eq.
    apply list_elem_of_lookup in Hy as (iy & Hy). apply list_elem_of_lookup in Hx as (ix & Hx).
    rewrite indexed_lookup in Hy. rewrite indexed_lookup in Hx.
    destruct (bestLayers !! iy) as [l|] eqn:Ey; simplify_eq/=.
    destruct (_ !! ix) as [m|] eqn:Ex; simplify_eq/=.
    eexists _, _, _. eauto.
  - intros (y & x & l & Hy & Hx & ->). exists (Z.of_nat y, l). split.
    + apply list_elem_of_bind. exists (Z.of_nat x, n). split; [by apply list_elem_of_singleton|].
      apply list_elem_of_lookup. exists x. by rewrite indexed_lookup, Hx.
    + apply list_elem_of_lookup. exists y. by rewrite indexed_lookup, Hy.
Qed.

Lemma fold_insert_lookup {K V} `{Countable K} (l : list (K * V)) :
  ∀ (m : gmap K V) (k : K) (v : V),
  (∀ v', (k, v') ∈ l → v' = v) →
  (k, v) ∈ l ∨ m !! k = Some v →
  fold_left (λ m kv, <[kv.1 := kv.2]> m) l m !! k = Some v.
Proof.
  induction l as [|[k1 v1] l IH]; intros m k v Hfun Hin; simpl.
  - destruct Hin as [Hin|Hm]; [by apply elem_of_nil in Hin | done].
  - apply IH.
    + intros v' Hv'. apply Hfun. by right.
    + destruct Hin as [[Heq|Hin]%elem_of_cons|Hm].
      * simplify_eq. right. apply lookup_insert_eq.
      * by left.
      * right. destruct (decide (k1 = k)) as [->|Hne].
        -- rewrite (Hfun v1) by left. apply lookup_insert_eq.
        -- by rewrite lookup_insert_ne.
Qed.

Lemma fold_insert_dom {K V} `{Countable K} (l : list (K * V)) :
  ∀ (m : gmap K V) (k : K),
  is_Some (fold_left (λ m kv, <[kv.1 := kv.2]> m) l m !! k) ↔
  is_Some (m !! k) ∨ k ∈ l.*1.
Proof.
  induction l as [|[k1 v1] l IH]; intros m k; simpl.
  - rewrite elem_of_nil. tauto.
  - rewrite IH, elem_of_cons, lookup_insert_is_Some. simpl.
    destruct (decide (k1 = k)) as [->|Hne]; [tauto|]. split.
    + intros [[Heq|[_ Hm]]|Hin]; [done|by left|by right; right].
    + intros [Hm|[Heq|Hin]]; [by left; right|done|by right].
Qed.

Section buckets.
Context (g : LayeredGraph) (ks : list NodeID) (best : list (list NodeID)).
Hypothesis ks_NoDup : NoDup ks.
Hypothesis best_buckets : buckets_of g ks best.

Lemma bucket_elem (y : nat) (l : list NodeID) (n : NodeID) :
best !! y = Some l → n ∈ l ↔ n ∈ ks ∧ Layer (position g n) = Z.of_nat y.
Proof.
intros Hl. destruct best_buckets as [_ Hcontent].
rewrite (Hcontent y l Hl), list_elem_of_filter. unfold in_layer. tauto.
Qed.

Lemma bucket_NoDup (y : nat) (l : list NodeID) : best !! y = Some l → NoDup l.
Proof.
intros Hl. destruct best_buckets as [_ Hcontent].
rewrite (Hcontent y l Hl). by apply NoDup_filter.
Qed.

Lemma bucket_find (n : NodeID) :
n ∈ ks → ∃ l (x : nat), best !! Z.to_nat (Layer (position g n)) = Some l ∧ l !! x = Some n.
Proof.
intros Hn. destruct best_buckets as [Hrange Hcontent].
specialize (Hrange n Hn). unfold len in Hrange.
destruct (lookup_lt_is_Some_2 best (Z.to_nat (Layer (position g n)))) as [l Hl]; [lia|].
assert (Hin : n ∈ l).
{ eapply bucket_elem; [done|]. split; [done|lia]. }
apply list_elem_of_lookup in Hin as [x Hx]. eauto.
Qed.

Lemma storeLayers_lookup (y x : nat) (l : list NodeID) (n : NodeID) :
best !! y = Some l → l !! x = Some n →
storeLayers best (NodePosition g) !! n =
  Some {| Layer := Z.of_nat y; Order := Z.of_nat x |}.
Proof.
intros Hy Hx. rewrite storeLayers_assignments. apply fold_insert_lookup.
- intros p (y' & x' & l' & Hy' & Hx' & ->)%elem_of_assignments.
  assert (Hin : n ∈ l) by (by eapply list_elem_of_lookup_2).
  assert (Hin' : n ∈ l') by (by eapply list_elem_of_lookup_2).
  apply (bucket_elem y l n Hy) in Hin as [_ HL].
  apply (bucket_elem y' l' n Hy') in Hin' as [_ HL'].
  assert (y' = y) as -> by lia. simplify_eq.
  pose proof (bucket_NoDup y l Hy) as Hnd.
  by rewrite (NoDup_lookup l x' x n Hnd Hx' Hx).
- left. apply elem_of_assignments. by exists y, x, l.
Qed.

Lemma storeLayers_dom (n : NodeID) :
enumerates ks (NodePosition g) →
is_Some (storeLayers best (NodePosition g) !! n) ↔ is_Some (NodePosition g !! n).
Proof.
intros Henum. rewrite storeLayers_assignments, fold_insert_dom.
split; [|by intros; left]. intros [?|Hin]; [done|].
apply list_elem_of_fmap in Hin as ([n' p] & -> & Hin). simpl.
apply elem_of_assignments in Hin as (y & x & l & Hy & Hx & _).
apply (enumerates_elem_of ks); [done|].
assert (Hin : n' ∈ l) by (by eapply list_elem_of_lookup_2).
by apply (bucket_elem y l n' Hy) in Hin as [? _].
Qed.
End buckets.

Lemma filter_ext_in {A} (P Q : A → Prop) `{∀ x, Decision (P x)} `{∀ x, Decision (Q x)}
    (l : list A) :
  (∀ x, x ∈ l → P x ↔ Q x) → filter P l = filter Q l.
Proof.
  induction l as [|x l IH]; intros Hall; [done|].
  rewrite !filter_cons.
  assert (Hx : P x ↔ Q x) by (apply Hall; left).
  rewrite IH by (intros y Hy; apply Hall; by right).
  destruct (decide (P x)), (decide (Q x)); tauto.
Qed.

Section warfield_theorem.
Context `{SliceSorterSpec} `{LayerOrderingInitializer} `{LayerOrderingOptimizer}.

(** C7: when the initializer and the optimizer only permute the nodes within
    each layer, a call of [WarfieldOrderingOptimizer.Optimize] with
    [Epochs >= 1] that returns leaves the node set and every node's layer
    as they were, and the orders of the nodes of each layer are exactly
    [0, 1, ..., L-1]. *)
Theorem C7_Warfield_layers_and_orders (Epochs : Z) (ks : list NodeID) (lg lg' : LayeredGraph)
  (Init_permutes : ∀ segments layers layers',
     Init segments layers = Some layers' → Forall2 (≡ₚ) layers layers')
  (Optimize_permutes : ∀ segments layers idx downUp layers',
     Optimize segments layers idx downUp = Some layers' → Forall2 (≡ₚ) layers layers')
  (Hepochs : 1 <= Epochs)
  (Hks : enumerates ks (NodePosition lg))
  (Hrun : WarfieldOptimize Epochs ks lg = Some lg') :
(∀ n, is_Some (NodePosition lg' !! n) ↔ is_Some (NodePosition lg !! n)) ∧
(∀ n, is_Some (NodePosition lg !! n) →
      Layer (position lg' n) = Layer (position lg n)) ∧
(∀ y, let nodes := filter (λ n, Layer (position lg' n) = y) ks in
      (λ n, Order (position lg' n)) <$> nodes ≡ₚ seqZ 0 (len nodes)).
Proof.
unfold WarfieldOptimize in Hrun.
destruct (Layers ks lg) as [layers0|] eqn:HL; [|done]. simpl in Hrun.
destruct (Init _ _) as [layers|] eqn:HI; [|done]. simpl in Hrun.
destruct (epochs _ _ _ _) as [st|] eqn:HE; [|done]. simpl in Hrun.
apply Layers_buckets in HL. apply Init_permutes in HI.
apply (epochs_permutes Optimize_permutes layers) in HE;
  [|apply Forall2_Permutation_refl..].
assert (Hbest : buckets_of lg ks (ws_bestLayers st)).
{ eapply buckets_of_perm; [done|]. by eapply Forall2_Permutation_trans. }
pose proof (enumerates_NoDup ks _ Hks) as Hnd.
injection Hrun as <-.
assert (Hpos : ∀ n, n ∈ ks → ∃ l (x : nat),
          ws_bestLayers st !! Z.to_nat (Layer (position lg n)) = Some l ∧ l !! x = Some n ∧
          position {| Segments := Segments lg; Dummy := Dummy lg;
                      NodePosition := storeLayers (ws_bestLayers st) (NodePosition lg);
                      LEdges := LEdges lg |} n =
            {| Layer := Layer (position lg n); Order := Z.of_nat x |}).
{ intros n Hn. destruct (bucket_find lg ks _ Hbest n Hn) as (l & x & Hl & Hx).
  exists l, x. split_and!; [done..|].
  unfold position at 1, lookupP. simpl.
  rewrite (storeLayers_lookup lg ks _ Hnd Hbest _ _ _ _ Hl Hx). simpl.
  destruct Hbest as [Hrange _]. specialize (Hrange n Hn). f_equal; lia. }
split_and!.
- intros n. simpl. by apply (storeLayers_dom lg ks).
- intros n Hn%(enumerates_elem_of ks); [|done].
  destruct (Hpos n Hn) as (l & x & _ & _ & ->). done.
- intros y nodes.
  assert (Hnodes : nodes = filter (in_layer lg y) ks).
  { subst nodes. apply filter_ext_in. intros n Hn.
    destruct (Hpos n Hn) as (l & x & _ & _ & ->). done. }
  clearbody nodes. subst nodes.
  destruct (decide (0 <= y < len (ws_bestLayers st))) as [Hy|Hy].
  + destruct (lookup_lt_is_Some_2 (ws_bestLayers st) (Z.to_nat y)) as [l Hl];
      [unfold len in Hy; lia|].
    assert (Hperm : l ≡ₚ filter (in_layer lg y) ks).
    { destruct Hbest as [_ Hcontent]. rewrite (Hcontent _ _ Hl).
      by rewrite Z2Nat.id by lia. }
    unfold len. rewrite <- (Permutation_length Hperm). fold (len l).
    etrans; [apply fmap_Permutation; symmetry; exact Hperm|].
    replace (seqZ 0 (len l)) with ((λ n, Order (position
       {| Segments := Segments lg; Dummy := Dummy lg;
          NodePosition := storeLayers (ws_bestLayers st) (NodePosition lg);
          LEdges := LEdges lg |} n)) <$> l); [done|].
    apply list_eq. intros i. rewrite list_lookup_fmap.
    destruct (l !! i) as [n|] eqn:Hi; simpl.
    * unfold position, lookupP. simpl.
      rewrite (storeLayers_lookup lg ks _ Hnd Hbest _ _ _ _ Hl Hi). simpl.
      apply lookup_lt_Some in Hi.
      rewrite lookup_seqZ_lt by (unfold len; lia). f_equal; lia.
    * apply lookup_ge_None in Hi. symmetry. apply lookup_seqZ_ge. unfold len. lia.
  + assert (Hnil : filter (in_layer lg y) ks = []).
    { apply length_zero_iff_nil, length_filter_none. intros n Hn.
      destruct Hbest as [Hrange _]. specialize (Hrange n Hn). unfold in_layer. lia. }
    by rewrite Hnil.
Qed.
End warfield_theorem.

Lemma BFSInit_permutes `{SliceSorterSpec} (es1 es2 es3 : list (NodeID * NodeID))
    (layers layers' : list (list NodeID)) :
  BFSInit es1 es2 es3 layers = Some layers' → Forall2 (≡ₚ) layers layers'.
Proof.
  unfold BFSInit. intros Hrun.
  destruct (bfsVisit _ _ _ _ _) as [ord|]; [|done]. simpl in Hrun.
  apply mapM_Some in Hrun. eapply Forall2_impl; [done|].
  intros l l' Hs. by apply sortSlice_perm in Hs.
Qed.

Lemma C7_Warfield_layers_and_orders_witness :
  ∃ lg', @WarfieldOptimize insertionSorter (@BFSOrderingInitializer insertionSorter)
           (CompositeLayerOrderingOptimizer []) 1 [4%N; 2%N; 3%N; 1%N] diamond = Some lg' ∧
  (∀ n, is_Some (NodePosition lg' !! n) ↔ is_Some (NodePosition diamond !! n)) ∧
  (∀ n, is_Some (NodePosition diamond !! n) →
        Layer (position lg' n) = Layer (position diamond n)) ∧
  (∀ y, let nodes := filter (λ n, Layer (position lg' n) = y) [4%N; 2%N; 3%N; 1%N] in
        (λ n, Order (position lg' n)) <$> nodes ≡ₚ seqZ 0 (len nodes)).
Proof.
  eexists. split; [vm_compute; reflexivity|].
  apply (@C7_Warfield_layers_and_orders insertionSorter insertionSorterSpec
           (@BFSOrderingInitializer insertionSorter) (CompositeLayerOrderingOptimizer []) 1).
  - intros segments layers layers'. apply BFSInit_permutes.
  - intros segments layers idx downUp layers' Hrun.
    unfold Optimize, CompositeLayerOrderingOptimizer, CompositeOptimize in Hrun.
    simpl in Hrun. simplify_eq.
    apply Forall2_Permutation_refl.
  - lia.
  - unfold enumerates. vm_compute. reflexivity.
  - vm_compute. reflexivity.
Defined.

(** ** Dummy node ids (claim C4) *)

(** C4, the code at the failing input: [maxNodeID] looks at the endpoints
    of the edges only.  In the graph with edges 1 -> 2 -> 3, 1 -> 3 and an
    isolated node 4 the largest id of an edge endpoint is 3, so the dummy
    node of the long edge 1 -> 3 takes the id 4: the dummy set meets the
    keys of [g.Nodes], allocation starts at 4 and not at
    [max(original id) + 1 = 5], and node 4 is moved from layer 0 to
    layer 1.  This holds in every visiting order of the maps. *)
Theorem C4_dummy_id_collides :
  is_Some (Nodes triangle_and_4 !! 4%N) ∧
  maxNodeID (map_to_list (Edges triangle_and_4)).*1 = 3%N ∧
  Forall (λ es, Forall (λ ns, Forall (λ es',
      (λ lg, (Dummy lg, LEdges lg !! (1%N, 3%N), position lg 4%N))
        <$> NewLayeredGraph 10 es ns es'
      = Some ({[ 4%N := true ]}, Some [1%N; 4%N; 3%N], {| Layer := 1; Order := 0 |}))
    (permutations (map_to_list (Edges triangle_and_4)).*1))
    (permutations (map_to_list (Nodes triangle_and_4)).*1))
    (permutations (map_to_list (Edges triangle_and_4)).*1).
Proof.
  split; [by eexists|]. split; [by vm_compute|].
  set (check := λ es ns es',
    match NewLayeredGraph 10 es ns es' with
    | Some lg =>
        bool_decide (Dummy lg = {[ 4%N := true ]}) &&
        bool_decide (LEdges lg !! (1%N, 3%N) = Some [1%N; 4%N; 3%N]) &&
        (Layer (position lg 4%N) =? 1) && (Order (position lg 4%N) =? 0)
    | None => false
    end).
  set (pe := permutations (map_to_list (Edges triangle_and_4)).*1).
  set (pn := permutations (map_to_list (Nodes triangle_and_4)).*1).
  assert (Hall : forallb (λ es, forallb (λ ns, forallb (check es ns) pe) pn) pe = true)
    by (vm_compute; reflexivity).
  rewrite forallb_forall in Hall. apply Forall_forall. intros es Hes%list_elem_of_In.
  specialize (Hall es Hes). rewrite forallb_forall in Hall.
  apply Forall_forall. intros ns Hns%list_elem_of_In.
  specialize (Hall ns Hns). rewrite forallb_forall in Hall.
  apply Forall_forall. intros es' Hes'%list_elem_of_In.
  specialize (Hall es' Hes'). unfold check in Hall.
  destruct (NewLayeredGraph 10 es ns es') as [lg|]; [|done]. simpl.
  repeat (apply andb_prop in Hall as [Hall ?]).
  apply bool_decide_eq_true in Hall as ->.
  match goal with Hb : bool_decide _ = true |- _ => apply bool_decide_eq_true in Hb as -> end.
  destruct (position lg 4%N) as [l o]. simpl in *.
  repeat f_equal; lia.
Qed.

(** ** Roots, totals and the bounding box (graph.go) *)

Lemma hasParent_true (es : list (NodeID * NodeID)) (m : NodeID) :
  lookupB (hasParent es) m = true ↔ ∃ e, e ∈ es ∧ e.2 = m.
Proof.
  rewrite <- hasParent_lookup. unfold lookupB, hasParent.
  assert (Hgen : ∀ (l : list (NodeID * NodeID)) (acc : gmap NodeID bool),
    (∀ k b, acc !! k = Some b → b = true) →
    ∀ k b, fold_left (λ m e, <[e.2 := true]> m) l acc !! k = Some b → b = true).
  { induction l as [|e l IH]; intros acc Hacc k b; simpl; [by apply Hacc|].
    apply IH. intros k' b'. rewrite lookup_insert.
    case_decide; [by intros [= <-]|by apply Hacc]. }
  split.
  - destruct (_ !! m) eqn:E; [by eexists|done].
  - intros [b Hb]. rewrite Hb. simpl. eapply (Hgen es ∅); [|done].
    intros k b'. by rewrite lookup_empty.
Qed.

Lemma Roots_filter (es : list (NodeID * NodeID)) (ns : list NodeID) :
  Roots es ns = filter (λ n, lookupB (hasParent es) n = false) ns.
Proof.
  unfold Roots.
  assert (Hgen : ∀ acc : list NodeID,
    fold_left (λ roots n, if lookupB (hasParent es) n then roots else roots ++ [n]) ns acc
    = acc ++ filter (λ n, lookupB (hasParent es) n = false) ns).
  { induction ns as [|k ns IH]; intros acc; simpl.
    - by rewrite filter_nil, app_nil_r.
    - rewrite IH, filter_cons. destruct (lookupB (hasParent es) k) eqn:E.
      + by rewrite decide_False by done.
      + rewrite decide_True by done. by rewrite <- app_assoc. }
  by rewrite Hgen.
Qed.

(** X1: [Graph.Roots] returns, in the order in which the nodes are visited
    and without repetition, exactly the declared nodes that no edge
    points to. *)
Theorem Roots_no_incoming_edge (g : Graph) (es : list (NodeID * NodeID)) (ns : list NodeID)
    (Hes : enumerates es (Edges g)) (Hns : enumerates ns (Nodes g)) :
  sublist (Roots es ns) ns ∧ NoDup (Roots es ns) ∧
  ∀ n, n ∈ Roots es ns ↔ is_Some (Nodes g !! n) ∧ ∀ s, Edges g !! (s, n) = None.
Proof.
  rewrite Roots_filter. split_and!.
  - apply sublist_filter.
  - apply NoDup_filter. by eapply enumerates_NoDup.
  - intros n. rewrite list_elem_of_filter, (enumerates_elem_of ns (Nodes g)) by done.
    rewrite <- not_true_iff_false, hasParent_true. split.
    + intros [Hnp Hn]. split; [done|]. intros s.
      destruct (Edges g !! (s, n)) eqn:E; [|done]. exfalso. apply Hnp.
      exists (s, n). split; [|done]. apply (enumerates_elem_of es (Edges g)); eauto.
    + intros [Hn Hnone]. split; [|done]. intros ([s t] & He & <-).
      apply (enumerates_elem_of es (Edges g)) in He as [x Hx]; [|done].
      simpl in *. by rewrite Hnone in Hx.
Qed.




Lemma fold_left_commute_perm {A B} (f : B → A → B) (l l' : list A) :
  (∀ b x y, f (f b x) y = f (f b y) x) →
  l ≡ₚ l' → ∀ b, fold_left f l b = fold_left f l' b.
Proof.
  intros Hcomm. induction 1 as [|x l l' _ IH|x y l|l l' l'' _ IH1 _ IH2]; intros b; simpl.
  - done.
  - apply IH.
  - by rewrite Hcomm.
  - by rewrite IH1.
Qed.

Lemma if_ltb_min (a b : Z) : (if a <? b then a else b) = Z.min a b.
Proof. destruct (Z.ltb_spec a b); lia. Qed.

Lemma if_gtb_max (a b : Z) : (if a >? b then a else b) = Z.max a b.
Proof. rewrite Z.gtb_ltb. destruct (Z.ltb_spec b a); lia. Qed.

Lemma growBox_comm (b : Box) (x y : Node) :
  growBox (growBox b x) y = growBox (growBox b y) x.
Proof. unfold growBox; simpl. rewrite !if_ltb_min, !if_gtb_max. f_equal; lia. Qed.

Lemma nodesInOrder_perm (g : Graph) (ns ns' : list NodeID) :
  ns ≡ₚ ns' → nodesInOrder ns g ≡ₚ nodesInOrder ns' g.
Proof. intros Hp. unfold nodesInOrder. by rewrite Hp. Qed.

(** X3: [BoundingBox], [TotalNodesWidth] and [TotalNodesHeight] do not
    depend on the order in which the map of nodes is visited. *)
Theorem BoundingBox_order_independent (g : Graph) (ns ns' : list NodeID)
    (Hns : enumerates ns (Nodes g)) (Hns' : enumerates ns' (Nodes g)) :
  BoundingBox ns g = BoundingBox ns' g ∧
  TotalNodesWidth ns g = TotalNodesWidth ns' g ∧
  TotalNodesHeight ns g = TotalNodesHeight ns' g.
Proof.
  assert (Hp : nodesInOrder ns g ≡ₚ nodesInOrder ns' g).
  { apply nodesInOrder_perm. unfold enumerates in *. by rewrite Hns, Hns'. }
  split_and!.
  - unfold BoundingBox. apply fold_left_commute_perm; [apply growBox_comm|done].
  - unfold TotalNodesWidth. apply fold_left_commute_perm; [intros; lia|done].
  - unfold TotalNodesHeight. apply fold_left_commute_perm; [intros; lia|done].
Qed.




(** X5: [maxNodeID] bounds the endpoints of all edges and is 0 or one of
    these endpoints, whatever the order of the loop. *)
Theorem maxNodeID_is_max (es : list (NodeID * NodeID)) :
  (∀ e, e ∈ es → (e.1 <= maxNodeID es)%N ∧ (e.2 <= maxNodeID es)%N) ∧
  (maxNodeID es = 0%N ∨ ∃ e, e ∈ es ∧ (maxNodeID es = e.1 ∨ maxNodeID es = e.2)).
Proof.
  unfold maxNodeID.
  set (step := λ (m : N) (e : NodeID * NodeID),
       let m := if (m <? e.1)%N then e.1 else m in
       if (m <? e.2)%N then e.2 else m).
  assert (Hstep : ∀ m e, (m <= step m e ∧ e.1 <= step m e ∧ e.2 <= step m e)%N ∧
                         (step m e = m ∨ step m e = e.1 ∨ step m e = e.2)).
  { intros m e. unfold step.
    destruct (N.ltb_spec m e.1); [destruct (N.ltb_spec e.1 e.2)|destruct (N.ltb_spec m e.2)];
      lia. }
  assert (Hgen : ∀ m0 : N,
    (m0 <= fold_left step es m0)%N ∧
    (∀ e, e ∈ es → (e.1 <= fold_left step es m0)%N ∧ (e.2 <= fold_left step es m0)%N) ∧
    (fold_left step es m0 = m0 ∨
     ∃ e, e ∈ es ∧ (fold_left step es m0 = e.1 ∨ fold_left step es m0 = e.2))).
  { induction es as [|e es IH]; intros m0; simpl.
    - split_and!; [lia| |by left]. intros e He. by apply elem_of_nil in He.
    - destruct (IH (step m0 e)) as (Hle & Hall & Hatt).
      destruct (Hstep m0 e) as [Hb Hc].
      split_and!.
      + lia.
      + intros e' [->|He']%elem_of_cons; [lia|by apply Hall].
      + destruct Hatt as [Heq|(e' & He' & Hor)].
        * destruct Hc as [E|E]; [left; congruence|].
          right. exists e. split; [by left|]. rewrite Heq. tauto.
        * right. exists e'. split; [by right|done]. }
  destruct (Hgen 0%N) as (_ & Hall & Hatt). split; [done|]. exact Hatt.
Qed.

Lemma Roots_no_incoming_edge_witness :
  let es := (map_to_list (Edges triangle_and_4)).*1 in
  let ns := (map_to_list (Nodes triangle_and_4)).*1 in
  sublist (Roots es ns) ns ∧ NoDup (Roots es ns) ∧
  ∀ n, n ∈ Roots es ns ↔
       is_Some (Nodes triangle_and_4 !! n) ∧ ∀ s, Edges triangle_and_4 !! (s, n) = None.
Proof. apply (Roots_no_incoming_edge triangle_and_4); unfold enumerates; reflexivity. Defined.


Lemma BoundingBox_order_independent_witness :
  let ns := (map_to_list (Nodes triangle_and_4)).*1 in
  BoundingBox ns triangle_and_4 = BoundingBox (reverse ns) triangle_and_4 ∧
  TotalNodesWidth ns triangle_and_4 = TotalNodesWidth (reverse ns) triangle_and_4 ∧
  TotalNodesHeight ns triangle_and_4 = TotalNodesHeight (reverse ns) triangle_and_4.
Proof.
  apply (BoundingBox_order_independent triangle_and_4); unfold enumerates.
  - reflexivity.
  - apply reverse_Permutation.
Defined.


(** ** Layers and copyLayers (layered_graph.go) *)
Lemma maxLayer_ge (g : LayeredGraph) (ks : list NodeID) :
  0 <= maxLayer g ks ∧ ∀ n, n ∈ ks → Layer (position g n) <= maxLayer g ks.
Proof.
  unfold maxLayer.
  assert (Hgen : ∀ m0,
    m0 <= fold_left (λ m n, if m <? Layer (position g n) then Layer (position g n) else m) ks m0 ∧
    ∀ n, n ∈ ks → Layer (position g n) <=
      fold_left (λ m n, if m <? Layer (position g n) then Layer (position g n) else m) ks m0).
  { induction ks as [|k ks IH]; intros m0; simpl.
    - split; [lia|]. intros n Hn. by apply elem_of_nil in Hn.
    - destruct (IH (if m0 <? Layer (position g k) then Layer (position g k) else m0))
        as [Hle Hall].
      split.
      + destruct (Z.ltb_spec m0 (Layer (position g k))); lia.
      + intros n [->|Hn]%elem_of_cons; [|by apply Hall].
        destruct (Z.ltb_spec m0 (Layer (position g k))); lia. }
  apply Hgen.
Qed.


Section layers_total.
Context `{SliceSorterSpec}.

End layers_total.


Lemma copySlice_lookup {A} (dst src : list A) (j : nat) :
  length (copySlice dst src) = length dst ∧
  copySlice dst src !! j =
    if decide (j < length dst ∧ j < length src)%nat then src !! j else dst !! j.
Proof.
  unfold copySlice. split.
  - rewrite length_app, length_take, length_drop. lia.
  - case_decide as Hj.
    + rewrite lookup_app_l by (rewrite length_take; lia). apply lookup_take_lt. lia.
    + destruct (decide (j < length dst)%nat) as [Hd|Hd].
      * assert (length src <= j)%nat by lia.
        rewrite lookup_app_r by (rewrite length_take; lia).
        rewrite length_take, lookup_drop. f_equal. lia.
      * rewrite (lookup_ge_None_2 dst) by lia. apply lookup_ge_None_2.
        rewrite length_app, length_take, length_drop. lia.
Qed.

(** X7: [copyLayers(dst, src)] panics exactly when [dst] has fewer layers
    than [src]; otherwise it keeps the shape of [dst], overwrites layer [i]
    with [copy(dst[i], src[i])] for each layer of [src] and leaves the
    further layers of [dst] alone. *)
Theorem copyLayers_spec (dst src : list (list NodeID)) :
  (is_Some (copyLayers dst src) ↔ (length src <= length dst)%nat) ∧
  ∀ r, copyLayers dst src = Some r →
    length r = length dst ∧
    ∀ (i : nat) d, dst !! i = Some d →
      r !! i = Some (match src !! i with Some s => copySlice d s | None => d end).
Proof.
  revert dst. induction src as [|s src IH]; intros dst.
  - split; [split; [simpl; lia|by destruct dst; eexists]|].
    intros r Hr. assert (r = dst) as -> by (destruct dst; simpl in Hr; congruence).
    split; [done|]. intros i d Hd. by rewrite lookup_nil.
  - destruct dst as [|d dst]; simpl.
    + split; [split; [by intros [? ?]|lia]|done].
    + destruct (IH dst) as [Hiff Hres]. split.
      * rewrite <- Nat.succ_le_mono, <- Hiff.
        destruct (copyLayers dst src); simpl; split; intros [? ?]; by eauto.
      * intros r Hr. destruct (copyLayers dst src) as [r'|]; [|done].
        simpl in Hr. injection Hr as <-.
        destruct (Hres r' eq_refl) as [Hlen Hlook]. split; [simpl; lia|].
        intros [|i] d0 Hd0; simpl in *; [by simplify_eq|by apply Hlook].
Qed.




(** X9: on a non-empty tree, [Update] at an index [<= 0] never returns (a
    negative index panics, index 0 loops for ever: no fuel gives a
    result) while [Query] there returns 0; at an index beyond the tree
    [Update] changes nothing and [Query] panics. *)
Theorem Fenwick_out_of_range (bit : FenwickTree) (idx value : Z) (fuel : nat)
    (Hbit : 0 < len bit) :
  (idx <= 0 → Update_loop fuel bit idx value = None) ∧
  (idx <= 0 → Query bit idx = Some 0) ∧
  (len bit <= idx → Update bit idx value = Some bit ∧ Query bit idx = None).
Proof.
  split_and!.
  - intros Hidx. revert bit Hbit. induction fuel as [|fuel IH]; intros bit Hbit; simpl.
    + by replace (idx <? len bit) with true by lia.
    + replace (idx <? len bit) with true by lia.
      destruct (index bit idx) as [old|] eqn:Hold; [|done]. simpl.
      assert (idx = 0) as ->.
      { unfold index in Hold. destruct (Z.ltb_spec idx 0); [done|lia]. }
      simpl. apply IH. unfold len. rewrite length_insert. exact Hbit.
  - intros Hidx. unfold Query.
    destruct (Z.to_nat idx); simpl; by replace (0 <? idx) with false by lia.
  - intros Hidx. split.
    + unfold Update. destruct (length bit); simpl;
        by replace (idx <? len bit) with false by lia.
    + unfold Query. destruct (Z.to_nat idx) eqn:E; [lia|]. simpl.
      replace (0 <? idx) with true by lia.
      unfold index. replace (idx <? 0) with false by lia.
      rewrite lookup_ge_None_2; [done|]. unfold len in *. lia.
Qed.


Lemma numCrossingsBetweenLayers_naive (segments : gmap (NodeID * NodeID) bool)
    (ltop lbottom : list NodeID) :
  numCrossingsBetweenLayers segments ltop lbottom =
  Some (naiveCrossings segments ltop lbottom).
Proof.
  unfold numCrossingsBetweenLayers.
  destruct (outer_loop segments ltop lbottom) as (st' & -> & Hsum & _). simpl.
  f_equal. rewrite Hsum. unfold naiveCrossings.
  apply crossCount_Permutation, processed_Permutation.
Qed.

(** X10: [numCrossings] always returns, and returns the sum over the pairs
    of adjacent layers of the naive crossing counts; the sum is never
    negative and is 0 for at most one layer. *)
Theorem numCrossings_total (segments : gmap (NodeID * NodeID) bool)
    (layers : list (list NodeID)) :
  numCrossings segments layers = Some (naiveTotalCrossings segments layers) ∧
  0 <= naiveTotalCrossings segments layers ∧
  ((length layers <= 1)%nat → naiveTotalCrossings segments layers = 0).
Proof.
  unfold numCrossings, naiveTotalCrossings.
  split_and!.
  - assert (Hgen : ∀ (prs : list (list NodeID * list NodeID)) (c : Z),
      foldlM (λ count '(ltop, lbottom),
                n ← numCrossingsBetweenLayers segments ltop lbottom; Some (count + n)) c prs
      = Some (c + foldr (λ pr acc, naiveCrossings segments pr.1 pr.2 + acc) 0 prs)).
    { induction prs as [|[a b] prs IH]; intros c; simpl.
      - f_equal. lia.
      - rewrite numCrossingsBetweenLayers_naive. simpl. rewrite IH. f_equal. lia. }
    by rewrite Hgen.
  - induction (zip layers (drop 1 layers)) as [|[a b] prs IH]; simpl; [done|].
    unfold naiveCrossings at 1, len. lia.
  - intros Hlen. destruct layers as [|a [|b layers]]; simpl in *; [done..|lia].
Qed.



Lemma Fenwick_out_of_range_witness :
  (0 <= 0 → Update_loop 100 (NewFenwickTree 3) 0 1 = None) ∧
  (0 <= 0 → Query (NewFenwickTree 3) 0 = Some 0) ∧
  (len (NewFenwickTree 3) <= 0 →
   Update (NewFenwickTree 3) 0 1 = Some (NewFenwickTree 3) ∧ Query (NewFenwickTree 3) 0 = None).
Proof. apply Fenwick_out_of_range. vm_compute. reflexivity. Defined.

(** ** Transposition, neighbour indices and the best ordering *)

Lemma index_Some_iff {A} (s : list A) (i : Z) :
  is_Some (index s i) ↔ 0 <= i < len s.
Proof.
  unfold index, len. destruct (Z.ltb_spec i 0).
  - split; [by intros [? ?]|lia].
  - rewrite lookup_lt_is_Some. lia.
Qed.

Lemma swap_adjacent_perm {A} (l : list A) (i : nat) (a b : A) :
  l !! i = Some a → l !! S i = Some b →
  <[S i := a]> (<[i := b]> l) ≡ₚ l.
Proof.
  revert i. induction l as [|x l IH]; intros i Ha Hb; [done|].
  destruct i as [|i]; simpl in *.
  - simplify_eq. destruct l as [|y l]; simplify_eq/=. apply perm_swap.
  - constructor. by apply IH.
Qed.

Lemma switchStep_perm segments fixed downUp layer i layer' :
  switchStep segments fixed downUp layer i = Some layer' → layer ≡ₚ layer'.
Proof.
  unfold switchStep. intros Hs.
  destruct (index layer i) as [a|] eqn:Ha; [|done].
  destruct (index layer (i + 1)) as [b|] eqn:Hb; [|done].
  cbn [mbind option_bind] in Hs.
  assert (Hc : layer' = layer ∨
               layer' = <[Z.to_nat (i + 1) := a]> (<[Z.to_nat i := b]> layer)).
  { destruct downUp; rewrite !numCrossingsBetweenLayers_naive in Hs;
      cbn [mbind option_bind] in Hs; destruct (_ <? _); simplify_eq; auto. }
  destruct Hc as [->| ->]; [done|].
  assert (Hi : 0 <= i) by (unfold index in Ha; destruct (Z.ltb_spec i 0); [done|lia]).
  unfold index in *. destruct (Z.ltb_spec i 0); [lia|]. destruct (Z.ltb_spec (i+1) 0); [lia|].
  replace (Z.to_nat (i + 1)) with (S (Z.to_nat i)) in * by lia.
  symmetry. by apply swap_adjacent_perm.
Qed.

Lemma switchStep_total segments fixed downUp layer i :
  0 <= i → i + 1 < len layer → is_Some (switchStep segments fixed downUp layer i).
Proof.
  intros H0 H1. unfold switchStep.
  destruct (proj2 (index_Some_iff layer i)) as [a ->]; [lia|].
  destruct (proj2 (index_Some_iff layer (i + 1))) as [b ->]; [lia|]. simpl.
  destruct downUp; rewrite !numCrossingsBetweenLayers_naive; simpl;
    destruct (_ <? _); eauto.
Qed.

Lemma foldlM_perm_inv {A B} (f : list A → B → option (list A)) :
  (∀ l b l', f l b = Some l' → l ≡ₚ l') →
  ∀ bs l l', foldlM f l bs = Some l' → l ≡ₚ l'.
Proof.
  intros Hf bs. induction bs as [|b bs IH]; intros l l' H; simpl in H.
  - by simplify_eq.
  - destruct (f l b) as [l1|] eqn:H1; [|done]. simpl in H.
    etrans; [by eapply Hf|by apply IH].
Qed.

Lemma switchLoop_perm segments fixed downUp layer ixs layer' :
  foldlM (switchStep segments fixed downUp) layer ixs = Some layer' → layer ≡ₚ layer'.
Proof. apply foldlM_perm_inv. intros ? ? ?. apply switchStep_perm. Qed.

Lemma switchLoop_total segments fixed downUp layer :
  is_Some (foldlM (switchStep segments fixed downUp) layer (seqZ 0 (len layer - 1))).
Proof.
  assert (G : ∀ (n : nat) (s : Z) l, 0 <= s → s + Z.of_nat n + 1 <= len l →
     is_Some (foldlM (switchStep segments fixed downUp) l (seqZ s (Z.of_nat n)))).
  { induction n as [|n IH]; intros s l Hs Hl.
    - simpl. eauto.
    - rewrite seqZ_cons by lia. simpl.
      destruct (switchStep_total segments fixed downUp l s) as [l1 H1]; [lia|lia|].
      rewrite H1. simpl. replace (Z.pred (Z.of_nat (S n))) with (Z.of_nat n) by lia.
      apply IH; [lia|]. apply switchStep_perm, Permutation_length in H1.
      unfold len in *. lia. }
  destruct (Z.le_gt_cases (len layer - 1) 0) as [Hle|Hgt].
  - rewrite seqZ_nil by lia. simpl. eauto.
  - replace (len layer - 1) with (Z.of_nat (Z.to_nat (len layer - 1))) by lia.
    apply G; lia.
Qed.

(** X11: [SwitchAdjacentOrderingOptimizer.Optimize] returns exactly when [y]
    is an index of [layers] (otherwise [layers[y]] panics); it then leaves
    every other layer as it was and the nodes of layer [y] permuted. *)
Theorem SwitchAdjacent_transposes (segments : gmap (NodeID * NodeID) bool)
    (layers : list (list NodeID)) (y : Z) (downUp : bool) :
  (is_Some (SwitchAdjacentOptimize segments layers y downUp) ↔ 0 <= y < len layers) ∧
  ∀ layers', SwitchAdjacentOptimize segments layers y downUp = Some layers' →
    Forall2 (≡ₚ) layers layers' ∧
    ∀ i : nat, i ≠ Z.to_nat y → layers' !! i = layers !! i.
Proof.
  unfold SwitchAdjacentOptimize. split.
  - rewrite <- index_Some_iff. split.
    + intros [r Hr]. destruct (index layers y); [eauto|done].
    + intros [layer Hl]. rewrite Hl. simpl.
      destruct (Z.ltb_spec (len layer) 2); [eauto|].
      assert (Hy : 0 <= y < len layers) by (apply index_Some_iff; eauto).
      destruct downUp; simpl.
      * destruct (Z.eqb_spec y (len layers - 1)); [eauto|].
        destruct (proj2 (index_Some_iff layers (y + 1))) as [fixed ->]; [lia|]. simpl.
        destruct (switchLoop_total segments fixed true layer) as [l' ->]. simpl. eauto.
      * destruct (Z.eqb_spec y 0); [eauto|].
        destruct (proj2 (index_Some_iff layers (y - 1))) as [fixed ->]; [lia|]. simpl.
        destruct (switchLoop_total segments fixed false layer) as [l' ->]. simpl. eauto.
  - intros layers' H.
    destruct (index layers y) as [layer|] eqn:Hl; [|done]. simpl in H.
    assert (Hrefl : Forall2 (≡ₚ) layers layers ∧
                    ∀ i : nat, i ≠ Z.to_nat y → layers !! i = layers !! i).
    { split; [|done]. apply Forall2_same_length_lookup_2; [done|].
      intros i a b ? ?. by simplify_eq. }
    destruct (len layer <? 2); [by simplify_eq|].
    destruct (downUp && (y =? len layers - 1)); [by simplify_eq|].
    destruct (negb downUp && (y =? 0)); [by simplify_eq|].
    destruct (index layers (if downUp then y + 1 else y - 1)) as [fixed|]; [|done].
    simpl in H.
    destruct (foldlM _ _ _) as [layer'|] eqn:Hf; [|done]. simpl in H. simplify_eq.
    apply switchLoop_perm in Hf.
    unfold index in Hl. destruct (Z.ltb_spec y 0); [done|].
    split.
    + apply Forall2_same_length_lookup_2; [by rewrite length_insert|].
      intros i a b Ha Hb. destruct (decide (i = Z.to_nat y)) as [->|Hne].
      * rewrite list_lookup_insert_eq in Hb by (by eapply lookup_lt_Some). by simplify_eq.
      * rewrite list_lookup_insert_ne in Hb by done. by simplify_eq.
    + intros i Hne. by rewrite list_lookup_insert_ne.
Qed.

Lemma neighborsXIn_spec (adjacent : NodeID → NodeID → bool) (t : NodeID)
    (other : list NodeID) :
  StronglySorted Z.lt (neighborsXIn adjacent t other) ∧
  ∀ i, i ∈ neighborsXIn adjacent t other ↔
       ∃ n, index other i = Some n ∧ adjacent t n = true.
Proof.
  unfold neighborsXIn. split.
  - assert (Hs : StronglySorted Z.lt (indexed other).*1).
    { unfold indexed. rewrite fmap_imap.
      assert (G : ∀ (k : nat) (l : list NodeID),
        StronglySorted Z.lt (imap (λ i x, Z.of_nat (k + i)) l) ∧
        Forall (λ z, Z.of_nat k <= z) (imap (λ i x, Z.of_nat (k + i)) l)).
      { intros k l. revert k. induction l as [|x l IH]; intros k; simpl.
        - split; constructor.
        - destruct (IH (S k)) as [IH1 IH2].
          assert (E : imap ((λ i x, Z.of_nat (k + i)) ∘ S) l
                      = imap (λ i x, Z.of_nat (S k + i)) l).
          { apply imap_ext. intros i y _. simpl. f_equal. lia. }
          rewrite E. split.
          + constructor; [done|]. eapply Forall_impl; [exact IH2|]. simpl. intros. lia.
          + constructor; [lia|]. eapply Forall_impl; [exact IH2|]. simpl. intros. lia. }
      destruct (G 0%nat other) as [G1 _]. exact G1. }
    revert Hs. generalize (indexed other). intros l. induction l as [|[i n] l IH]; simpl.
    + constructor.
    + intros Hs. apply StronglySorted_inv in Hs as [Hs Hall].
      rewrite filter_cons. case_decide; simpl; [|by apply IH].
      constructor; [by apply IH|].
      apply Forall_forall. intros z Hz. rewrite Forall_forall in Hall. apply Hall.
      apply list_elem_of_fmap in Hz as (p & -> & Hp).
      apply list_elem_of_filter in Hp as [_ Hp]. apply list_elem_of_fmap. eauto.
  - intros i. rewrite list_elem_of_fmap. split.
    + intros ([j n] & -> & Hin). apply list_elem_of_filter in Hin as [Hadj Hin]. simpl in *.
      exists n. split; [|done].
      apply list_elem_of_lookup in Hin as (k & Hk). rewrite indexed_lookup in Hk.
      destruct (other !! k) eqn:E; simplify_eq/=.
      unfold index. destruct (Z.ltb_spec (Z.of_nat k) 0); [lia|]. by rewrite Nat2Z.id.
    + intros (n & Hi & Hadj). exists (i, n). split; [done|].
      apply list_elem_of_filter. split; [done|].
      unfold index in Hi. destruct (Z.ltb_spec i 0); [done|].
      apply list_elem_of_lookup. exists (Z.to_nat i). rewrite indexed_lookup, Hi. simpl.
      f_equal. f_equal. lia.
Qed.

(** X12: [lowerNeighborsX] returns nil on the last layer and
    [upperNeighborsX] on layer 0, whatever [x] is; on another layer they
    panic exactly when [layers[y][x]] is out of range, and otherwise return
    in ascending order exactly the indices [i] of the layer below (above)
    whose node is joined to [layers[y][x]] by a segment stored as [true]. *)
Theorem neighborsX_spec (segments : gmap (NodeID * NodeID) bool)
    (layers : list (list NodeID)) (x y : Z) :
  (y = len layers - 1 → lowerNeighborsX segments layers x y = Some []) ∧
  (y = 0 → upperNeighborsX segments layers x y = Some []) ∧
  (y ≠ len layers - 1 →
     match layer ← index layers y; index layer x with
     | None => lowerNeighborsX segments layers x y = None
     | Some t => ∃ below xs,
         index layers (y + 1) = Some below ∧
         lowerNeighborsX segments layers x y = Some xs ∧
         StronglySorted Z.lt xs ∧
         ∀ i, i ∈ xs ↔ ∃ n, index below i = Some n ∧ lookupB segments (t, n) = true
     end) ∧
  (y ≠ 0 →
     match layer ← index layers y; index layer x with
     | None => upperNeighborsX segments layers x y = None
     | Some t => ∃ above xs,
         index layers (y - 1) = Some above ∧
         upperNeighborsX segments layers x y = Some xs ∧
         StronglySorted Z.lt xs ∧
         ∀ i, i ∈ xs ↔ ∃ n, index above i = Some n ∧ lookupB segments (n, t) = true
     end).
Proof.
  unfold lowerNeighborsX, upperNeighborsX. split_and!.
  - intros ->. by rewrite Z.eqb_refl.
  - intros ->. done.
  - intros Hy. destruct (Z.eqb_spec y (len layers - 1)); [done|].
    destruct (index layers y) as [layer|] eqn:Hl; [|done]. simpl.
    destruct (index layer x) as [t|] eqn:Ht; [|done]. simpl.
    assert (Hr : 0 <= y < len layers) by (apply index_Some_iff; eauto).
    destruct (proj2 (index_Some_iff layers (y + 1))) as [below Hb]; [lia|].
    rewrite Hb. simpl. exists below, (neighborsXIn (λ t n, lookupB segments (t, n)) t below).
    split; [done|]. split; [done|].
    apply (neighborsXIn_spec (λ t n, lookupB segments (t, n))).
  - intros Hy. destruct (Z.eqb_spec y 0); [done|].
    destruct (index layers y) as [layer|] eqn:Hl; [|done]. simpl.
    destruct (index layer x) as [t|] eqn:Ht; [|done]. simpl.
    assert (Hr : 0 <= y < len layers) by (apply index_Some_iff; eauto).
    destruct (proj2 (index_Some_iff layers (y - 1))) as [above Hb]; [lia|].
    rewrite Hb. simpl. exists above, (neighborsXIn (λ t n, lookupB segments (n, t)) t above).
    split; [done|]. split; [done|].
    apply (neighborsXIn_spec (λ t n, lookupB segments (n, t))).
Qed.

Lemma numCrossings_naive (segments : gmap (NodeID * NodeID) bool)
    (layers : list (list NodeID)) :
  ∃ N, numCrossings segments layers = Some N ∧ 0 <= N.
Proof.
  unfold numCrossings.
  assert (Hgen : ∀ (prs : list (list NodeID * list NodeID)) (c : Z), 0 <= c →
    ∃ N, foldlM (λ count '(ltop, lbottom),
              n ← numCrossingsBetweenLayers segments ltop lbottom; Some (count + n)) c prs
         = Some N ∧ 0 <= N).
  { induction prs as [|[a b] prs IH]; intros c Hc; simpl.
    - eauto.
    - rewrite numCrossingsBetweenLayers_naive. simpl. apply IH.
      unfold naiveCrossings, len. lia. }
  apply Hgen. lia.
Qed.

Lemma Forall2_Permutation_length (A B : list (list NodeID)) :
  Forall2 (≡ₚ) A B → Forall2 (λ a b, length a = length b) A B.
Proof. intros HF. eapply Forall2_impl; [exact HF|]. intros a b. apply Permutation_length. Qed.

Section warfield_best.
Context `{SliceSorter} `{LayerOrderingInitializer} `{LayerOrderingOptimizer}.

(** X13: the best-so-far bookkeeping of the Warfield loop.  When the
    optimizer only permutes nodes within layers, after at least one epoch
    the saved layers have exactly [bestN] crossings, [bestN] is not
    negative and not larger than the crossings of the layers the last
    epoch left, and a [bestN] that was already valid never grows. *)
Theorem Warfield_keeps_best (segments : gmap (NodeID * NodeID) bool)
    (Optimize_permutes : ∀ segments layers idx downUp layers',
       Optimize segments layers idx downUp = Some layers' → Forall2 (≡ₚ) layers layers')
    (n : nat) (t : Z) (st st' : WarfieldState)
    (Hshape : Forall2 (≡ₚ) (ws_bestLayers st) (ws_layers st))
    (Hbest : ws_bestN st < 0 ∨
             numCrossings segments (ws_bestLayers st) = Some (ws_bestN st))
    (Hrun : epochs (S n) t segments st = Some st') :
  numCrossings segments (ws_bestLayers st') = Some (ws_bestN st') ∧
  (0 <= ws_bestN st → ws_bestN st' <= ws_bestN st) ∧
  ∃ N, numCrossings segments (ws_layers st') = Some N ∧ 0 <= ws_bestN st' <= N.
Proof.
  assert (G : ∀ (n : nat) t st st',
    Forall2 (≡ₚ) (ws_bestLayers st) (ws_layers st) →
    (ws_bestN st < 0 ∨ numCrossings segments (ws_bestLayers st) = Some (ws_bestN st)) →
    epochs n t segments st = Some st' →
    Forall2 (≡ₚ) (ws_bestLayers st') (ws_layers st') ∧
    (ws_bestN st' < 0 ∨ numCrossings segments (ws_bestLayers st') = Some (ws_bestN st')) ∧
    (0 <= ws_bestN st → 0 <= ws_bestN st' <= ws_bestN st) ∧
    ((n ≠ 0)%nat → ∃ N, numCrossings segments (ws_layers st') = Some N ∧
                         0 <= ws_bestN st' <= N)).
  { clear n t st st' Hshape Hbest Hrun. intros n. induction n as [|n IH]; intros t st st' Hshape Hbest Hrun; simpl in Hrun.
    - simplify_eq. split_and!; [done|done|lia|done].
    - destruct (sweep _ _ _) as [layers|] eqn:Hsweep; [|done]. simpl in Hrun.
      destruct (numCrossings_naive segments layers) as (N & HN & HN0).
      rewrite HN in Hrun. simpl in Hrun.
      eapply sweep_permutes in Hsweep; [|exact Optimize_permutes].
      assert (Hshape' : Forall2 (≡ₚ) (ws_bestLayers st) layers)
        by (eapply Forall2_Permutation_trans; [exact Hshape|exact Hsweep]).
      destruct ((ws_bestN st <? 0) || (N <? ws_bestN st)) eqn:Hcmp.
      + rewrite copyLayers_same_shape in Hrun by (by apply Forall2_Permutation_length).
        simpl in Hrun.
        set (st1 := {| ws_layers := layers; ws_bestN := N; ws_bestLayers := layers |}) in *.
        assert (Hle : 0 <= ws_bestN st → N <= ws_bestN st).
        { intros. apply orb_true_iff in Hcmp as [?%Z.ltb_lt|?%Z.ltb_lt]; lia. }
        destruct (N =? 0).
        * simplify_eq. simpl. split_and!; [apply Forall2_Permutation_refl|by right|lia|].
          intros _. exists N. split; [done|lia].
        * destruct (IH (t + 1) st1 st') as (I1 & I2 & I3 & I4);
            [apply Forall2_Permutation_refl|by right|done|].
          simpl in I3. split_and!; [done|done|lia|].
          intros _. destruct n as [|n].
          -- simpl in Hrun. simplify_eq. simpl. exists N. split; [done|lia].
          -- by apply I4.
      + simpl in Hrun.
        set (st1 := {| ws_layers := layers; ws_bestN := ws_bestN st;
                       ws_bestLayers := ws_bestLayers st |}) in *.
        apply orb_false_iff in Hcmp as [Hge1%Z.ltb_ge Hge2%Z.ltb_ge].
        assert (Hb : numCrossings segments (ws_bestLayers st) = Some (ws_bestN st))
          by (destruct Hbest; [lia|done]).
        destruct (N =? 0).
        * simplify_eq. simpl. split_and!; [done|by right|lia|]. intros _. exists N. split; [done|lia].
        * destruct (IH (t + 1) st1 st') as (I1 & I2 & I3 & I4); [done|by right|done|].
          simpl in I3. split_and!; [done|done|lia|].
          intros _. destruct n as [|n].
          -- simpl in Hrun. simplify_eq. simpl. exists N. split; [done|lia].
          -- by apply I4. }
  destruct (G (S n) t st st' Hshape Hbest Hrun) as (G1 & G2 & G3 & G4).
  destruct G4 as (N & HN & HN'); [done|].
  split_and!.
  - destruct G2; [lia|done].
  - intros. by apply G3.
  - eauto.
Qed.
End warfield_best.

(** ** Chains, segments and dummy nodes *)

Lemma addFakes_chain (n : nat) : ∀ layer yx next ch,
  ∃ mid, (addFakes n layer yx next ch).2 = ch ++ mid ∧ length mid = n.
Proof.
  induction n as [|n IH]; intros layer yx next ch; simpl.
  - exists []. by rewrite app_nil_r.
  - destruct (IH (layer + 1) (<[next := {| Layer := layer; Order := 0 |}]> yx)
                (uint64_succ next) (ch ++ [next])) as (mid & -> & Hlen).
    exists (next :: mid). rewrite <- app_assoc. simpl. split; [done|lia].
Qed.

Lemma makeEdge_edges (st : EdgesState) (e : NodeID * NodeID) :
  ∃ mid, es_edges (makeEdge st e) = <[e := e.1 :: mid ++ [e.2]]> (es_edges st).
Proof.
  unfold makeEdge.
  destruct (_ >? 1).
  - match goal with |- context [addFakes ?n ?l ?yx ?nx ?ch] =>
      destruct (addFakes_chain n l yx nx ch) as (mid & Hmid & _);
      destruct (addFakes n l yx nx ch) as [[yx' next'] ch'] end.
    simpl in *. subst. exists mid. done.
  - simpl. exists []. done.
Qed.


Lemma makeEdges_fold_chains (es : list (NodeID * NodeID)) : ∀ st,
  (∀ e, is_Some (es_edges (fold_left makeEdge es st) !! e) ↔
        e ∈ es ∨ is_Some (es_edges st !! e)) ∧
  ((∀ e nodes, es_edges st !! e = Some nodes → chain_of e nodes) →
   ∀ e nodes, es_edges (fold_left makeEdge es st) !! e = Some nodes → chain_of e nodes).
Proof.
  induction es as [|e0 es IH]; intros st; simpl.
  - split; [intros e; rewrite elem_of_nil; tauto|auto].
  - destruct (IH (makeEdge st e0)) as [IH1 IH2].
    destruct (makeEdge_edges st e0) as (mid & Hmid). split.
    + intros e. rewrite IH1, Hmid, lookup_insert_is_Some, elem_of_cons.
      destruct (decide (e0 = e)) as [->|Hne]; [tauto|]. split.
      * intros [Hx|[Hx|[_ Hx]]]; [by left; right|done|by right].
      * intros [[Hx|Hx]|Hx]; [by subst|by left|by right; right].
    + intros Hst. apply IH2. intros e nodes. rewrite Hmid.
      intros [[<- <-]|[_ ?]]%lookup_insert_Some; [by exists mid|by apply Hst].
Qed.

Lemma makeSegments_is_Some (edges : gmap (NodeID * NodeID) (list NodeID)) :
  is_Some (makeSegments edges) ↔ ∀ e nodes, edges !! e = Some nodes → 2 <= len nodes.
Proof.
  unfold makeSegments.
  assert (G : ∀ (l : list ((NodeID * NodeID) * list NodeID))
                 (segs : gmap (NodeID * NodeID) bool),
    is_Some (foldlM (λ (segments : gmap (NodeID * NodeID) bool) '(e, nodes),
       if len nodes =? 2 then Some (<[e := true]> segments)
       else if len nodes >? 2 then
         Some (fold_left (λ segments s, <[s := true]> segments) (consecutive nodes) segments)
       else None) segs l) ↔ ∀ e nodes, (e, nodes) ∈ l → 2 <= len nodes).
  { induction l as [|[e nodes] l IH]; intros segs; simpl.
    - split; [intros _ ? ? []%elem_of_nil|eauto].
    - destruct (Z.eqb_spec (len nodes) 2) as [E|E]; simpl.
      + rewrite IH. split.
        * intros Hl e' n' [?|?]%elem_of_cons; [simplify_eq; lia|eauto].
        * intros Hl e' n' ?. apply (Hl e'). by right.
      + destruct (Z.gtb_spec (len nodes) 2); simpl.
        * rewrite IH. split.
          -- intros Hl e' n' [?|?]%elem_of_cons; [simplify_eq; lia|eauto].
          -- intros Hl e' n' ?. apply (Hl e'). by right.
        * split; [by intros [? ?]|].
          intros Hl. assert (2 <= len nodes) by (apply (Hl e); by left). lia. }
  rewrite G. split.
  - intros Hl e nodes He. apply (Hl e). by apply elem_of_map_to_list.
  - intros Hl e nodes He. apply (Hl e). by apply elem_of_map_to_list.
Qed.

(** X14: [makeEdges] gives exactly the edges of the graph a chain, and every
    chain starts at the source of its edge and ends at its target, so it
    has at least two nodes: the panic of [makeSegments] cannot be reached
    from [NewLayeredGraph]. *)
Theorem makeEdges_chains (es : list (NodeID * NodeID)) (nodeYX : gmap NodeID LayerPosition) :
  let edges := es_edges (makeEdges es nodeYX) in
  (∀ e, is_Some (edges !! e) ↔ e ∈ es) ∧
  (∀ e nodes, edges !! e = Some nodes → ∃ mid, nodes = e.1 :: mid ++ [e.2]) ∧
  is_Some (makeSegments edges).
Proof.
  unfold makeEdges. simpl.
  match goal with |- context [fold_left makeEdge es ?st] =>
    destruct (makeEdges_fold_chains es st) as [H1 H2] end.
  simpl in *.
  assert (H3 : ∀ e nodes, es_edges (fold_left makeEdge es
      {| es_nodeYX := nodeYX; es_next := uint64_succ (maxNodeID es); es_edges := ∅ |}) !! e
      = Some nodes → chain_of e nodes).
  { apply H2. intros e nodes. by rewrite lookup_empty. }
  split_and!.
  - intros e. rewrite H1, lookup_empty. split; [intros [?|[? ?]]; done|auto].
  - exact H3.
  - apply makeSegments_is_Some. intros e nodes He. apply H3 in He as (mid & ->).
    unfold len. simpl. rewrite length_app. simpl. lia.
Qed.

Lemma fold_insert_true_lookup {K} `{Countable K} (l : list K) :
  ∀ (m : gmap K bool) (k : K),
  fold_left (λ m s, <[s := true]> m) l m !! k =
  if decide (k ∈ l) then Some true else m !! k.
Proof.
  induction l as [|s l IH]; intros m k; cbn [fold_left].
  - rewrite decide_False by apply not_elem_of_nil. done.
  - rewrite IH. destruct (decide (k ∈ l)) as [Hl|Hl].
    + rewrite decide_True by (by right). done.
    + destruct (decide (k = s)) as [->|Hne].
      * rewrite decide_True by (by left). by rewrite lookup_insert_eq.
      * rewrite decide_False by (intros [?|?]%elem_of_cons; done).
        by rewrite lookup_insert_ne.
Qed.

Lemma fold_insert_true {K} `{Countable K} (l : list K) (m : gmap K bool) (k : K) (b : bool) :
  fold_left (λ m s, <[s := true]> m) l m !! k = Some b ↔
  (k ∈ l ∧ b = true) ∨ ((k ∉ l) ∧ m !! k = Some b).
Proof.
  rewrite fold_insert_true_lookup. case_decide as Hd; split.
  - intros ?. simplify_eq. by left.
  - intros [[_ ->]|[? _]]; done.
  - intros ?. by right.
  - intros [[? _]|[_ ?]]; done.
Qed.

Lemma elem_of_consecutive (nodes : list NodeID) (s : NodeID * NodeID) :
  s ∈ consecutive nodes ↔ ∃ i : nat, nodes !! i = Some s.1 ∧ nodes !! S i = Some s.2.
Proof.
  unfold consecutive. rewrite list_elem_of_lookup. split.
  - intros (i & Hi). exists i. destruct s as [a b].
    apply lookup_zip_with_Some in Hi as (x & y & ? & Hx & Hy). simplify_eq.
    rewrite lookup_drop in Hy. simpl in *. done.
  - intros (i & H1 & H2). exists i. destruct s as [a b]. simpl in *.
    apply lookup_zip_with_Some. exists a, b. rewrite lookup_drop. done.
Qed.

Lemma elem_of_interior (nodes : list NodeID) (n : NodeID) :
  n ∈ interior nodes ↔ ∃ i : nat, nodes !! S i = Some n ∧ (S (S i) < length nodes)%nat.
Proof.
  unfold interior. rewrite list_elem_of_lookup. split.
  - intros (i & Hi). exists i. rewrite lookup_drop in Hi. simpl in Hi.
    apply lookup_take_Some in Hi as [Hi Hlt]. split; [done|lia].
  - intros (i & Hi & Hlt). exists i. rewrite lookup_drop. simpl.
    apply lookup_take_Some. split; [done|lia].
Qed.

Lemma makeSegments_lookup (edges : gmap (NodeID * NodeID) (list NodeID))
    (segments : gmap (NodeID * NodeID) bool) (s : NodeID * NodeID) :
  makeSegments edges = Some segments →
  segments !! s ≠ Some false ∧
  (segments !! s = Some true ↔
   ∃ e nodes, edges !! e = Some nodes ∧
     (len nodes = 2 ∧ s = e ∨
      2 < len nodes ∧ ∃ i : nat, nodes !! i = Some s.1 ∧ nodes !! S i = Some s.2)).
Proof.
  unfold makeSegments. intros Hrun.
  assert (G : ∀ (l : list ((NodeID * NodeID) * list NodeID))
                 (segs segs' : gmap (NodeID * NodeID) bool),
    foldlM (λ (segments : gmap (NodeID * NodeID) bool) '(e, nodes),
       if len nodes =? 2 then Some (<[e := true]> segments)
       else if len nodes >? 2 then
         Some (fold_left (λ segments s, <[s := true]> segments) (consecutive nodes) segments)
       else None) segs l = Some segs' →
    (segs !! s ≠ Some false → segs' !! s ≠ Some false) ∧
    (segs' !! s = Some true ↔
       segs !! s = Some true ∨
       ∃ e nodes, (e, nodes) ∈ l ∧
         (len nodes = 2 ∧ s = e ∨
          2 < len nodes ∧ ∃ i : nat, nodes !! i = Some s.1 ∧ nodes !! S i = Some s.2))).
  { induction l as [|[e nodes] l IH]; intros segs segs' Hf; simpl in Hf.
    - simplify_eq. split; [done|]. split; [auto|].
      intros [?|(? & ? & []%elem_of_nil & _)]; done.
    - destruct (Z.eqb_spec (len nodes) 2) as [E|E]; simpl in Hf.
      + destruct (IH _ _ Hf) as [Hf1 Hf2]. split.
        * intros Hs. apply Hf1. destruct (decide (e = s)) as [->|Hne].
          -- by rewrite lookup_insert_eq.
          -- by rewrite lookup_insert_ne.
        * rewrite Hf2. destruct (decide (e = s)) as [->|Hne].
          -- rewrite lookup_insert_eq. split; [|by auto].
             intros _. right. exists s, nodes. split; [by left|auto].
          -- rewrite lookup_insert_ne by done. split.
             ++ intros [?|(e' & n' & Hin & Hc)]; [by left|].
                right. exists e', n'. split; [by right|done].
             ++ intros [?|(e' & n' & Hin & Hc)]; [by left|].
                apply elem_of_cons in Hin as [?|Hin]; [|right; eauto].
                simplify_eq. destruct Hc as [[_ ?]|[? _]]; [done|lia].
      + destruct (Z.gtb_spec (len nodes) 2) as [Hgt|Hle]; simpl in Hf; [|done].
        destruct (IH _ _ Hf) as [Hf1 Hf2]. split.
        * intros Hs. apply Hf1. intros Hx.
          apply fold_insert_true in Hx as [[_ ?]|[_ ?]]; done.
        * rewrite Hf2, fold_insert_true, elem_of_consecutive. split.
          -- intros [[[Hc _]|[_ ?]]|(e' & n' & Hin & Hc)].
             ++ right. exists e, nodes. split; [by left|]. right. split; [lia|done].
             ++ by left.
             ++ right. exists e', n'. split; [by right|done].
          -- intros [?|(e' & n' & Hin & Hc)].
             ++ left. destruct (decide (s ∈ consecutive nodes)) as [Hd|Hd].
                ** left. split; [by apply elem_of_consecutive|done].
                ** right. split; [by rewrite <- elem_of_consecutive|done].
             ++ apply elem_of_cons in Hin as [?|Hin]; [|right; eauto].
                simplify_eq. destruct Hc as [[? _]|[_ ?]]; [lia|]. left. left. done. }
  destruct (G _ _ _ Hrun) as [G1 G2]. split.
  - apply G1. by rewrite lookup_empty.
  - rewrite G2, lookup_empty. split.
    + intros [?|(e & nodes & Hin & Hc)]; [done|].
      exists e, nodes. split; [by apply elem_of_map_to_list|done].
    + intros (e & nodes & Hin & Hc). right.
      exists e, nodes. split; [by apply elem_of_map_to_list|done].
Qed.

(** X15: [makeSegments] panics exactly when some chain has fewer than two
    nodes.  Otherwise no entry of its result is [false], and the pair [s]
    is a segment exactly when it is the key of a chain of two nodes or a
    pair of consecutive nodes of a longer chain; for a chain of two nodes
    the segment is the key, not the pair of nodes. *)
Theorem makeSegments_spec (edges : gmap (NodeID * NodeID) (list NodeID)) :
  (is_Some (makeSegments edges) ↔ ∀ e nodes, edges !! e = Some nodes → 2 <= len nodes) ∧
  ∀ segments, makeSegments edges = Some segments →
    ∀ s, segments !! s ≠ Some false ∧
      (segments !! s = Some true ↔
       ∃ e nodes, edges !! e = Some nodes ∧
         (len nodes = 2 ∧ s = e ∨
          2 < len nodes ∧ ∃ i : nat, nodes !! i = Some s.1 ∧ nodes !! S i = Some s.2)).
Proof.
  split; [apply makeSegments_is_Some|].
  intros segments Hrun s. by apply makeSegments_lookup.
Qed.

(** X16: [makeDummy] marks exactly the nodes that lie strictly inside a
    chain, neither first nor last, and stores no [false]. *)
Theorem makeDummy_spec (edges : gmap (NodeID * NodeID) (list NodeID)) (n : NodeID) :
  makeDummy edges !! n ≠ Some false ∧
  (makeDummy edges !! n = Some true ↔
   ∃ e nodes (i : nat), edges !! e = Some nodes ∧ nodes !! S i = Some n ∧
                        (S (S i) < length nodes)%nat).
Proof.
  unfold makeDummy.
  assert (G : ∀ (l : list ((NodeID * NodeID) * list NodeID)) (d : gmap NodeID bool),
    let d' := fold_left (λ (dummy : gmap NodeID bool) '(_, nodes),
       if len nodes >? 2
       then fold_left (λ dummy n, <[n := true]> dummy) (interior nodes) dummy
       else dummy) l d in
    (d !! n ≠ Some false → d' !! n ≠ Some false) ∧
    (d' !! n = Some true ↔
       d !! n = Some true ∨
       ∃ e nodes (i : nat), (e, nodes) ∈ l ∧ nodes !! S i = Some n ∧
                            (S (S i) < length nodes)%nat)).
  { induction l as [|[e nodes] l IH]; intros d; simpl.
    - split; [done|]. split; [auto|].
      intros [?|(? & ? & ? & []%elem_of_nil & _)]; done.
    - match goal with |- context [fold_left _ l ?d0] => destruct (IH d0) as [IH1 IH2] end.
      split.
      + intros Hd. apply IH1. destruct (len nodes >? 2); [|done].
        intros Hx. apply fold_insert_true in Hx as [[_ ?]|[_ ?]]; done.
      + rewrite IH2. destruct (Z.gtb_spec (len nodes) 2) as [Hgt|Hle].
        * rewrite fold_insert_true, elem_of_interior. split.
          -- intros [[[(i & Hi & Hlt) _]|[_ ?]]|(e' & n' & i & Hin & Hc)].
             ++ right. exists e, nodes, i. split; [by left|done].
             ++ by left.
             ++ right. exists e', n', i. split; [by right|done].
          -- intros [?|(e' & n' & i & Hin & Hc)].
             ++ left. destruct (decide (n ∈ interior nodes)) as [Hd|Hd].
                ** left. split; [by apply elem_of_interior|done].
                ** right. split; [by rewrite <- elem_of_interior|done].
             ++ apply elem_of_cons in Hin as [?|Hin]; [|right; eauto 6].
                simplify_eq. left. left. split; [eauto|done].
        * split.
          -- intros [?|(e' & n' & i & Hin & Hc)]; [by left|].
             right. exists e', n', i. split; [by right|done].
          -- intros [?|(e' & n' & i & Hin & Hc & Hlt)]; [by left|].
             apply elem_of_cons in Hin as [?|Hin]; [|right; eauto 6].
             simplify_eq. unfold len in Hle. lia. }
  destruct (G (map_to_list edges) ∅) as [G1 G2]. split.
  - apply G1. by rewrite lookup_empty.
  - rewrite G2, lookup_empty. split.
    + intros [?|(e & nodes & i & Hin & Hc)]; [done|].
      exists e, nodes, i. split; [by apply elem_of_map_to_list|done].
    + intros (e & nodes & i & Hin & Hc). right.
      exists e, nodes, i. split; [by apply elem_of_map_to_list|done].
Qed.



Lemma uint64_succ_nowrap (n : NodeID) :
  Z.of_N n + 1 < 2 ^ 64 → uint64_succ n = (n + 1)%N.
Proof.
  intros Hn. unfold uint64_succ, uint64_modulus. apply N.mod_small.
  assert (Z.of_N (2 ^ 64)%N = 2 ^ 64) by done. lia.
Qed.

Lemma addFakes_spec (n : nat) : ∀ layer yx next ch,
  Z.of_N next + Z.of_nat n < 2 ^ 64 →
  ∃ yx', addFakes n layer yx next ch =
           (yx', (next + N.of_nat n)%N, ch ++ ((λ k, (next + N.of_nat k)%N) <$> seq 0 n)) ∧
    ∀ id, yx' !! id =
      if decide (next <= id < next + N.of_nat n)%N
      then Some {| Layer := layer + Z.of_N (id - next); Order := 0 |}
      else yx !! id.
Proof.
  induction n as [|n IH]; intros layer yx next ch Hn; simpl.
  - exists yx. split; [by rewrite N.add_0_r, app_nil_r|].
    intros id. rewrite decide_False by lia. done.
  - rewrite uint64_succ_nowrap by lia.
    destruct (IH (layer + 1) (<[next := {| Layer := layer; Order := 0 |}]> yx)
                (next + 1)%N (ch ++ [next])) as (yx' & -> & Hyx); [lia|].
    exists yx'. split.
    + f_equal; [f_equal; lia|]. rewrite <- app_assoc. simpl. f_equal.
      rewrite N.add_0_r. f_equal. rewrite <- fmap_S_seq, <- list_fmap_compose.
      apply list_fmap_ext. intros _ k _. simpl. lia.
    + intros id. rewrite Hyx. destruct (decide (next + 1 <= id < next + 1 + N.of_nat n)%N).
      * rewrite decide_True by lia. f_equal. f_equal. lia.
      * destruct (decide (id = next)) as [->|Hne].
        -- rewrite lookup_insert_eq, decide_True by lia. f_equal. f_equal. lia.
        -- rewrite lookup_insert_ne by done. rewrite decide_False by lia. done.
Qed.



Lemma makeEdge_nowrap (nodeYX0 : gmap NodeID LayerPosition) (M : NodeID)
    (st : EdgesState) (e : NodeID * NodeID) :
  (e.1 <= M)%N → (e.2 <= M)%N → (M < es_next st)%N →
  (∀ id, (id <= M)%N → es_nodeYX st !! id = nodeYX0 !! id) →
  Z.of_N (es_next st) + Z.max 0 (gap nodeYX0 e - 1) < 2 ^ 64 →
  let n := Z.to_nat (Z.max 0 (gap nodeYX0 e - 1)) in
  let chain := e.1 :: fakeIds (es_next st) n ++ [e.2] in
  es_next (makeEdge st e) = (es_next st + N.of_nat n)%N ∧
  es_edges (makeEdge st e) = <[e := chain]> (es_edges st) ∧
  (∀ id, (id < es_next st)%N → es_nodeYX (makeEdge st e) !! id = es_nodeYX st !! id) ∧
  (1 <= gap nodeYX0 e → unit_chain (es_nodeYX (makeEdge st e)) chain).
Proof.
  intros H1 H2 HM Hagree Hwrap n chain.
  assert (Hfrom : lookupP (es_nodeYX st) e.1 = lookupP nodeYX0 e.1)
    by (unfold lookupP; by rewrite Hagree).
  assert (Hto : lookupP (es_nodeYX st) e.2 = lookupP nodeYX0 e.2)
    by (unfold lookupP; by rewrite Hagree).
  unfold makeEdge. rewrite Hfrom, Hto. fold (gap nodeYX0 e).
  destruct (Z.gtb_spec (gap nodeYX0 e) 1) as [Hg|Hg].
  - replace (Z.to_nat (Layer (lookupP nodeYX0 e.2) - (Layer (lookupP nodeYX0 e.1) + 1)))
      with n by (unfold n, gap; lia).
    destruct (addFakes_spec n (Layer (lookupP nodeYX0 e.1) + 1) (es_nodeYX st)
                (es_next st) [e.1]) as (yx' & -> & Hyx); [unfold n; lia|].
    simpl. split_and!; [done|done| |].
    + intros id Hid. rewrite Hyx, decide_False by lia. done.
    + intros _.
      assert (Hlayer : ∀ (j : nat) a, chain !! j = Some a →
                Layer (lookupP yx' a) = Layer (lookupP nodeYX0 e.1) + Z.of_nat j).
      { intros j a Hj. unfold chain in Hj. destruct j as [|j]; simpl in Hj.
        - simplify_eq. unfold lookupP at 1. rewrite Hyx, decide_False by lia.
          rewrite Hagree by done. fold (lookupP nodeYX0 e.1). lia.
        - apply lookup_app_Some in Hj as [Hj|[Hlen Hj]].
          + unfold fakeIds in Hj. apply list_lookup_fmap_Some in Hj as (k & -> & Hk).
            apply lookup_seq in Hk as [-> Hk]. simpl.
            unfold lookupP at 1. rewrite Hyx, decide_True by lia. simpl. lia.
          + unfold fakeIds in *. rewrite length_fmap, length_seq in *.
            destruct (j - n)%nat eqn:E; simpl in Hj; [|done]. simplify_eq.
            assert (j = n) as -> by lia.
            unfold lookupP at 1. rewrite Hyx, decide_False by lia.
            rewrite Hagree by done. fold (lookupP nodeYX0 e.2).
            unfold n, gap in *. lia. }
      intros i a b Ha Hb. rewrite (Hlayer _ _ Ha), (Hlayer _ _ Hb). lia.
  - assert (n = 0%nat) as Hn by (unfold n; lia). unfold chain. rewrite Hn. simpl.
    split_and!; [by rewrite N.add_0_r|done|done|].
    intros Hg1 i a b Ha Hb. destruct i as [|[|i]]; simplify_eq/=.
    rewrite Hfrom, Hto. unfold gap in *. lia.
Qed.

Lemma maxNodeID_ge (es : list (NodeID * NodeID)) (e : NodeID * NodeID) :
  e ∈ es → (e.1 <= maxNodeID es)%N ∧ (e.2 <= maxNodeID es)%N.
Proof.
  unfold maxNodeID.
  set (step := λ (m : N) (e : NodeID * NodeID),
       let m := if (m <? e.1)%N then e.1 else m in
       if (m <? e.2)%N then e.2 else m).
  assert (Hstep : ∀ m e, (m <= step m e ∧ e.1 <= step m e ∧ e.2 <= step m e)%N).
  { intros m e'. unfold step.
    destruct (N.ltb_spec m e'.1); [destruct (N.ltb_spec e'.1 e'.2)|destruct (N.ltb_spec m e'.2)];
      lia. }
  assert (Hmono : ∀ l m, (m <= fold_left step l m)%N).
  { induction l as [|x l IH]; intros m; simpl; [lia|].
    specialize (IH (step m x)). pose proof (Hstep m x). lia. }
  assert (G : ∀ l m, e ∈ l → (e.1 <= fold_left step l m ∧ e.2 <= fold_left step l m)%N).
  { induction l as [|x l IH]; intros m Hin; simpl.
    - by apply elem_of_nil in Hin.
    - apply elem_of_cons in Hin as [->|Hin]; [|by apply IH].
      pose proof (Hstep m x). pose proof (Hmono l (step m x)). lia. }
  apply G.
Qed.

Lemma dummyCount_nonneg (nodeYX : gmap NodeID LayerPosition) (es : list (NodeID * NodeID)) :
  0 <= dummyCount nodeYX es.
Proof. induction es as [|e es IH]; simpl; lia. Qed.


Lemma makeEdges_fold_nowrap (nodeYX0 : gmap NodeID LayerPosition) (M : NodeID)
    (l : list (NodeID * NodeID)) : ∀ st,
  (∀ e, e ∈ l → (e.1 <= M)%N ∧ (e.2 <= M)%N) →
  (M < es_next st)%N →
  (∀ id, (id <= M)%N → es_nodeYX st !! id = nodeYX0 !! id) →
  Z.of_N (es_next st) + dummyCount nodeYX0 l < 2 ^ 64 →
  (∀ e nodes, es_edges st !! e = Some nodes → good_chain nodeYX0 M st e nodes) →
  let st' := fold_left makeEdge l st in
  Z.of_N (es_next st') = Z.of_N (es_next st) + dummyCount nodeYX0 l ∧
  (∀ id, (id <= M)%N → es_nodeYX st' !! id = nodeYX0 !! id) ∧
  (∀ e nodes, es_edges st' !! e = Some nodes → good_chain nodeYX0 M st' e nodes).
Proof.
  induction l as [|e l IH]; intros st Hl HM Hagree Hwrap Hgood; simpl.
  - split_and!; [lia|done|done].
  - simpl in Hwrap. pose proof (dummyCount_nonneg nodeYX0 l) as Hd.
    destruct (Hl e) as [He1 He2]; [by left|].
    destruct (makeEdge_nowrap nodeYX0 M st e He1 He2 HM Hagree) as (Hn & He & Hyx & Hunit);
      [lia|].
    set (n := Z.to_nat (Z.max 0 (gap nodeYX0 e - 1))) in *.
    destruct (IH (makeEdge st e)) as (I1 & I2 & I3).
    + intros e' ?. apply Hl. by right.
    + rewrite Hn. lia.
    + intros id Hid. rewrite Hyx by lia. by apply Hagree.
    + rewrite Hn. lia.
    + intros e' nodes. rewrite He. intros [[<- <-]|[_ Hold]]%lookup_insert_Some.
      * split; [done|]. split; [done|]. exists (fakeIds (es_next st) n). split_and!.
        -- done.
        -- unfold len, fakeIds. rewrite length_fmap, length_seq. unfold n. lia.
        -- intros x (k & -> & Hk)%list_elem_of_fmap. apply elem_of_seq in Hk.
           rewrite Hn. lia.
        -- done.
      * destruct (Hgood e' nodes Hold) as (G1 & G2 & fakes & -> & G3 & G4 & G5).
        split; [done|]. split; [done|]. exists fakes. split_and!; [done|done| |].
        -- intros x Hx. specialize (G4 x Hx). rewrite Hn. lia.
        -- intros Hg i a b Ha Hb.
           assert (Hlt : ∀ (j : nat) c, (e'.1 :: fakes ++ [e'.2]) !! j = Some c →
                           (c < es_next st)%N).
           { intros j c Hc. apply list_elem_of_lookup_2 in Hc.
             apply elem_of_cons in Hc as [->|Hc]; [lia|].
             apply elem_of_app in Hc as [Hc|Hc]; [specialize (G4 c Hc); lia|].
             apply list_elem_of_singleton in Hc as ->. lia. }
           unfold lookupP. rewrite !Hyx by eauto. by apply (G5 Hg i).
    + split_and!; [rewrite I1, Hn; unfold n; lia|done|done].
Qed.


(** ** Layer assignment *)

Lemma fromNodeToNodes_children (es : list (NodeID * NodeID)) (p c : NodeID) :
  c ∈ lookupL (fromNodeToNodes es) p ↔ (p, c) ∈ es.
Proof.
  unfold fromNodeToNodes.
  assert (G : ∀ (m : gmap NodeID (list NodeID)),
    c ∈ lookupL (fold_left (λ m e, <[e.1 := lookupL m e.1 ++ [e.2]]> m) es m) p ↔
    c ∈ lookupL m p ∨ (p, c) ∈ es).
  { induction es as [|[a b] es IH]; intros m; simpl.
    - rewrite elem_of_nil. tauto.
    - rewrite IH, elem_of_cons. unfold lookupL at 1. simpl.
      destruct (decide (a = p)) as [->|Hne].
      + rewrite lookup_insert_eq. simpl. rewrite elem_of_app, list_elem_of_singleton.
        split.
        * intros [[?|?]|?]; [by left|subst; by right; left|by right; right].
        * intros [?|[?|?]]; [by left; left|simplify_eq; by left; right|by right].
      + rewrite lookup_insert_ne by done. fold (lookupL m p). split.
        * intros [?|?]; [by left|by right; right].
        * intros [?|[?|?]]; [by left|simplify_eq|by right]. }
  rewrite G. unfold lookupL. rewrite lookup_empty. simpl. rewrite elem_of_nil. tauto.
Qed.

Lemma fromNodeToNodes_length (es : list (NodeID * NodeID)) (p : NodeID) :
  (length (lookupL (fromNodeToNodes es) p) <= length es)%nat.
Proof.
  unfold fromNodeToNodes.
  assert (G : ∀ (m : gmap NodeID (list NodeID)),
    (length (lookupL (fold_left (λ m e, <[e.1 := lookupL m e.1 ++ [e.2]]> m) es m) p)
     <= length (lookupL m p) + length es)%nat).
  { induction es as [|[a b] es IH]; intros m; simpl; [lia|].
    etrans; [apply IH|]. unfold lookupL at 1. simpl.
    destruct (decide (a = p)) as [->|Hne].
    - rewrite lookup_insert_eq. simpl. rewrite length_app. simpl. lia.
    - rewrite lookup_insert_ne by done. fold (lookupL m p). lia. }
  etrans; [apply G|]. unfold lookupL. rewrite lookup_empty. simpl. lia.
Qed.


Lemma relax_spec (yx : gmap NodeID LayerPosition) (p c : NodeID) :
  0 <= layerOf yx p →
  let yx' := relax yx p c in
  (∀ n, n ≠ c → yx' !! n = yx !! n) ∧
  is_Some (yx' !! c) ∧
  layerOf yx c <= layerOf yx' c ∧
  layerOf yx p + 1 <= layerOf yx' c ∧
  (yx' !! c = yx !! c ∨ yx' !! c = Some {| Layer := layerOf yx p + 1; Order := 0 |}).
Proof.
  intros Hp. unfold relax. destruct (Z.gtb_spec (layerOf yx p + 1) (layerOf yx c)) as [Hgt|Hle]; simpl.
  - split_and!.
    + intros n Hn. by rewrite lookup_insert_ne.
    + rewrite lookup_insert_eq. eauto.
    + unfold lookupP at 2. rewrite lookup_insert_eq. simpl. lia.
    + unfold lookupP at 2. rewrite lookup_insert_eq. simpl. lia.
    + right. by rewrite lookup_insert_eq.
  - split_and!; [done| |lia|lia|by left].
    unfold lookupP in Hle at 2. destruct (yx !! c) eqn:E; [eauto|]. simpl in Hle. lia.
Qed.

Section levels.
Variable es : list (NodeID * NodeID).


Lemma layerOf_nonneg R yx que pend n :
  levels_inv es R yx que pend → 0 <= layerOf yx n.
Proof.
  intros Hinv. unfold lookupP. destruct (yx !! n) as [pos|] eqn:E; simpl; [|done].
  by apply (inv_pos _ _ _ _ _ Hinv n).
Qed.

Lemma relax_children (R : list NodeID) (p : NodeID) (l : list NodeID) :
  ∀ yx que,
  (∀ c, c ∈ l → (p, c) ∈ es) →
  is_Some (yx !! p) →
  levels_inv es R yx que (λ u v, u = p ∧ v ∈ l) →
  levels_inv es R (fold_left (λ yx child, relax yx p child) l yx) (que ++ l) (λ _ _, False).
Proof.
  induction l as [|c l IH]; intros yx que Hl Hp Hinv; simpl.
  - rewrite app_nil_r. destruct Hinv as [H0 H1 H2 H4 H5]. split; try done.
    intros u v Huv Hu. destruct (H2 u v Huv Hu) as [?|[[_ []%elem_of_nil]|?]]; auto.
  - replace (que ++ c :: l) with ((que ++ [c]) ++ l) by (by rewrite <- app_assoc).
    pose proof (layerOf_nonneg _ _ _ _ p Hinv) as Hp0.
    destruct (relax_spec yx p c Hp0) as (Hother & Hc & Hmono & Hstep & Hval).
    set (yx1 := relax yx p c) in *.
    assert (Hdom : ∀ n, is_Some (yx !! n) → is_Some (yx1 !! n)).
    { intros n Hn. destruct (decide (n = c)) as [->|Hne]; [done|]. by rewrite Hother. }
    assert (Hlayer : ∀ n, layerOf yx n <= layerOf yx1 n).
    { intros n. destruct (decide (n = c)) as [->|Hne]; [done|].
      unfold lookupP. rewrite Hother by done. lia. }
    destruct Hinv as [H0 H1 H2 H4 H5].
    apply IH; [intros; apply Hl; by right|by apply Hdom|]. split.
    + intros n [Hn|Hn]%elem_of_app; [by apply Hdom, H0|].
      by apply list_elem_of_singleton in Hn as ->.
    + intros n pos Hn. destruct (decide (n = c)) as [->|Hne].
      * destruct Hval as [Hv|Hv]; rewrite Hv in Hn; [by eapply H1|].
        simplify_eq. simpl. split; [lia|done].
      * rewrite Hother in Hn by done. by eapply H1.
    + intros u v Huv Hu. destruct (decide (u = c)) as [->|Hne].
      { left. apply elem_of_app. right. by apply list_elem_of_singleton. }
      rewrite Hother in Hu by done.
      destruct (H2 u v Huv Hu) as [Hq|[[-> Hv]|[Hv Hle]]].
      * left. apply elem_of_app. by left.
      * apply elem_of_cons in Hv as [->|Hv]; [|by right; left].
        right. right. split; [done|].
        assert (layerOf yx1 p = layerOf yx p) as ->; [|done].
        unfold lookupP. by rewrite Hother.
      * right. right. split; [by apply Hdom|].
        assert (layerOf yx1 u = layerOf yx u) as ->.
        { unfold lookupP. by rewrite Hother. }
        specialize (Hlayer v). lia.
    + intros n pos Hn. destruct (decide (n = c)) as [->|Hne].
      * destruct Hval as [Hv|Hv]; rewrite Hv in Hn; [by eapply H4|].
        simplify_eq. simpl. destruct Hp as [pp Hpp].
        destruct (H4 p pp Hpp) as (r & Hr & Hpath). exists r. split; [done|].
        unfold lookupP. rewrite Hpp. simpl.
        destruct (H1 p pp Hpp) as [Hpp0 _].
        replace (Z.to_nat (Layer pp + 1)) with (S (Z.to_nat (Layer pp))) by lia.
        eapply path_step; [done|]. apply Hl. by left.
      * rewrite Hother in Hn by done. by eapply H4.
    + intros r Hr. by apply Hdom, H5.
Qed.

Lemma levelsFrom_inv (R : list NodeID) (fuel : nat) :
  ∀ yx que yx',
  levels_inv es R yx que (λ _ _, False) →
  levelsFrom fuel (fromNodeToNodes es) yx que = Some yx' →
  levels_inv es R yx' [] (λ _ _, False).
Proof.
  induction fuel as [|fuel IH]; intros yx que yx' Hinv Hrun.
  - destruct que; simpl in Hrun; by simplify_eq.
  - destruct que as [|p que]; simpl in Hrun; [by simplify_eq|].
    eapply IH; [|exact Hrun].
    apply relax_children.
    + intros c. apply fromNodeToNodes_children.
    + apply (inv_que _ _ _ _ _ Hinv). by left.
    + destruct Hinv as [H0 H1 H2 H4 H5]. split; try done.
      * intros n Hn. apply H0. by right.
      * intros u v Huv Hu. destruct (H2 u v Huv Hu) as [Hq|[[]|?]]; [|by right; right].
        apply elem_of_cons in Hq as [->|Hq]; [|by left].
        right. left. split; [done|]. by apply fromNodeToNodes_children.
Qed.

Lemma roots_loop_inv (fuel : nat) (roots : list NodeID) :
  ∀ R yx yx',
  (∀ r u, r ∈ roots → (u, r) ∉ es) →
  levels_inv es R yx [] (λ _ _, False) →
  foldlM (λ nodeYX root,
            levelsFrom fuel (fromNodeToNodes es) (<[root := zeroPosition]> nodeYX) [root])
         yx roots = Some yx' →
  levels_inv es (R ++ roots) yx' [] (λ _ _, False).
Proof.
  induction roots as [|r roots IH]; intros R yx yx' Hroots Hinv Hrun; simpl in Hrun.
  - simplify_eq. by rewrite app_nil_r.
  - destruct (levelsFrom _ _ _ _) as [yx1|] eqn:Hq; [|done]. simpl in Hrun.
    replace (R ++ r :: roots) with ((R ++ [r]) ++ roots) by (by rewrite <- app_assoc).
    eapply IH; [intros; apply Hroots; by right| |exact Hrun].
    eapply levelsFrom_inv; [|exact Hq].
    destruct Hinv as [H0 H1 H2 H4 H5]. split.
    + intros n ->%list_elem_of_singleton. rewrite lookup_insert_eq. eauto.
    + intros n pos. rewrite lookup_insert_Some. intros [[_ <-]|[_ Hn]]; [done|by eapply H1].
    + intros u v Huv Hu. destruct (decide (u = r)) as [->|Hne].
      { left. by apply list_elem_of_singleton. }
      rewrite lookup_insert_ne in Hu by done.
      destruct (H2 u v Huv Hu) as [[]%elem_of_nil|[[]|[Hv Hle]]].
      assert (v ≠ r) by (intros ->; eapply Hroots; [by left|done]).
      right. right. unfold lookupP. rewrite !lookup_insert_ne by done. done.
    + intros n pos. rewrite lookup_insert_Some. intros [[<- <-]|[_ Hn]].
      * exists r. split; [apply elem_of_app; right; by apply list_elem_of_singleton|].
        simpl. constructor.
      * destruct (H4 n pos Hn) as (r' & Hr' & Hpath). exists r'.
        split; [apply elem_of_app; by left|done].
    + intros r' [Hr'|Hr']%elem_of_app.
      * apply lookup_insert_is_Some'. right. by apply H5.
      * apply list_elem_of_singleton in Hr' as ->. rewrite lookup_insert_eq. eauto.
Qed.

Lemma Roots_no_parent (ns : list NodeID) (r u : NodeID) :
  r ∈ Roots es ns → (u, r) ∉ es.
Proof.
  rewrite Roots_filter, list_elem_of_filter. intros [Hnp _] Hin.
  assert (lookupB (hasParent es) r = true); [|congruence].
  apply hasParent_true. by exists (u, r).
Qed.

Lemma assignLevels_inv (fuel : nat) (ns : list NodeID) (yx : gmap NodeID LayerPosition) :
  assignLevels fuel es ns = Some yx →
  levels_inv es (Roots es ns) yx [] (λ _ _, False).
Proof.
  unfold assignLevels. intros Hrun.
  apply (roots_loop_inv fuel (Roots es ns) [] ∅ yx); [|split|done].
  - intros r u. apply Roots_no_parent.
  - by intros n []%elem_of_nil.
  - intros n pos. by rewrite lookup_empty.
  - intros u v _ [? Hu]. by rewrite lookup_empty in Hu.
  - intros n pos. by rewrite lookup_empty.
  - by intros n []%elem_of_nil.
Qed.

Lemma levels_inv_longest (R : list NodeID) (yx : gmap NodeID LayerPosition)
    (r v : NodeID) (k : nat) :
  levels_inv es R yx [] (λ _ _, False) → r ∈ R → path es r v k →
  is_Some (yx !! v) ∧ Z.of_nat k <= layerOf yx v.
Proof.
  intros Hinv Hr Hpath. induction Hpath as [|v w k Hpath [IHs IHl] Hvw].
  - split; [by apply (inv_root _ _ _ _ _ Hinv)|]. by eapply layerOf_nonneg.
  - destruct (inv_edge _ _ _ _ _ Hinv v w Hvw IHs) as [[]%elem_of_nil|[[]|[Hw Hle]]].
    split; [done|lia].
Qed.
End levels.

(** X18: when [assignLevels] returns, it has positioned exactly the nodes
    that can be reached from a root, each with order 0 and with the length
    of the longest walk from a root as its layer; so every edge that leaves
    a positioned node ends at least one layer further down. *)
Theorem assignLevels_longest_path (fuel : nat) (es : list (NodeID * NodeID))
    (ns : list NodeID) (nodeYX : gmap NodeID LayerPosition)
    (Hrun : assignLevels fuel es ns = Some nodeYX) :
  (∀ v, is_Some (nodeYX !! v) ↔ ∃ r k, r ∈ Roots es ns ∧ path es r v k) ∧
  (∀ v pos, nodeYX !! v = Some pos →
     Order pos = 0 ∧ 0 <= Layer pos ∧
     (∃ r, r ∈ Roots es ns ∧ path es r v (Z.to_nat (Layer pos))) ∧
     (∀ r k, r ∈ Roots es ns → path es r v k → Z.of_nat k <= Layer pos)) ∧
  (∀ u v, (u, v) ∈ es → is_Some (nodeYX !! u) →
     is_Some (nodeYX !! v) ∧ layerOf nodeYX u + 1 <= layerOf nodeYX v).
Proof.
  apply assignLevels_inv in Hrun as Hinv. split_and!.
  - intros v. split.
    + intros [pos Hv]. destruct (inv_path _ _ _ _ _ Hinv v pos Hv) as (r & Hr & Hp). eauto.
    + intros (r & k & Hr & Hp). by destruct (levels_inv_longest es _ _ r v k Hinv Hr Hp).
  - intros v pos Hv. destruct (inv_pos _ _ _ _ _ Hinv v pos Hv) as [H0 HO].
    split_and!; [done|done|by eapply inv_path|].
    intros r k Hr Hp. destruct (levels_inv_longest es _ _ r v k Hinv Hr Hp) as [_ Hle].
    unfold lookupP in Hle. by rewrite Hv in Hle.
  - intros u v Huv Hu.
    by destruct (inv_edge _ _ _ _ _ Hinv u v Huv Hu) as [[]%elem_of_nil|[[]|?]].
Qed.

Lemma path_app (es : list (NodeID * NodeID)) (u v w : NodeID) (a b : nat) :
  path es u v a → path es v w b → path es u w (a + b).
Proof.
  intros Hu Hv. induction Hv as [|x y k Hv IH Hxy].
  - by rewrite Nat.add_0_r.
  - rewrite Nat.add_succ_r. by eapply path_step.
Qed.

Lemma path_cycle (es : list (NodeID * NodeID)) (v : NodeID) (j m : nat) :
  path es v v (S j) → path es v v (m * S j).
Proof.
  intros Hc. induction m as [|m IH]; [constructor|].
  replace (S m * S j)%nat with (m * S j + S j)%nat by lia.
  by apply (path_app es v v v).
Qed.

(** X19: when a cycle can be reached from a root, [assignLevels] never
    returns: the queue loop does not end, whatever the fuel. *)
Theorem assignLevels_cycle_diverges (es : list (NodeID * NodeID)) (ns : list NodeID)
    (r v : NodeID) (k j : nat)
    (Hr : r ∈ Roots es ns) (Hreach : path es r v k) (Hcycle : path es v v (S j)) :
  ∀ fuel, assignLevels fuel es ns = None.
Proof.
  intros fuel. destruct (assignLevels fuel es ns) as [yx|] eqn:Hrun; [|done]. exfalso.
  apply assignLevels_inv in Hrun.
  set (m := S (Z.to_nat (layerOf yx v))).
  pose proof (path_app es r v v k (m * S j) Hreach (path_cycle es v j m Hcycle)) as Hlong.
  destruct (levels_inv_longest es _ _ r v _ Hrun Hr Hlong) as [_ Hle].
  pose proof (layerOf_nonneg es _ _ _ _ v Hrun). unfold m in *. nia.
Qed.

Section termination.
Variable es : list (NodeID * NodeID).
Variable rank : NodeID → nat.
Hypothesis Hrank : Forall (λ e, (rank e.2 < rank e.1)%nat) es.


Lemma rounds_pos (p : NodeID) : (1 <= rounds es rank p)%nat.
Proof. unfold rounds. pose proof (Nat.pow_nonzero (S (length es)) (rank p)). lia. Qed.

Lemma rounds_children (p : NodeID) :
  (sum_list_with (rounds es rank) (lookupL (fromNodeToNodes es) p) < rounds es rank p)%nat.
Proof.
  pose proof (fromNodeToNodes_length es p) as Hlen.
  assert (Hc : ∀ c, c ∈ lookupL (fromNodeToNodes es) p → (rank c < rank p)%nat).
  { intros c Hin%fromNodeToNodes_children.
    by apply (proj1 (Forall_forall _ _) Hrank (p, c)). }
  revert Hlen Hc. generalize (lookupL (fromNodeToNodes es) p). intros l Hlen Hc.
  assert (Hsum : (sum_list_with (rounds es rank) l * S (length es) <= length l * rounds es rank p)%nat).
  { induction l as [|c l IH]; [simpl; lia|].
    assert (Hcp : (rounds es rank c * S (length es) <= rounds es rank p)%nat).
    { unfold rounds. specialize (Hc c (ltac:(by left))).
      replace (rank p) with (S (rank c) + (rank p - S (rank c)))%nat by lia.
      rewrite Nat.pow_add_r, Nat.pow_succ_r'.
      pose proof (Nat.pow_nonzero (S (length es)) (rank p - S (rank c))). nia. }
    assert (sum_list_with (rounds es rank) l * S (length es) <= length l * rounds es rank p)%nat.
    { apply IH; [simpl in Hlen; lia|]. intros c' ?. apply Hc. by right. }
    cbn [sum_list_with length].
    rewrite Nat.mul_add_distr_r. change (S (length l) * rounds es rank p)%nat
      with (rounds es rank p + length l * rounds es rank p)%nat.
    apply Nat.add_le_mono; [exact Hcp|exact H]. }
  pose proof (rounds_pos p). nia.
Qed.

Lemma levelsFrom_enough (fuel : nat) : ∀ que yx,
  (sum_list_with (rounds es rank) que <= fuel)%nat →
  is_Some (levelsFrom fuel (fromNodeToNodes es) yx que).
Proof.
  induction fuel as [|fuel IH]; intros que yx Hsum.
  - destruct que as [|p que]; simpl; [eauto|].
    simpl in Hsum. pose proof (rounds_pos p). lia.
  - destruct que as [|p que]; simpl; [eauto|].
    apply IH. rewrite sum_list_with_app. simpl in Hsum.
    pose proof (rounds_children p). lia.
Qed.

Lemma levelsFrom_fuel_mono (fuel fuel' : nat) neighbors : ∀ que yx r,
  levelsFrom fuel neighbors yx que = Some r → (fuel <= fuel')%nat →
  levelsFrom fuel' neighbors yx que = Some r.
Proof.
  revert fuel'. induction fuel as [|fuel IH]; intros fuel' que yx r Hrun Hle.
  - destruct que; simpl in Hrun; [|done]. simplify_eq. by destruct fuel'.
  - destruct que as [|p que]; simpl in Hrun.
    + simplify_eq. by destruct fuel'.
    + destruct fuel' as [|fuel']; [lia|]. simpl. apply IH; [done|lia].
Qed.

Lemma assignLevels_enough (ns : list NodeID) (fuel : nat) :
  (sum_list_with (rounds es rank) (Roots es ns) <= fuel)%nat →
  is_Some (assignLevels fuel es ns).
Proof.
  unfold assignLevels. generalize (Roots es ns) (∅ : gmap NodeID LayerPosition).
  intros roots. induction roots as [|r roots IH]; intros yx Hsum; simpl; [eauto|].
  simpl in Hsum.
  destruct (levelsFrom_enough fuel [r] (<[r := zeroPosition]> yx)) as [yx1 ->];
    [simpl; lia|].
  simpl. apply IH. lia.
Qed.
End termination.

Lemma assignLevels_fuel_mono (es : list (NodeID * NodeID)) (ns : list NodeID)
    (fuel fuel' : nat) (yx : gmap NodeID LayerPosition) :
  assignLevels fuel es ns = Some yx → (fuel <= fuel')%nat →
  assignLevels fuel' es ns = Some yx.
Proof.
  unfold assignLevels. generalize (Roots es ns) (∅ : gmap NodeID LayerPosition).
  intros roots. induction roots as [|r roots IH]; intros yx0 Hrun Hle; simpl in *; [done|].
  destruct (levelsFrom fuel _ _ _) as [yx1|] eqn:Hq; [|done]. simpl in Hrun.
  rewrite (levelsFrom_fuel_mono fuel fuel' _ _ _ _ Hq Hle). simpl. by apply IH.
Qed.

(** X20: on an acyclic graph, given by a rank that decreases along every
    edge, [assignLevels] returns, and with the same result for every
    larger fuel. *)
Theorem assignLevels_terminates (es : list (NodeID * NodeID)) (ns : list NodeID)
    (rank : NodeID → nat)
    (Hrank : Forall (λ e, (rank e.2 < rank e.1)%nat) es) :
  ∃ fuel0 nodeYX, ∀ fuel, (fuel0 <= fuel)%nat → assignLevels fuel es ns = Some nodeYX.
Proof.
  set (fuel0 := sum_list_with (rounds es rank) (Roots es ns)).
  destruct (assignLevels_enough es rank Hrank ns fuel0) as [yx Hyx]; [done|].
  exists fuel0, yx. intros fuel Hle. by eapply assignLevels_fuel_mono.
Qed.

Lemma SwitchAdjacentOptimize_permutes segments layers y downUp layers' :
  SwitchAdjacentOptimize segments layers y downUp = Some layers' →
  Forall2 (≡ₚ) layers layers'.
Proof.
  unfold SwitchAdjacentOptimize. intros Hrun.
  destruct (index layers y) as [layer|] eqn:Hl; [|done]. simpl in Hrun.
  destruct (len layer <? 2); [simplify_eq; apply Forall2_Permutation_refl|].
  destruct (downUp && (y =? len layers - 1)); [simplify_eq; apply Forall2_Permutation_refl|].
  destruct (negb downUp && (y =? 0)); [simplify_eq; apply Forall2_Permutation_refl|].
  destruct (index layers (if downUp then y + 1 else y - 1)) as [fixed|]; [|done].
  simpl in Hrun.
  destruct (foldlM _ _ _) as [layer'|] eqn:Hf; [|done]. simpl in Hrun. simplify_eq.
  apply switchLoop_perm in Hf.
  unfold index in Hl. destruct (Z.ltb_spec y 0); [done|].
  apply Forall2_same_length_lookup_2; [by rewrite length_insert|].
  intros i a b Ha Hb. destruct (decide (i = Z.to_nat y)) as [->|Hne].
  - rewrite list_lookup_insert_eq in Hb by (by eapply lookup_lt_Some). by simplify_eq.
  - rewrite list_lookup_insert_ne in Hb by done. by simplify_eq.
Qed.

Lemma Warfield_keeps_best_witness :
  let st0 := {| ws_layers := [[1%N; 2%N]; [3%N; 4%N]]; ws_bestN := -1;
                ws_bestLayers := [[1%N; 2%N]; [3%N; 4%N]] |} in
  ∃ st', @epochs SwitchAdjacentOrderingOptimizer 2 0 crossed st0 = Some st' ∧
    numCrossings crossed (ws_bestLayers st') = Some (ws_bestN st') ∧
    (0 <= ws_bestN st0 → ws_bestN st' <= ws_bestN st0) ∧
    ∃ N, numCrossings crossed (ws_layers st') = Some N ∧ 0 <= ws_bestN st' <= N.
Proof.
  eexists. split; [vm_compute; reflexivity|].
  apply (@Warfield_keeps_best SwitchAdjacentOrderingOptimizer crossed) with (n := 1%nat) (t := 0).
  - intros segments layers idx downUp layers'. apply SwitchAdjacentOptimize_permutes.
  - apply Forall2_Permutation_refl.
  - left. simpl. lia.
  - vm_compute. reflexivity.
Defined.


Lemma assignLevels_longest_path_witness :
  let ns := [1%N; 2%N; 3%N; 4%N] in
  ∃ nodeYX, assignLevels 10 triangle_edges ns = Some nodeYX ∧
  (∀ v, is_Some (nodeYX !! v) ↔ ∃ r k, r ∈ Roots triangle_edges ns ∧ path triangle_edges r v k) ∧
  (∀ v pos, nodeYX !! v = Some pos →
     Order pos = 0 ∧ 0 <= Layer pos ∧
     (∃ r, r ∈ Roots triangle_edges ns ∧ path triangle_edges r v (Z.to_nat (Layer pos))) ∧
     (∀ r k, r ∈ Roots triangle_edges ns → path triangle_edges r v k →
             Z.of_nat k <= Layer pos)) ∧
  (∀ u v, (u, v) ∈ triangle_edges → is_Some (nodeYX !! u) →
     is_Some (nodeYX !! v) ∧ layerOf nodeYX u + 1 <= layerOf nodeYX v).
Proof.
  eexists. split; [vm_compute; reflexivity|].
  apply (assignLevels_longest_path 10). vm_compute. reflexivity.
Defined.

Lemma assignLevels_cycle_diverges_witness :
  Roots lasso_edges [1%N; 2%N; 3%N] = [1%N] ∧
  ∀ fuel, assignLevels fuel lasso_edges [1%N; 2%N; 3%N] = None.
Proof.
  split; [reflexivity|].
  apply (assignLevels_cycle_diverges lasso_edges [1%N; 2%N; 3%N] 1%N 2%N 1 1).
  - vm_compute. left.
  - eapply path_step; [apply path_nil|]. unfold lasso_edges. left.
  - eapply path_step; [eapply path_step; [apply path_nil|]|]; unfold lasso_edges.
    + right. left.
    + right. right. left.
Defined.

Lemma assignLevels_terminates_witness :
  ∃ fuel0 nodeYX, ∀ fuel, (fuel0 <= fuel)%nat →
    assignLevels fuel triangle_edges [1%N; 2%N; 3%N; 4%N] = Some nodeYX.
Proof.
  apply (assignLevels_terminates triangle_edges [1%N; 2%N; 3%N; 4%N]
           (λ n, N.to_nat (3 - n))).
  unfold triangle_edges. repeat constructor; simpl; lia.
Defined.

(** ** The layered graph of an acyclic graph *)

Lemma path_rank (es : list (NodeID * NodeID)) (rank : NodeID → nat) (r v : NodeID) (k : nat) :
  Forall (λ e, (rank e.2 < rank e.1)%nat) es →
  path es r v k → (rank v + k <= rank r)%nat.
Proof.
  intros Hrank Hp. induction Hp as [|v w k Hp IH Hvw]; [lia|].
  pose proof (proj1 (Forall_forall _ _) Hrank (v, w) Hvw) as Hlt. simpl in Hlt. lia.
Qed.

Lemma Roots_elem_of (es : list (NodeID * NodeID)) (ns : list NodeID) (n : NodeID) :
  n ∈ Roots es ns ↔ n ∈ ns ∧ ∀ u, (u, n) ∉ es.
Proof.
  rewrite Roots_filter, list_elem_of_filter, <- not_true_iff_false, hasParent_true.
  split.
  - intros [Hnp Hn]. split; [done|]. intros u Hin. apply Hnp. by exists (u, n).
  - intros [Hn Hnp]. split; [|done]. intros ([u n'] & Hin & Heq). simpl in Heq. subst.
    by apply (Hnp u).
Qed.

Lemma declared_reached (es : list (NodeID * NodeID)) (ns : list NodeID)
    (rank : NodeID → nat) (B : nat) (yx : gmap NodeID LayerPosition) :
  Forall (λ e, (rank e.2 < rank e.1)%nat) es →
  Forall (λ e, e.1 ∈ ns ∧ e.2 ∈ ns) es →
  Forall (λ n, (rank n <= B)%nat) ns →
  levels_inv es (Roots es ns) yx [] (λ _ _, False) →
  ∀ n, n ∈ ns → is_Some (yx !! n).
Proof.
  intros Hrank Hnodes Hbound Hinv.
  assert (G : ∀ (k : nat) n, n ∈ ns → (B - rank n <= k)%nat → is_Some (yx !! n)).
  { induction k as [|k IH]; intros n Hn Hk.
    - destruct (lookupB (hasParent es) n) eqn:Hp.
      + apply hasParent_true in Hp as ([u n'] & Hin & Heq). simpl in Heq. subst.
        pose proof (proj1 (Forall_forall _ _) Hrank _ Hin) as Hlt.
        pose proof (proj1 (Forall_forall _ _) Hnodes _ Hin) as [Hu _].
        pose proof (proj1 (Forall_forall _ _) Hbound _ Hu) as HuB. simpl in *. lia.
      + apply (inv_root _ _ _ _ _ Hinv). rewrite Roots_filter. by apply list_elem_of_filter.
    - destruct (lookupB (hasParent es) n) eqn:Hp.
      + apply hasParent_true in Hp as ([u n'] & Hin & Heq). simpl in Heq. subst.
        pose proof (proj1 (Forall_forall _ _) Hrank _ Hin) as Hlt.
        pose proof (proj1 (Forall_forall _ _) Hnodes _ Hin) as [Hu _]. simpl in *.
        assert (Hu' : is_Some (yx !! u)) by (apply IH; [done|lia]).
        by destruct (inv_edge _ _ _ _ _ Hinv u n Hin Hu') as [[]%elem_of_nil|[[]|[? _]]].
      + apply (inv_root _ _ _ _ _ Hinv). rewrite Roots_filter. by apply list_elem_of_filter. }
  intros n Hn. apply (G B); [done|lia].
Qed.

Lemma layer_bound (es : list (NodeID * NodeID)) (ns : list NodeID)
    (rank : NodeID → nat) (B : nat) (yx : gmap NodeID LayerPosition) :
  Forall (λ e, (rank e.2 < rank e.1)%nat) es →
  Forall (λ n, (rank n <= B)%nat) ns →
  levels_inv es (Roots es ns) yx [] (λ _ _, False) →
  ∀ n, 0 <= layerOf yx n <= Z.of_nat B.
Proof.
  intros Hrank Hbound Hinv n. unfold lookupP.
  destruct (yx !! n) as [pos|] eqn:E; simpl; [|lia].
  destruct (inv_pos _ _ _ _ _ Hinv n pos E) as [H0 _].
  destruct (inv_path _ _ _ _ _ Hinv n pos E) as (r & Hr & Hp).
  apply (path_rank es rank) in Hp; [|done].
  apply Roots_elem_of in Hr as [Hr _].
  pose proof (proj1 (Forall_forall _ _) Hbound _ Hr) as HrB. simpl in HrB. lia.
Qed.

Lemma dummyCount_bound (yx : gmap NodeID LayerPosition) (B : Z) (l : list (NodeID * NodeID)) :
  (∀ n, 0 <= layerOf yx n <= B) →
  dummyCount yx l <= Z.of_nat (length l) * B.
Proof.
  intros Hb. induction l as [|e l IH]; simpl; [lia|].
  pose proof (Hb e.1). pose proof (Hb e.2). unfold gap. lia.
Qed.

(** X21: on an acyclic graph whose edges join declared nodes, and as long
    as the dummy ids stay below [2^64], [NewLayeredGraph] returns (once the
    queue loop is given enough rounds) a layered graph in which every
    segment goes down by exactly one layer, which [Validate] therefore
    accepts, and in which every edge of the graph points downwards. *)
Theorem NewLayeredGraph_proper_layering (es es' : list (NodeID * NodeID)) (ns : list NodeID)
    (rank : NodeID → nat) (B : nat)
    (Hperm : es' ≡ₚ es)
    (Hrank : Forall (λ e, (rank e.2 < rank e.1)%nat) es)
    (Hnodes : Forall (λ e, e.1 ∈ ns ∧ e.2 ∈ ns) es)
    (Hbound : Forall (λ n, (rank n <= B)%nat) ns)
    (Hwrap : Z.of_N (maxNodeID es') + 1 + Z.of_nat (length es') * Z.of_nat B < 2 ^ 64) :
  ∃ fuel0 lg,
    (∀ fuel, (fuel0 <= fuel)%nat → NewLayeredGraph fuel es ns es' = Some lg) ∧
    (∀ s, is_Some (Segments lg !! s) →
          Layer (position lg s.2) = Layer (position lg s.1) + 1) ∧
    (∀ segs, enumerates segs (Segments lg) → Validate segs lg = None) ∧
    (∀ u v, (u, v) ∈ es → Layer (position lg u) < Layer (position lg v)).
Proof.
  set (fuel0 := sum_list_with (rounds es rank) (Roots es ns)).
  destruct (assignLevels_enough es rank Hrank ns fuel0) as [yx Hyx]; [done|].
  pose proof (assignLevels_inv es fuel0 ns yx Hyx) as Hinv.
  pose proof (layer_bound es ns rank B yx Hrank Hbound Hinv) as Hlayers.
  pose proof (declared_reached es ns rank B yx Hrank Hnodes Hbound Hinv) as Hreached.
  pose proof (dummyCount_bound yx (Z.of_nat B) es' Hlayers) as Hcount.
  pose proof (dummyCount_nonneg yx es') as Hcount0.
  assert (Hgap : ∀ e, e ∈ es' → 1 <= gap yx e).
  { intros [u v] Hin. rewrite Hperm in Hin.
    pose proof (proj1 (Forall_forall _ _) Hnodes _ Hin) as [Hu _]. simpl in Hu.
    destruct (inv_edge _ _ _ _ _ Hinv u v Hin (Hreached u Hu)) as [[]%elem_of_nil|[[]|[_ Hle]]].
    unfold gap. simpl. lia. }
  assert (Hs : uint64_succ (maxNodeID es') = (maxNodeID es' + 1)%N)
    by (apply uint64_succ_nowrap; lia).
  set (st := makeEdges es' yx).
  destruct (makeEdges_fold_nowrap yx (maxNodeID es') es'
     {| es_nodeYX := yx; es_next := uint64_succ (maxNodeID es'); es_edges := ∅ |})
     as (I1 & I2 & I3); simpl.
  { intros e. apply maxNodeID_ge. }
  { rewrite Hs. lia. }
  { done. }
  { rewrite Hs. lia. }
  { intros e nodes. by rewrite lookup_empty. }
  fold (makeEdges es' yx) in I1, I2, I3. fold st in I1, I2, I3.
  destruct (makeEdges_fold_chains es'
     {| es_nodeYX := yx; es_next := uint64_succ (maxNodeID es'); es_edges := ∅ |})
     as [Hkeys _].
  fold (makeEdges es' yx) in Hkeys. fold st in Hkeys. simpl in Hkeys.
  assert (Hsome : is_Some (makeSegments (es_edges st))).
  { apply makeSegments_is_Some. intros e nodes He.
    destruct (I3 e nodes He) as (_ & _ & fakes & -> & _).
    unfold len. simpl. rewrite length_app. simpl. lia. }
  destruct Hsome as [segments Hseg].
  set (lg := {| NodePosition := es_nodeYX st; Segments := segments;
                Dummy := makeDummy (es_edges st); LEdges := es_edges st |}).
  assert (Hunit : ∀ s, is_Some (Segments lg !! s) →
            Layer (position lg s.2) = Layer (position lg s.1) + 1).
  { intros s [b Hb]. simpl in Hb.
    destruct (makeSegments_lookup _ _ s Hseg) as [Hnf Hiff].
    destruct b; [|done]. apply Hiff in Hb as (e & nodes & He & Hcase).
    assert (Hin : e ∈ es').
    { destruct (Hkeys e) as [Hk _]. destruct Hk as [?|[? Hk]]; [eauto|done|].
      by rewrite lookup_empty in Hk. }
    destruct (I3 e nodes He) as (_ & _ & fakes & -> & Hlen & _ & Hu).
    specialize (Hu (Hgap e Hin)). unfold position. simpl.
    destruct Hcase as [[Hl ->]|[_ (i & Hi1 & Hi2)]].
    - destruct fakes as [|f fakes]; [|unfold len in Hl; simpl in Hl; rewrite length_app in Hl; simpl in Hl; lia].
      by apply (Hu 0%nat).
    - by apply (Hu i). }
  exists fuel0, lg. split_and!.
  - intros fuel Hle. unfold NewLayeredGraph.
    rewrite (assignLevels_fuel_mono es ns fuel0 fuel yx Hyx Hle). simpl.
    fold st. rewrite Hseg. done.
  - exact Hunit.
  - intros segs Hsegs. apply Validate_nil_iff, Forall_forall. intros e He.
    apply (proj1 (enumerates_elem_of segs (Segments lg) e Hsegs)) in He.
    unfold descending_segment. rewrite (Hunit e He). lia.
  - intros u v Huv.
    assert (Hin : (u, v) ∈ es') by (by rewrite Hperm).
    destruct (maxNodeID_ge es' (u, v) Hin) as [Hu Hv]. simpl in Hu, Hv.
    unfold position, lookupP. simpl. rewrite (I2 u Hu), (I2 v Hv).
    specialize (Hgap (u, v) Hin). unfold gap, lookupP in Hgap. simpl in Hgap. lia.
Qed.

Lemma NewLayeredGraph_proper_layering_witness :
  let ns := [1%N; 2%N; 3%N; 4%N] in
  ∃ fuel0 lg,
    (∀ fuel, (fuel0 <= fuel)%nat →
       NewLayeredGraph fuel triangle_edges ns triangle_edges = Some lg) ∧
    (∀ s, is_Some (Segments lg !! s) →
          Layer (position lg s.2) = Layer (position lg s.1) + 1) ∧
    (∀ segs, enumerates segs (Segments lg) → Validate segs lg = None) ∧
    (∀ u v, (u, v) ∈ triangle_edges → Layer (position lg u) < Layer (position lg v)).
Proof.
  apply (NewLayeredGraph_proper_layering triangle_edges triangle_edges [1%N; 2%N; 3%N; 4%N]
           (λ n, N.to_nat (3 - n)) 2).
  - reflexivity.
  - unfold triangle_edges. repeat constructor; simpl; lia.
  - unfold triangle_edges. repeat constructor.
  - repeat constructor; simpl; lia.
  - vm_compute. reflexivity.
Defined.

(** ** Transposition never adds crossings *)

Section count2_more.
Context {A B : Type} (P : A * B → Prop) `{∀ x, Decision (P x)}.

Lemma count2_app_l (l1 l2 : list A) (k : list B) :
  count2 P (l1 ++ l2) k = (count2 P l1 k + count2 P l2 k)%nat.
Proof. unfold count2. by rewrite sum_list_with_app. Qed.

Lemma count2_app_r (l : list A) (k1 k2 : list B) :
  count2 P l (k1 ++ k2) = (count2 P l k1 + count2 P l k2)%nat.
Proof.
  unfold count2. induction l as [|a l IH]; [done|]. simpl.
  rewrite IH, filter_app, length_app. lia.
Qed.

Lemma count2_nil_r (l : list A) : count2 P l [] = 0%nat.
Proof.
  unfold count2. induction l as [|a l IH]; [done|].
  cbn [sum_list_with]. rewrite IH. by rewrite filter_nil.
Qed.

Lemma count2_bind_l {C} (T : list C) (W : C → list A) (k : list B) :
  count2 P (T ≫= W) k = sum_list_with (λ t, count2 P (W t) k) T.
Proof.
  induction T as [|t T IH]; [done|]. rewrite bind_cons, count2_app_l, IH. done.
Qed.

Lemma count2_bind_r {C} (l : list A) (T : list C) (W : C → list B) :
  count2 P l (T ≫= W) = sum_list_with (λ t, count2 P l (W t)) T.
Proof.
  induction T as [|t T IH]; [by rewrite count2_nil_r|].
  rewrite bind_cons, count2_app_r, IH. done.
Qed.

Lemma count2_none (l : list A) (k : list B) :
  (∀ a b, a ∈ l → b ∈ k → ¬ P (a, b)) → count2 P l k = 0%nat.
Proof.
  intros Hn. unfold count2. induction l as [|a l IH]; [done|]. simpl.
  rewrite IH by (intros; apply Hn; [by right|done]).
  rewrite length_filter_none; [done|]. intros b Hb. apply Hn; [by left|done].
Qed.
End count2_more.

Lemma count2_fmap {A B A' B'} (P : A' * B' → Prop) `{∀ x, Decision (P x)}
    (f : A → A') (g : B → B') (l : list A) (k : list B) :
  count2 P (f <$> l) (g <$> k) = count2 (λ pr, P (f pr.1, g pr.2)) l k.
Proof.
  unfold count2. induction l as [|a l IH]; [done|]. csimpl. rewrite IH. f_equal.
  clear. induction k as [|b k IH]; [done|]. csimpl. rewrite !filter_cons. simpl.
  destruct (decide (P (f a, g b))); simpl; by rewrite IH.
Qed.

Lemma count2_ext {A B} (P Q : A * B → Prop) `{∀ x, Decision (P x)} `{∀ x, Decision (Q x)}
    (l : list A) (k : list B) :
  (∀ a b, P (a, b) ↔ Q (a, b)) → count2 P l k = count2 Q l k.
Proof.
  intros HPQ. unfold count2. induction l as [|a l IH]; [done|]. simpl. rewrite IH. f_equal.
  apply length_filter_ext_in. intros b _. apply HPQ.
Qed.

Lemma sum_list_with_ext_in {A} (f g : A → nat) (l : list A) :
  (∀ x, x ∈ l → f x = g x) → sum_list_with f l = sum_list_with g l.
Proof.
  induction l as [|x l IH]; intros Hfg; [done|]. simpl.
  rewrite Hfg by (by left). rewrite IH; [done|]. intros; apply Hfg. by right.
Qed.

Lemma sum_list_with_zero {A} (f : A → nat) (l : list A) :
  (∀ x, x ∈ l → f x = 0%nat) → sum_list_with f l = 0%nat.
Proof.
  induction l as [|x l IH]; intros Hf; [done|]. simpl.
  rewrite Hf by (by left). rewrite IH; [done|]. intros; apply Hf. by right.
Qed.

Lemma sum_list_with_add {A} (f g : A → nat) (l : list A) :
  sum_list_with (λ x, f x + g x)%nat l = (sum_list_with f l + sum_list_with g l)%nat.
Proof. induction l as [|x l IH]; [done|]. simpl. rewrite IH. lia. Qed.

Lemma tagged_cons (k : Z) (x : NodeID) (l : list NodeID) :
  tagged k (x :: l) = (k, x) :: tagged (k + 1) l.
Proof.
  unfold tagged. simpl. f_equal; [f_equal; lia|].
  apply imap_ext. intros i y _. simpl. f_equal. lia.
Qed.

Lemma tagged_indexed (l : list NodeID) : tagged 0 l = indexed l.
Proof. unfold tagged, indexed. apply imap_ext. intros i y _. simpl. done. Qed.

Lemma elem_of_tagged (k : Z) (l : list NodeID) (j : Z) (x : NodeID) :
  (j, x) ∈ tagged k l → k <= j ∧ x ∈ l.
Proof.
  revert k. induction l as [|y l IH]; intros k; [by intros ?%elem_of_nil|].
  rewrite tagged_cons. intros [?|Hin]%elem_of_cons.
  - simplify_eq. split; [lia|by left].
  - apply IH in Hin as [? ?]. split; [lia|by right].
Qed.

Lemma sum_tagged (f : NodeID → nat) (l : list NodeID) : ∀ k,
  sum_list_with (λ t : Z * NodeID, f t.2) (tagged k l) = sum_list_with f l.
Proof.
  induction l as [|y l IH]; intros k; [done|]. rewrite tagged_cons. simpl. by rewrite IH.
Qed.

Section pair_sum.
Variable W : Z → NodeID → list (Z * Z).
Local Abbreviation segsOf := (segsOf W).
Local Abbreviation pairCross := (pairCross W).
Hypothesis Hsame : ∀ j a b, count2 crossesP (W j a) (W j b) = 0%nat.
Hypothesis Hpair : ∀ j1 j2 a b, j1 < j2 →
  (count2 crossesP (W j1 a) (W j2 b) + count2 crossesP (W j2 b) (W j1 a))%nat = pairCross a b.

Lemma total_pairSum (l : list NodeID) : ∀ k,
  count2 crossesP (segsOf (tagged k l)) (segsOf (tagged k l)) = pairSum pairCross l.
Proof.
  induction l as [|x l IH]; intros k; [done|].
  rewrite tagged_cons. unfold segsOf. rewrite bind_cons. fold (segsOf (tagged (k + 1) l)).
  rewrite count2_app_l, !count2_app_r, IH, Hsame. simpl.
  unfold segsOf. rewrite count2_bind_r, count2_bind_l.
  rewrite <- sum_tagged with (k := (k + 1)).
  assert (E : (sum_list_with (λ t : Z * NodeID, count2 crossesP (W k x) (W t.1 t.2)) (tagged (k + 1) l)
            + sum_list_with (λ t : Z * NodeID, count2 crossesP (W t.1 t.2) (W k x)) (tagged (k + 1) l))%nat
            = sum_list_with (λ t : Z * NodeID, pairCross x t.2) (tagged (k + 1) l)).
  { rewrite <- sum_list_with_add. apply sum_list_with_ext_in. intros [j y] Hin.
    apply elem_of_tagged in Hin as [Hj _]. simpl. apply Hpair. lia. }
  lia.
Qed.

Lemma pairSum_swap (l1 l2 : list NodeID) (a b : NodeID) :
  (pairSum pairCross (l1 ++ a :: b :: l2) + pairCross b a =
   pairSum pairCross (l1 ++ b :: a :: l2) + pairCross a b)%nat.
Proof.
  induction l1 as [|x l1 IH]; simpl.
  - lia.
  - rewrite !sum_list_with_app. simpl. lia.
Qed.

Lemma pairSum_two (a b : NodeID) : pairSum pairCross [a; b] = pairCross a b.
Proof. simpl. lia. Qed.
End pair_sum.

Lemma bind_app_pointwise {A B} (k : list A) (g h : A → list B) :
  k ≫= (λ y, g y ++ h y) ≡ₚ (k ≫= g) ++ (k ≫= h).
Proof.
  induction k as [|y k IH]; [done|]. rewrite !bind_cons, IH.
  rewrite <- !app_assoc. apply Permutation_app_head.
  rewrite !app_assoc. apply Permutation_app_tail. apply Permutation_app_comm.
Qed.

Lemma bind_swap {A B C} (l : list A) (k : list B) (f : A → B → list C) :
  l ≫= (λ x, k ≫= f x) ≡ₚ k ≫= (λ y, l ≫= (λ x, f x y)).
Proof.
  induction l as [|x l IH].
  - simpl. induction k as [|y k IHk]; [done|]. by rewrite bind_cons, <- IHk.
  - rewrite bind_cons, IH. rewrite <- bind_app_pointwise.
    apply list_bind_Permutation_ext. intros y. by rewrite bind_cons.
Qed.

Lemma fmap_bind_list {A B C} (f : B → C) (g : A → list B) (l : list A) :
  f <$> (l ≫= g) = l ≫= (λ x, f <$> g x).
Proof.
  induction l as [|x l IH]; [done|]. by rewrite !bind_cons, fmap_app, IH.
Qed.

Section transposition.
Variable segments : gmap (NodeID * NodeID) bool.
Variable fixed : list NodeID.

Local Abbreviation WA := (WA segments fixed).
Local Abbreviation WB := (WB segments fixed).
Local Abbreviation against := (against segments fixed).

Lemma segmentPositions_top (layer : list NodeID) :
  segmentPositions segments layer fixed ≡ₚ segsOf WA (indexed layer).
Proof.
  unfold segmentPositions, segsOf, WA, endsBelow.
  trans (indexed fixed ≫= (λ ic : Z * NodeID, indexed layer ≫= (λ ja : Z * NodeID,
           if lookupB segments (ja.2, ic.2) then [(ja.1, ic.1)] else []))).
  { apply list_bind_Permutation_ext. intros [i c]. simpl.
    apply list_bind_Permutation_ext. by intros [j a]. }
  etrans; [apply bind_swap|].
  apply list_bind_Permutation_ext. intros [j a]. simpl.
  rewrite fmap_bind_list. apply list_bind_Permutation_ext. intros [i c]. simpl.
  by destruct (lookupB segments (a, c)).
Qed.

Lemma segmentPositions_bottom (layer : list NodeID) :
  segmentPositions segments fixed layer ≡ₚ segsOf WB (indexed layer).
Proof.
  unfold segmentPositions, segsOf, WB, endsAbove.
  apply list_bind_Permutation_ext. intros [i c]. simpl.
  rewrite fmap_bind_list. apply list_bind_Permutation_ext. intros [j a]. simpl.
  by destruct (lookupB segments (a, c)).
Qed.

Lemma crosses_top (j1 j2 : Z) (H1 H2 : list Z) :
  count2 crossesP (pair j1 <$> H1) (pair j2 <$> H2) =
  if decide (j1 < j2) then count2 (λ pr : Z * Z, pr.2 < pr.1) H1 H2 else 0%nat.
Proof.
  rewrite (count2_fmap crossesP). case_decide as Hj.
  - apply count2_ext. intros i1 i2. unfold crosses. simpl.
    rewrite andb_True, !Is_true_true, !Z.ltb_lt. tauto.
  - apply count2_none. intros i1 i2 _ _. unfold crosses. simpl.
    rewrite andb_True, !Is_true_true, !Z.ltb_lt. tauto.
Qed.

Lemma crosses_bottom (i1 i2 : Z) (H1 H2 : list Z) :
  count2 crossesP ((λ j, (j, i1)) <$> H1) ((λ j, (j, i2)) <$> H2) =
  if decide (i2 < i1) then count2 (λ pr : Z * Z, pr.1 < pr.2) H1 H2 else 0%nat.
Proof.
  rewrite (count2_fmap crossesP). case_decide as Hj.
  - apply count2_ext. intros j1 j2. unfold crosses. simpl.
    rewrite andb_True, !Is_true_true, !Z.ltb_lt. tauto.
  - apply count2_none. intros j1 j2 _ _. unfold crosses. simpl.
    rewrite andb_True, !Is_true_true, !Z.ltb_lt. tauto.
Qed.

Lemma naiveCrossings_top (layer : list NodeID) :
  naiveCrossings segments layer fixed = Z.of_nat (pairSum (pairCross WA) layer).
Proof.
  unfold naiveCrossings. fold (crossCount (segmentPositions segments layer fixed)).
  rewrite (crossCount_Permutation _ _ (segmentPositions_top layer)), crossCount_count2.
  f_equal. rewrite <- tagged_indexed. apply total_pairSum.
  - intros j a b. unfold WA. rewrite crosses_top. by rewrite decide_False by lia.
  - intros j1 j2 a b Hlt. unfold pairCross, WA. rewrite !crosses_top.
    rewrite decide_True by done. rewrite decide_False by lia.
    rewrite decide_True by lia. rewrite decide_False by lia. done.
Qed.

Lemma naiveCrossings_bottom (layer : list NodeID) :
  naiveCrossings segments fixed layer = Z.of_nat (pairSum (pairCross WB) layer).
Proof.
  unfold naiveCrossings. fold (crossCount (segmentPositions segments fixed layer)).
  rewrite (crossCount_Permutation _ _ (segmentPositions_bottom layer)), crossCount_count2.
  f_equal. rewrite <- tagged_indexed. apply total_pairSum.
  - intros j a b. unfold WB. rewrite crosses_bottom. by rewrite decide_False by lia.
  - intros j1 j2 a b Hlt. unfold pairCross, WB. rewrite !crosses_bottom.
    rewrite decide_False by lia. rewrite decide_True by done.
    rewrite decide_False by lia. rewrite decide_True by lia. done.
Qed.

Lemma against_swap (downUp : bool) (l1 l2 : list NodeID) (a b : NodeID) :
  against downUp (l1 ++ b :: a :: l2) + against downUp [a; b] =
  against downUp (l1 ++ a :: b :: l2) + against downUp [b; a].
Proof.
  unfold against. destruct downUp.
  - rewrite !naiveCrossings_top, !pairSum_two.
    pose proof (pairSum_swap WA l1 l2 a b). lia.
  - rewrite !naiveCrossings_bottom, !pairSum_two.
    pose proof (pairSum_swap WB l1 l2 a b). lia.
Qed.
End transposition.

Lemma swap_adjacent_split {A} (l : list A) (i : nat) (a b : A) :
  l !! i = Some a → l !! S i = Some b →
  ∃ l1 l2, l = l1 ++ a :: b :: l2 ∧ <[S i := a]> (<[i := b]> l) = l1 ++ b :: a :: l2.
Proof.
  revert i. induction l as [|x l IH]; intros i Ha Hb; [done|].
  destruct i as [|i]; simpl in *.
  - simplify_eq. destruct l as [|y l]; simplify_eq/=. by exists [], l.
  - destruct (IH i Ha Hb) as (l1 & l2 & -> & ->). by exists (x :: l1), l2.
Qed.

Lemma switchStep_against (segments : gmap (NodeID * NodeID) bool) (fixed : list NodeID)
    (downUp : bool) (layer layer' : list NodeID) (i : Z) :
  switchStep segments fixed downUp layer i = Some layer' →
  layer' = layer ∨ against segments fixed downUp layer' < against segments fixed downUp layer.
Proof.
  unfold switchStep. intros Hs.
  destruct (index layer i) as [a|] eqn:Ha; [|done].
  destruct (index layer (i + 1)) as [b|] eqn:Hb; [|done].
  cbn [mbind option_bind] in Hs.
  assert (Hc : layer' = layer ∨
    (against segments fixed downUp [b; a] < against segments fixed downUp [a; b] ∧
     layer' = <[Z.to_nat (i + 1) := a]> (<[Z.to_nat i := b]> layer))).
  { unfold against. destruct downUp; rewrite !numCrossingsBetweenLayers_naive in Hs;
      cbn [mbind option_bind] in Hs;
      match type of Hs with context [?x <? ?y] => destruct (Z.ltb_spec x y) end;
      simplify_eq; auto. }
  destruct Hc as [->|[Hlt ->]]; [by left|]. right.
  unfold index in Ha, Hb.
  destruct (Z.ltb_spec i 0); [done|]. destruct (Z.ltb_spec (i + 1) 0); [lia|].
  replace (Z.to_nat (i + 1)) with (S (Z.to_nat i)) in * by lia.
  destruct (swap_adjacent_split layer (Z.to_nat i) a b Ha Hb) as (l1 & l2 & -> & ->).
  pose proof (against_swap segments fixed downUp l1 l2 a b). lia.
Qed.

Lemma switchLoop_against (segments : gmap (NodeID * NodeID) bool) (fixed : list NodeID)
    (downUp : bool) (ixs : list Z) : ∀ layer layer',
  foldlM (switchStep segments fixed downUp) layer ixs = Some layer' →
  layer' = layer ∨ against segments fixed downUp layer' < against segments fixed downUp layer.
Proof.
  induction ixs as [|i ixs IH]; intros layer layer' Hrun; simpl in Hrun.
  - simplify_eq. by left.
  - destruct (switchStep _ _ _ _ _) as [l1|] eqn:H1; [|done]. simpl in Hrun.
    apply switchStep_against in H1. apply IH in Hrun.
    destruct H1 as [->|H1], Hrun as [->|Hrun]; auto. right. lia.
Qed.

(** X22: a call of [SwitchAdjacentOrderingOptimizer.Optimize] never
    increases the number of crossings between layer [y] and the neighbour
    layer it compares against (the layer below when [downUp], the layer
    above otherwise): either layer [y] is left as it was, or that number,
    as [numCrossingsBetweenLayers] counts it, has gone down. *)
Theorem SwitchAdjacent_never_worse (segments : gmap (NodeID * NodeID) bool)
    (layers layers' : list (list NodeID)) (y : Z) (downUp : bool)
    (layer layer' fixed : list NodeID)
    (Hrun : SwitchAdjacentOptimize segments layers y downUp = Some layers')
    (Hfixed : index layers (if downUp then y + 1 else y - 1) = Some fixed)
    (Hl : index layers y = Some layer) (Hl' : index layers' y = Some layer') :
  let crossingsWith l :=
    if downUp then numCrossingsBetweenLayers segments l fixed
    else numCrossingsBetweenLayers segments fixed l in
  ∃ c c', crossingsWith layer = Some c ∧ crossingsWith layer' = Some c' ∧
          (layer' = layer ∨ c' < c).
Proof.
  intros crossingsWith.
  assert (Hc : ∀ l, crossingsWith l = Some (against segments fixed downUp l)).
  { intros l. unfold crossingsWith, against.
    destruct downUp; apply numCrossingsBetweenLayers_naive. }
  exists (against segments fixed downUp layer), (against segments fixed downUp layer').
  split; [apply Hc|]. split; [apply Hc|].
  unfold SwitchAdjacentOptimize in Hrun. rewrite Hl in Hrun. simpl in Hrun.
  assert (Hsame : layers' = layers → layer' = layer ∨
     against segments fixed downUp layer' < against segments fixed downUp layer).
  { intros ->. left. congruence. }
  destruct (len layer <? 2); [apply Hsame; congruence|].
  destruct (downUp && (y =? len layers - 1)); [apply Hsame; congruence|].
  destruct (negb downUp && (y =? 0)); [apply Hsame; congruence|].
  rewrite Hfixed in Hrun. simpl in Hrun.
  destruct (foldlM _ _ _) as [layer1|] eqn:Hf; [|done]. simpl in Hrun. simplify_eq.
  assert (Hy : 0 <= y < len layers) by (apply index_Some_iff; eauto).
  rewrite index_insert in Hl' by lia. rewrite decide_True in Hl' by done. simplify_eq.
  by eapply switchLoop_against.
Qed.

Lemma SwitchAdjacent_never_worse_witness :
  let crossingsWith l := numCrossingsBetweenLayers crossed l [3%N; 4%N] in
  ∃ c c', crossingsWith [1%N; 2%N] = Some c ∧ crossingsWith [2%N; 1%N] = Some c' ∧
          ([2%N; 1%N] = [1%N; 2%N] ∨ c' < c).
Proof.
  apply (SwitchAdjacent_never_worse crossed [[1%N; 2%N]; [3%N; 4%N]]
           [[2%N; 1%N]; [3%N; 4%N]] 0 true); vm_compute; reflexivity.
Defined.

(** ** Horizontal coordinates: empty layers *)

Lemma foldlM_fails {A B} (f : B → A → option B) (l : list A) (x : A) :
  x ∈ l → (∀ b, f b x = None) → ∀ b, foldlM f b l = None.
Proof.
  intros Hin Hf. induction l as [|a l IH]; intros b; [by apply elem_of_nil in Hin|].
  simpl. apply elem_of_cons in Hin as [<-|Hin].
  - by rewrite Hf.
  - destruct (f b a); [by apply IH|done].
Qed.

Section empty_layer.
Context `{SliceSorterSpec}.

Lemma Layers_length (ks : list NodeID) (g : LayeredGraph) (layers : list (list NodeID)) :
  Layers ks g = Some layers → len layers = maxLayer g ks + 1.
Proof.
  unfold Layers. intros Hrun.
  destruct (foldlM _ _ ks) as [raw|] eqn:Hraw; [|done]. simpl in Hrun.
  apply bucket_fold in Hraw as (Hlen & _ & _).
  apply mapM_Some in Hrun. unfold len.
  rewrite <- (Forall2_length _ _ _ Hrun), Hlen, length_replicate.
  pose proof (maxLayer_ge g ks) as [? _]. lia.
Qed.

Lemma Layers_empty_layer (ks : list NodeID) (g : LayeredGraph) (layers : list (list NodeID))
    (y : Z) :
  Layers ks g = Some layers →
  0 <= y <= maxLayer g ks → (∀ n, n ∈ ks → Layer (position g n) ≠ y) →
  layers !! Z.to_nat y = Some [].
Proof.
  intros Hrun Hy Hnone.
  pose proof (Layers_length ks g layers Hrun) as Hlen.
  destruct (lookup_lt_is_Some_2 layers (Z.to_nat y)) as [l Hl]; [unfold len in Hlen; lia|].
  destruct (Layers_buckets ks g layers Hrun) as [_ Hcontent].
  specialize (Hcontent _ _ Hl). rewrite Hl. f_equal.
  assert (Hf : filter (in_layer g (Z.of_nat (Z.to_nat y))) ks = []).
  { rewrite Z2Nat.id by lia. clear -Hnone. induction ks as [|k ks IH]; [done|].
    rewrite filter_cons_False.
    - apply IH. intros. apply Hnone. by right.
    - unfold in_layer. apply Hnone. by left. }
  rewrite Hf in Hcontent. by apply Permutation_nil_r in Hcontent.
Qed.

Lemma horizontalCompaction_empty_layer (fuel : nat) (dir : singleDirAlgo)
    (ks ps : list NodeID) (g : LayeredGraph) (root align : gmap NodeID NodeID)
    (delta y : Z) :
  0 <= y <= maxLayer g ks → (∀ n, n ∈ ks → Layer (position g n) ≠ y) →
  horizontalCompaction fuel dir ks ps g root align delta = None.
Proof.
  intros Hy Hnone. unfold horizontalCompaction.
  destruct (Layers ks g) as [layers|] eqn:HL; [|done]. simpl.
  destruct (foldlM _ _ ps) as [st|]; [|done]. simpl.
  pose proof (Layers_empty_layer ks g layers y HL Hy Hnone) as Hl.
  rewrite (foldlM_fails _ _ (y, [])); [done| |].
  - unfold layersInOrder. 
    assert (Hin : (y, []) ∈ indexed layers).
    { apply list_elem_of_lookup. exists (Z.to_nat y). rewrite indexed_lookup, Hl. simpl.
      f_equal. f_equal. lia. }
    destruct (isTop dir); [done|]. by apply elem_of_reverse.
  - intros b. by destruct (isLeft dir).
Qed.
End empty_layer.

Lemma foldlM_insert_dom {V} (f : gmap NodeID V → NodeID → option (gmap NodeID V))
    (ks : list NodeID) :
  (∀ x n x', f x n = Some x' → ∃ v, x' = <[n := v]> x) →
  ∀ x0 x, foldlM f x0 ks = Some x →
  ∀ n, is_Some (x !! n) ↔ n ∈ ks ∨ is_Some (x0 !! n).
Proof.
  intros Hf. induction ks as [|k ks IH]; intros x0 x Hrun n; simpl in Hrun.
  - simplify_eq. rewrite elem_of_nil. tauto.
  - destruct (f x0 k) as [x1|] eqn:Hk; [|done]. simpl in Hrun.
    apply Hf in Hk as [v ->]. rewrite (IH _ _ Hrun), lookup_insert_is_Some, elem_of_cons.
    destruct (decide (k = n)) as [->|Hne]; [tauto|]. split.
    + intros [?|[?|[_ ?]]]; [by left; right|done|by right].
    + intros [[?|?]|?]; [by subst|by left|by right; right].
Qed.

Section nhc_edge.
Context `{SliceSorterSpec}.

Lemma runAlgo_empty_layer (fuel : nat) (dir : singleDirAlgo) (ks ps : list NodeID)
    (g : LayeredGraph) (t1 : gmap (NodeID * NodeID) bool) (nb : Neighbors)
    (s : BrandesKopfLayersNodesHorizontalAssigner) (y : Z) :
  0 <= y <= maxLayer g ks → (∀ n, n ∈ ks → Layer (position g n) ≠ y) →
  runAlgo fuel dir ks ps g t1 nb s = None.
Proof.
  intros Hy Hnone. unfold runAlgo.
  destruct (verticalAlignment dir ks g t1 nb) as [[root align]|]; [|done].
  cbn [mbind option_bind].
  by rewrite (horizontalCompaction_empty_layer fuel dir ks ps g root align (Delta s) y).
Qed.

(** X23: [NodesHorizontalCoordinates] needs a node on every layer from 0
    to the largest: when some layer in that range is empty, as layer 0 of
    a graph without nodes is, the class-offset loop of the compaction reads
    [layer[0]] of an empty layer and the call yields no result.  When the
    call returns, its result has a coordinate for exactly the keys of
    [NodePosition]. *)
Theorem NodesHorizontalCoordinates_needs_full_layers
    (s : BrandesKopfLayersNodesHorizontalAssigner) (fuel : nat)
    (es : list (NodeID * NodeID)) (ks ps : list NodeID) (g : LayeredGraph) :
  (∀ y, 0 <= y <= maxLayer g ks → (∀ n, n ∈ ks → Layer (position g n) ≠ y) →
        NodesHorizontalCoordinates s fuel es ks ps g = None) ∧
  (∀ x, NodesHorizontalCoordinates s fuel es ks ps g = Some x →
        ∀ n, is_Some (x !! n) ↔ n ∈ ks).
Proof.
  split.
  - intros y Hy Hnone. unfold NodesHorizontalCoordinates.
    destruct (computeOrderedNeighbors es g) as [nb|]; [|done].
    cbn [mbind option_bind].
    destruct (preprocessing ks g nb) as [t1|]; [|done].
    cbn [mbind option_bind].
    by rewrite (runAlgo_empty_layer fuel TopLeft ks ps g t1 nb s y).
  - unfold NodesHorizontalCoordinates. intros x Hrun n.
    destruct (computeOrderedNeighbors es g) as [nb|]; [|done].
    cbn [mbind option_bind] in Hrun.
    destruct (preprocessing ks g nb) as [t1|]; [|done].
    cbn [mbind option_bind] in Hrun.
    destruct (runAlgo fuel TopLeft ks ps g t1 nb s) as [resTL|]; [|done].
    cbn [mbind option_bind] in Hrun.
    destruct (runAlgo fuel TopRight ks ps g t1 nb s) as [resTR|]; [|done].
    cbn [mbind option_bind] in Hrun.
    destruct (if TopDownOnly s then _ else _) as [[resBL resBR]|]; [|done].
    cbn [mbind option_bind] in Hrun.
    eapply foldlM_insert_dom in Hrun.
    + rewrite Hrun, lookup_empty. split; [intros [?|[? ?]]; done|auto].
    + intros x0 k x' Hk. cbn beta in Hk.
      destruct (index _ 1) as [p1|]; [|done]. cbn [mbind option_bind] in Hk.
      destruct (index _ 2) as [p2|]; [|done]. cbn [mbind option_bind] in Hk.
      simplify_eq. eauto.
Qed.
End nhc_edge.

Lemma NodesHorizontalCoordinates_needs_full_layers_witness :
  @NodesHorizontalCoordinates insertionSorter {| Delta := 1; TopDownOnly := false |}
     10 [] [] [] empty_layered = None.
Proof.
  apply (proj1 (@NodesHorizontalCoordinates_needs_full_layers insertionSorter
    insertionSorterSpec {| Delta := 1; TopDownOnly := false |} 10 [] [] [] empty_layered) 0).
  - unfold maxLayer. simpl. lia.
  - intros n Hn. by apply elem_of_nil in Hn.
Defined.

(** ** Edge paths *)

Lemma straightEdge_loop (allNodesXY : gmap NodeID Position)
    (les : list ((NodeID * NodeID) * list NodeID)) :
  NoDup les.*1 →
  ∀ (edges0 : gmap (NodeID * NodeID) Edge) (n0 : Z),
  let body := straightEdge allNodesXY in
  (is_Some (foldlM body (edges0, n0) les) ↔ ∀ e, e ∈ les.*1 → is_Some (edges0 !! e)) ∧
  ∀ edges n, foldlM body (edges0, n0) les = Some (edges, n) →
    n = n0 + len les ∧ dom edges = dom edges0 ∧
    ∀ e, edges !! e =
      match (list_to_map les : gmap (NodeID * NodeID) (list NodeID)) !! e with
      | Some nodes => Some {| Path := lookupXY allNodesXY <$> nodes |}
      | None => edges0 !! e
      end.
Proof.
  induction les as [|[e nodes] les IH]; intros Hnd edges0 n0 body.
  - split; [split; [by intros _ e ?%elem_of_nil|by eauto]|].
    intros edges n Hrun. simpl in Hrun. simplify_eq. unfold len. simpl.
    split_and!; [lia|done|]. intros e. by rewrite lookup_empty.
  - rewrite fmap_cons in Hnd. apply NoDup_cons in Hnd as [Hnot Hnd].
    cbn [fst] in Hnot. unfold body. cbn [foldlM straightEdge]. rewrite fmap_cons. cbn [fst].
    destruct (edges0 !! e) as [old|] eqn:He; cbn [mbind option_bind].
    + destruct (IH Hnd (<[e := {| Path := lookupXY allNodesXY <$> nodes |}]> edges0) (n0 + 1))
        as [IH1 IH2].
      split.
      * etrans; [apply IH1|]. split.
        -- intros Hall e' [->|Hin]%elem_of_cons; [eauto|].
           specialize (Hall e' Hin). apply lookup_insert_is_Some in Hall as [->|[_ ?]]; eauto.
        -- intros Hall e' Hin. apply lookup_insert_is_Some'. right. apply Hall. by right.
      * intros edges n Hrun. destruct (IH2 edges n Hrun) as (Hn & Hdom & Hlook).
        split_and!.
        -- unfold len in *. simpl. lia.
        -- rewrite Hdom. apply dom_insert_lookup_L. eauto.
        -- intros e'. rewrite Hlook, list_to_map_cons.
           destruct (decide (e = e')) as [->|Hne].
           ++ rewrite (not_elem_of_list_to_map_1 les e') by done.
              by rewrite !lookup_insert_eq.
           ++ rewrite !lookup_insert_ne by done. done.
    + split; [|done]. split; [by intros [? ?]|].
      intros Hall. specialize (Hall e). rewrite He in Hall.
      destruct Hall as [? ?]; [by left|done].
Qed.

(** X24: [StraightEdgePathAssigner.UpdateGraphLayout] returns exactly when
    [lg.Edges] and [g.Edges] have the same keys, and panics otherwise.
    When it returns the nodes of [g] are untouched and the path of every
    edge has one point per node of its chain, the coordinates that
    [allNodesXY] gives the node, [(0, 0)] for a node it does not hold. *)
Theorem StraightEdge_paths (lg : LayeredGraph) (g : Graph)
    (allNodesXY : gmap NodeID Position) (les : list ((NodeID * NodeID) * list NodeID))
    (Hles : les ≡ₚ map_to_list (LEdges lg)) :
  (is_Some (StraightEdgeUpdateGraphLayout les g allNodesXY) ↔
   ∀ e, is_Some (LEdges lg !! e) ↔ is_Some (Edges g !! e)) ∧
  ∀ g', StraightEdgeUpdateGraphLayout les g allNodesXY = Some g' →
    Nodes g' = Nodes g ∧
    ∀ e, Edges g' !! e =
         (λ nodes, {| Path := lookupXY allNodesXY <$> nodes |}) <$> LEdges lg !! e.
Proof.
  assert (Hnd : NoDup les.*1).
  { rewrite Hles. apply NoDup_fst_map_to_list. }
  assert (Hmap : (list_to_map les : gmap _ _) = LEdges lg).
  { symmetry. by apply list_to_map_flip. }
  assert (Hkeys : ∀ e, e ∈ les.*1 ↔ is_Some (LEdges lg !! e)).
  { intros e. rewrite Hles. rewrite list_elem_of_fmap. split.
    - intros ([e' nodes] & -> & Hin). apply elem_of_map_to_list in Hin. eauto.
    - intros [nodes Hn]. exists (e, nodes). split; [done|]. by apply elem_of_map_to_list. }
  assert (Hlen : len les = Z.of_nat (size (LEdges lg))).
  { unfold len. by rewrite Hles, length_map_to_list. }
  destruct (straightEdge_loop allNodesXY les Hnd (Edges g) 0) as [Hsome Hres].
  cbv zeta in Hsome, Hres. unfold StraightEdgeUpdateGraphLayout. split.
  - split.
    + intros [g' Hrun].
      destruct (foldlM _ _ les) as [[edges n]|] eqn:Hf; [|done]. simpl in Hrun.
      destruct (Hres edges n eq_refl) as (-> & Hdom & _).
      destruct (Z.eqb_spec (0 + len les) (Z.of_nat (size edges))) as [Heq|]; [|done].
      assert (Hsub : dom (LEdges lg) ⊆ dom (Edges g)).
      { intros e He. apply elem_of_dom. apply Hsome; [first [by rewrite Hf|by eauto]|].
        apply Hkeys. by apply elem_of_dom in He. }
      assert (Hdomeq : dom (LEdges lg) = dom (Edges g)).
      { apply set_subseteq_size_eq; [done|].
        rewrite <- Hdom, !size_dom. lia. }
      intros e. by rewrite <- !elem_of_dom, Hdomeq.
    + intros Hiff.
      destruct (proj2 Hsome) as [[edges n] Hf].
      { intros e He. apply Hiff, Hkeys, He. }
      rewrite Hf. simpl. destruct (Hres edges n Hf) as (-> & Hdom & _).
      assert (Hdomeq : dom (LEdges lg) = dom (Edges g)).
      { apply set_eq. intros e. by rewrite !elem_of_dom. }
      assert (Hsz : size edges = size (LEdges lg)).
      { by rewrite <- (size_dom edges), Hdom, <- Hdomeq, size_dom. }
      rewrite Hsz. destruct (Z.eqb_spec (0 + len les) (Z.of_nat (size (LEdges lg)))); [eauto|lia].
  - intros g' Hrun.
    destruct (foldlM _ _ les) as [[edges n]|] eqn:Hf; [|done]. simpl in Hrun.
    destruct (Hres edges n eq_refl) as (-> & Hdom & Hlook).
    destruct (Z.eqb_spec (0 + len les) (Z.of_nat (size edges))) as [Heq|]; [|done].
    simpl in Hrun. simplify_eq. simpl. split; [done|].
    intros e. rewrite Hlook, Hmap. destruct (LEdges lg !! e) as [nodes|] eqn:He; [done|].
    simpl. apply eq_None_not_Some. intros Hs. apply elem_of_dom in Hs.
    assert (Hsub : dom (LEdges lg) ⊆ dom (Edges g)).
    { intros e' He'. apply elem_of_dom. apply Hsome; [first [by rewrite Hf|by eauto]|].
      apply Hkeys. by apply elem_of_dom in He'. }
    assert (Hdomeq : dom (LEdges lg) = dom (Edges g)).
    { apply set_subseteq_size_eq; [done|].
      rewrite <- Hdom, !size_dom. lia. }
    rewrite <- Hdomeq in Hs. apply elem_of_dom in Hs. rewrite He in Hs. by destruct Hs.
Qed.

Lemma StraightEdge_paths_witness :
  let les := map_to_list (LEdges diamond) in
  (is_Some (StraightEdgeUpdateGraphLayout les diamond_graph diamond_xy) ↔
   ∀ e, is_Some (LEdges diamond !! e) ↔ is_Some (Edges diamond_graph !! e)) ∧
  ∀ g', StraightEdgeUpdateGraphLayout les diamond_graph diamond_xy = Some g' →
    Nodes g' = Nodes diamond_graph ∧
    ∀ e, Edges g' !! e =
         (λ nodes, {| Path := lookupXY diamond_xy <$> nodes |}) <$> LEdges diamond !! e.
Proof. apply (StraightEdge_paths diamond). reflexivity. Defined.

(** ** Ordered neighbours *)

Section ordered_neighbors.
Context `{SliceSorterSpec}.

Lemma sortEntries_fold (g : LayeredGraph) (l : list (NodeID * list NodeID)) :
  NoDup l.*1 →
  ∀ acc0 : gmap NodeID (list NodeID),
  let body := λ (acc : gmap NodeID (list NodeID)) '(k, d),
     d' ← sortSlice (λ a b, IsLeftOf (position g a) (position g b)) d;
     Some (<[k := d']> acc) in
  ((∀ k d, (k, d) ∈ l → ∀ a b, a ∈ d → b ∈ d →
       Layer (position g a) = Layer (position g b)) →
   is_Some (foldlM body acc0 l)) ∧
  ∀ acc, foldlM body acc0 l = Some acc →
    ∀ k, match (list_to_map l : gmap NodeID (list NodeID)) !! k with
         | Some d => ∃ d', acc !! k = Some d' ∧ d ≡ₚ d'
         | None => acc !! k = acc0 !! k
         end.
Proof.
  induction l as [|[k d] l IH]; intros Hnd acc0 body.
  - split; [by eauto|]. intros acc Hrun k. simpl in Hrun. simplify_eq.
    by rewrite list_to_map_nil, lookup_empty.
  - rewrite fmap_cons in Hnd. apply NoDup_cons in Hnd as [Hnot Hnd]. cbn [fst] in Hnot.
    split.
    + intros Hcmp. cbn [foldlM]. unfold body. cbv beta iota.
      destruct (sortSlice_total _ (λ a b, IsLeftOf (position g a) (position g b)) d)
        as [d' Hd'].
      { intros a b Ha Hb. unfold IsLeftOf.
        rewrite decide_True; [eauto|]. apply (Hcmp k d); [by left|done|done]. }
      rewrite Hd'. cbn [mbind option_bind].
      apply (IH Hnd). intros k' d0 Hin. apply (Hcmp k' d0). by right.
    + intros acc Hrun k'. cbn [foldlM] in Hrun. unfold body in Hrun.
      cbv beta iota in Hrun.
      destruct (sortSlice _ d) as [d'|] eqn:Hd'; [|done]. cbn [mbind option_bind] in Hrun.
      apply sortSlice_perm in Hd'.
      destruct (IH Hnd (<[k := d']> acc0)) as [_ IH2].
      specialize (IH2 acc Hrun k'). rewrite list_to_map_cons.
      destruct (decide (k = k')) as [->|Hne].
      * rewrite lookup_insert_eq.
        rewrite (not_elem_of_list_to_map_1 l k') in IH2 by done.
        rewrite lookup_insert_eq in IH2. eauto.
      * rewrite lookup_insert_ne by done.
        destruct (list_to_map l !! k'); [done|]. by rewrite lookup_insert_ne in IH2.
Qed.

Lemma sortEntries_spec (g : LayeredGraph) (m : gmap NodeID (list NodeID)) :
  ((∀ k d, m !! k = Some d → ∀ a b, a ∈ d → b ∈ d →
       Layer (position g a) = Layer (position g b)) →
   is_Some (sortEntries g m)) ∧
  ∀ m', sortEntries g m = Some m' → ∀ k, lookupL m' k ≡ₚ lookupL m k.
Proof.
  unfold sortEntries.
  destruct (sortEntries_fold g (map_to_list m) (NoDup_fst_map_to_list m) ∅) as [H1 H2].
  cbv zeta in H1, H2. split.
  - intros Hcmp. apply H1. intros k d Hin%elem_of_map_to_list. by apply (Hcmp k d).
  - intros m' Hrun k. specialize (H2 m' Hrun k).
    rewrite list_to_map_to_list in H2. unfold lookupL.
    destruct (m !! k) as [d|].
    + destruct H2 as (d' & -> & Hp). simpl. by symmetry.
    + rewrite H2, lookup_empty. done.
Qed.

Lemma upNeighbors_children (es : list (NodeID * NodeID)) (u v : NodeID) :
  u ∈ lookupL (fold_left (λ m e, <[e.2 := lookupL m e.2 ++ [e.1]]> m) es ∅) v ↔ (u, v) ∈ es.
Proof.
  assert (G : ∀ (m : gmap NodeID (list NodeID)),
    u ∈ lookupL (fold_left (λ m e, <[e.2 := lookupL m e.2 ++ [e.1]]> m) es m) v ↔
    u ∈ lookupL m v ∨ (u, v) ∈ es).
  { induction es as [|[a b] es IH]; intros m; simpl.
    - rewrite elem_of_nil. tauto.
    - rewrite IH, elem_of_cons. unfold lookupL at 1. simpl.
      destruct (decide (b = v)) as [->|Hne].
      + rewrite lookup_insert_eq. simpl. rewrite elem_of_app, list_elem_of_singleton.
        split.
        * intros [[?|?]|?]; [by left|subst; by right; left|by right; right].
        * intros [?|[?|?]]; [by left; left|simplify_eq; by left; right|by right].
      + rewrite lookup_insert_ne by done. fold (lookupL m v). split.
        * intros [?|?]; [by left|by right; right].
        * intros [?|[?|?]]; [by left|simplify_eq|by right]. }
  rewrite G. unfold lookupL. rewrite lookup_empty. simpl. rewrite elem_of_nil. tauto.
Qed.

(** X25: [computeOrderedNeighbors] returns when the lower neighbours of
    each node lie on one layer and its upper neighbours too (the
    comparison of the sort does not panic then), and when it returns
    [Down[u]] holds exactly the nodes [v] and [Up[v]] exactly the nodes [u]
    with a key [(u, v)] in [Segments], whatever boolean is stored. *)
Theorem computeOrderedNeighbors_spec (es : list (NodeID * NodeID)) (g : LayeredGraph) :
  ((∀ u v w, (u, v) ∈ es → (u, w) ∈ es →
       Layer (position g v) = Layer (position g w)) →
   (∀ u v w, (u, w) ∈ es → (v, w) ∈ es →
       Layer (position g u) = Layer (position g v)) →
   is_Some (computeOrderedNeighbors es g)) ∧
  ∀ n, computeOrderedNeighbors es g = Some n →
    ∀ u v, (v ∈ lookupL (Down n) u ↔ (u, v) ∈ es) ∧
           (u ∈ lookupL (Up n) v ↔ (u, v) ∈ es).
Proof.
  unfold computeOrderedNeighbors.
  change (fold_left (λ m e, <[e.1 := lookupL m e.1 ++ [e.2]]> m) es ∅)
    with (fromNodeToNodes es).
  set (up := fold_left (λ m e, <[e.2 := lookupL m e.2 ++ [e.1]]> m) es ∅).
  destruct (sortEntries_spec g (fromNodeToNodes es)) as [D1 D2].
  destruct (sortEntries_spec g up) as [U1 U2].
  split.
  - intros Hdown Hup.
    destruct D1 as [down' ->].
    { intros k d Hk a b Ha Hb.
      assert (Hd : d = lookupL (fromNodeToNodes es) k) by (unfold lookupL; by rewrite Hk).
      rewrite Hd in Ha, Hb. apply fromNodeToNodes_children in Ha, Hb. by apply (Hdown k a b). }
    destruct U1 as [up' ->]; [|by eauto].
    intros k d Hk a b Ha Hb.
    assert (Hd : d = lookupL up k) by (unfold lookupL; by rewrite Hk).
    rewrite Hd in Ha, Hb. apply upNeighbors_children in Ha, Hb. by apply (Hup a b k).
  - intros n Hrun.
    destruct (sortEntries g (fromNodeToNodes es)) as [down'|]; [|done].
    cbn [mbind option_bind] in Hrun.
    destruct (sortEntries g up) as [up'|]; [|done].
    cbn [mbind option_bind] in Hrun. simplify_eq. simpl.
    intros u v. split.
    + rewrite (D2 down' eq_refl u). apply fromNodeToNodes_children.
    + rewrite (U2 up' eq_refl v). apply upNeighbors_children.
Qed.
End ordered_neighbors.

Lemma computeOrderedNeighbors_spec_witness :
  let es := (map_to_list (Segments diamond)).*1 in
  ((∀ u v w, (u, v) ∈ es → (u, w) ∈ es →
       Layer (position diamond v) = Layer (position diamond w)) →
   (∀ u v w, (u, w) ∈ es → (v, w) ∈ es →
       Layer (position diamond u) = Layer (position diamond v)) →
   is_Some (@computeOrderedNeighbors insertionSorter es diamond)) ∧
  ∀ n, @computeOrderedNeighbors insertionSorter es diamond = Some n →
    ∀ u v, (v ∈ lookupL (Down n) u ↔ (u, v) ∈ es) ∧
           (u ∈ lookupL (Up n) v ↔ (u, v) ∈ es).
Proof. exact (@computeOrderedNeighbors_spec insertionSorter insertionSorterSpec _ diamond). Defined.

(** ** Type-1 marking without dummy nodes *)

Section no_dummy.
Context `{SliceSorterSpec}.
Variable g : LayeredGraph.
Variable n : Neighbors.
Hypothesis Hdummy : Dummy g = ∅.

Lemma no_inner_segment (v : NodeID) : upperNeighborInnerSegment g n v = 0%N.
Proof.
  unfold upperNeighborInnerSegment.
  assert (Hf : filter (λ u, IsInnerSegment g (u, v) = true) (lookupL (Up n) v) = []).
  { induction (lookupL (Up n) v) as [|u l IH]; [done|].
    rewrite filter_cons_False; [done|].
    unfold IsInnerSegment, lookupB. rewrite Hdummy, lookup_empty. simpl. done. }
  by rewrite Hf.
Qed.

Lemma mark_none (v : NodeID) (k1 : Z) (ups : list NodeID)
    (marked : gmap (NodeID * NodeID) bool) :
  len ups - 1 <= k1 →
  fold_left (λ (marked : gmap (NodeID * NodeID) bool) '(k, u),
      if (k <? 0) || (k >? k1) then <[(u, v) := true]> marked else marked)
    (indexed ups) marked = marked.
Proof.
  intros Hk.
  assert (G : ∀ (l : list (Z * NodeID)), (∀ k u, (k, u) ∈ l → 0 <= k < len ups) →
    fold_left (λ (marked : gmap (NodeID * NodeID) bool) '(k, u),
      if (k <? 0) || (k >? k1) then <[(u, v) := true]> marked else marked) l marked
    = marked).
  { induction l as [|[k u] l IH]; intros Hl; [done|]. simpl.
    destruct (Hl k u) as [? ?]; [by left|].
    replace ((k <? 0) || (k >? k1)) with false by (symmetry; apply orb_false_iff; lia).
    apply IH. intros k' u' ?. apply (Hl k' u'). by right. }
  apply G. intros k u. apply elem_of_indexed.
Qed.

Lemma sweepStep_nothing (upper nextLayer : list NodeID) (st : Sweep) (l1 : Z) (v : NodeID) :
  (∀ w, w ∈ nextLayer → len (lookupL (Up n) w) <= len upper) →
  sw_k0 st = 0 →
  sw_marked (sweepStep g n upper nextLayer st l1 v) = sw_marked st ∧
  (l1 ≠ len nextLayer - 1 → sweepStep g n upper nextLayer st l1 v = st).
Proof.
  intros Hfit Hk0. unfold sweepStep. rewrite no_inner_segment. simpl.
  rewrite orb_false_r. destruct (Z.eqb_spec l1 (len nextLayer - 1)) as [->|Hne]; [|done].
  split; [|done]. simpl. rewrite Hk0.
  generalize (sw_marked st) as marked.
  assert (Hsub : ∀ w, w ∈ take (Z.to_nat (len nextLayer - 1 + 1 - sw_l st))
                            (drop (Z.to_nat (sw_l st)) nextLayer) → w ∈ nextLayer).
  { intros w Hw. apply elem_of_take in Hw as (i & Hw & _).
    rewrite lookup_drop in Hw. by eapply list_elem_of_lookup_2. }
  revert Hsub. generalize (take (Z.to_nat (len nextLayer - 1 + 1 - sw_l st))
                             (drop (Z.to_nat (sw_l st)) nextLayer)) as ws.
  induction ws as [|w ws IH]; intros Hsub marked; [done|]. simpl.
  rewrite mark_none by (specialize (Hfit w (Hsub w ltac:(by left))); lia).
  apply IH. intros w' ?. apply Hsub. by right.
Qed.

Lemma sweep_layer_nothing (upper nextLayer : list NodeID)
    (marked : gmap (NodeID * NodeID) bool) :
  (∀ w, w ∈ nextLayer → len (lookupL (Up n) w) <= len upper) →
  sw_marked
    (fold_left (λ st '(l1, v), sweepStep g n upper nextLayer st l1 v)
       (indexed nextLayer)
       {| sw_marked := marked; sw_k0 := 0; sw_l := 0 |}) = marked.
Proof.
  intros Hfit.
  assert (G : ∀ (l : list (Z * NodeID)) st,
    sw_k0 st = 0 → (∀ l1 v, (l1, v) ∈ l → l1 ≠ len nextLayer - 1) →
    fold_left (λ st '(l1, v), sweepStep g n upper nextLayer st l1 v) l st = st).
  { induction l as [|[l1 v] l IH]; intros st Hk Hl; [done|]. simpl.
    destruct (sweepStep_nothing upper nextLayer st l1 v Hfit Hk) as [_ ->].
    - apply IH; [done|]. intros l1' v' ?. apply (Hl l1' v'). by right.
    - apply (Hl l1 v). by left. }
  destruct (nextLayer) as [|x0 rest] eqn:Hnl using rev_ind; [done|].
  clear IHrest. unfold indexed. rewrite imap_app. simpl. rewrite fold_left_app. simpl.
  fold (indexed rest). rewrite <- Hnl in *.
  rewrite G.
  - by destruct (sweepStep_nothing upper nextLayer
        {| sw_marked := marked; sw_k0 := 0; sw_l := 0 |}
        (Z.of_nat (length rest + 0)) x0 Hfit eq_refl) as [-> _].
  - done.
  - intros l1 v Hin%elem_of_indexed. rewrite Hnl. unfold len in *.
    rewrite length_app. simpl. lia.
Qed.
End no_dummy.

Section no_dummy_theorem.
Context `{SliceSorterSpec}.

(** X26: in a layered graph without dummy nodes, where the upper neighbours
    of every node are distinct nodes of the layer above, [preprocessing]
    marks no segment: it returns the empty map whenever [Layers] returns,
    and panics with it otherwise. *)
Theorem preprocessing_no_dummy (ks : list NodeID) (g : LayeredGraph) (n : Neighbors)
    (Hdummy : Dummy g = ∅)
    (Hup : map_Forall (λ w ups, NoDup ups ∧
              Forall (λ u, u ∈ ks ∧ Layer (position g u) = Layer (position g w) - 1) ups)
             (Up n)) :
  preprocessing ks g n = Layers ks g ≫= (λ _, Some ∅).
Proof.
  unfold preprocessing. destruct (Layers ks g) as [layers|] eqn:HL; [|done]. simpl. f_equal.
  destruct (Layers_buckets ks g layers HL) as [_ Hcontent].
  assert (Hfit : ∀ upper next, (upper, next) ∈ zip layers (drop 1 layers) →
            ∀ w, w ∈ next → len (lookupL (Up n) w) <= len upper).
  { intros upper next Hin w Hw.
    apply list_elem_of_lookup in Hin as (i & Hi).
    apply lookup_zip_with_Some in Hi as (a & b & ? & Ha & Hb). simplify_eq.
    rewrite lookup_drop in Hb. simpl in Hb.
    pose proof (Hcontent _ _ Ha) as Hupper. pose proof (Hcontent _ _ Hb) as Hnext.
    rewrite Hnext in Hw. apply list_elem_of_filter in Hw as [Hlw _]. unfold in_layer in Hlw.
    unfold lookupL. destruct (Up n !! w) as [ups|] eqn:Hups; simpl; [|unfold len; simpl; lia].
    destruct (Hup w ups Hups) as [Hnd Hall].
    assert (Hsub : ups ⊆+ a).
    { apply NoDup_submseteq; [done|]. intros u Hu.
      rewrite Forall_forall in Hall. destruct (Hall u Hu) as [Hk Hl].
      rewrite Hupper. apply list_elem_of_filter. split; [|done]. unfold in_layer. lia. }
    apply submseteq_length in Hsub. unfold len. lia. }
  revert Hfit. generalize (zip layers (drop 1 layers)) as prs.
  assert (G : ∀ (prs : list (list NodeID * list NodeID)) (marked : gmap (NodeID * NodeID) bool),
    (∀ upper next, (upper, next) ∈ prs →
       ∀ w, w ∈ next → len (lookupL (Up n) w) <= len upper) →
    fold_left (λ marked '(upper, nextLayer),
          sw_marked
            (fold_left (λ st '(l1, v), sweepStep g n upper nextLayer st l1 v)
               (indexed nextLayer)
               {| sw_marked := marked; sw_k0 := 0; sw_l := 0 |})) prs marked = marked).
  { induction prs as [|[upper next] prs IH]; intros marked Hfit; [done|]. simpl.
    rewrite (sweep_layer_nothing g n Hdummy upper next marked).
    - apply IH. intros u' n' ?. apply Hfit. by right.
    - apply (Hfit upper next). by left. }
  intros prs Hfit. by apply G.
Qed.
End no_dummy_theorem.

Lemma preprocessing_no_dummy_witness :
  let ks := [4%N; 2%N; 3%N; 1%N] in
  @preprocessing insertionSorter ks diamond diamond_neighbors =
  @Layers insertionSorter ks diamond ≫= (λ _, Some ∅).
Proof.
  apply (@preprocessing_no_dummy insertionSorter insertionSorterSpec); [reflexivity|].
  apply map_Forall_to_list. vm_compute map_to_list.
  repeat apply Forall_cons_2; try apply Forall_nil_2; unfold uncurry; simpl;
    (split;
     [repeat (apply NoDup_cons_2;
              [intros Hx; repeat (apply elem_of_cons in Hx as [Hx|Hx]; [done|]);
               by apply elem_of_nil in Hx|]);
      apply NoDup_nil_2
     |repeat apply Forall_cons_2; try apply Forall_nil_2;
      (split; [repeat constructor|reflexivity])]).
Defined.

(** ** The ordering phase does not panic *)


Section warfield_total.
Context `{SliceSorterSpec} `{LayerOrderingInitializer} `{LayerOrderingOptimizer}.
Hypothesis Init_total : ∀ segments layers, is_Some (Init segments layers).
Hypothesis Optimize_permutes : ∀ segments layers idx downUp layers',
  Optimize segments layers idx downUp = Some layers' → Forall2 (≡ₚ) layers layers'.
Hypothesis Optimize_total : ∀ segments layers idx downUp,
  0 <= idx < len layers → is_Some (Optimize segments layers idx downUp).




End warfield_total.



